(** * DONUTS: sub-pixel shift between a reference image and a check image

    A shallow embedding of [src/donuts.py] (class [Donuts]) and the properties
    of it that the specification states.

    Modelling conventions
    - Pixel values and every quantity computed from them are exact rationals
      ([Qc], rationals in lowest terms, so that equal numbers are equal
      terms).  Rounding of IEEE doubles is not modelled.
    - The file starts with [from __future__ import division]: every [/] of the
      source is true division, also between integers.
    - The one place where the source divides by a computed quantity is the
      vertex formula [b / (2 a)] of the refiner; its result is a [npfloat],
      which has the non-finite values a NumPy scalar division produces.
    - Python exceptions are values of [exn]; a computation is an [outcome].
    - [fft], [ifft] and [conjugate] of SciPy act on spectra; a spectrum is
      represented by the sequence it is the transform of (see [spectrum]). *)

From Stdlib Require Import ZArith QArith Qcanon Qround List String Bool Lia Lra Permutation.
Import ListNotations.

Set Implicit Arguments.

(* ================================================================== *)
(** * Python values and failures *)
(* ================================================================== *)

Module Py.

(** The exceptions a statement of the source can raise, followed by the two
    failures that only the specification names ([DegenerateSignal],
    [DimensionMismatch]): no statement of the source raises those. *)
Inductive exn : Type :=
| NameError (name : string)
| AttributeError (name : string)
| TypeError
| ValueError
| IndexError
| KeyError
| ZeroDivisionError
| DegenerateSignal
| DimensionMismatch.

(** What running a piece of the source gives: a value, a raised exception,
    or [NotModelled]: the source goes on, but on values this development does
    not follow (arrays holding inf or nan, a rank-deficient least-squares
    problem, a library call on an empty grid). *)
Inductive outcome (A : Type) : Type :=
| Ok (a : A)
| Raise (e : exn)
| NotModelled.

Arguments Raise {A} e.
Arguments NotModelled {A}.

Definition bind {A B} (c : outcome A) (k : A -> outcome B) : outcome B :=
  match c with
  | Ok a => k a
  | Raise e => Raise e
  | NotModelled => NotModelled
  end.

(** Names bound at module level while a method of [Donuts] runs
    (the imports of lines 1-5 and the class statement of line 7). *)
Definition module_globals : list string :=
  ["print_function"; "division"; "np"; "fits"; "fft"; "ifft"; "ndimage";
   "conjugate"; "polyfit"; "polyval"; "Donuts"]%string.

Definition is_module_global (name : string) : bool :=
  existsb (String.eqb name) module_globals.

(** Loading a bare name that is neither a local of the running function nor
    a module global (see [unbound_names]). *)
Definition load_global {A} (name : string) : outcome A :=
  Raise (NameError name).

(** Reading an attribute that no statement ever sets on the instance. *)
Definition load_attr_unset {A} (name : string) : outcome A :=
  Raise (AttributeError name).

(** [l[i]] for an integer [i]: a negative index counts from the end. *)
Definition getitem {A} (l : list A) (i : Z) : outcome A :=
  let n := Z.of_nat (List.length l) in
  let j := if (i <? 0)%Z then (i + n)%Z else i in
  if ((0 <=? j) && (j <? n))%Z then
    match nth_error l (Z.to_nat j) with
    | Some a => Ok a
    | None => Raise IndexError
    end
  else Raise IndexError.

(** The bound of a slice, brought into [0, n]. *)
Definition clamp (n i : Z) : Z :=
  if (i <? 0)%Z then Z.max 0 (i + n) else Z.min i n.

(** Number of elements of [l[start:stop]] when [l] has [n] elements. *)
Definition slice_len (n : nat) (start stop : Z) : nat :=
  let a := clamp (Z.of_nat n) start in
  let b := clamp (Z.of_nat n) stop in
  Nat.min (Z.to_nat (b - a)) (n - Z.to_nat a).

(** [l[start:stop]]: never raises, bounds outside the list are clamped. *)
Definition slice {A} (l : list A) (start stop : Z) : list A :=
  let n := Z.of_nat (List.length l) in
  let a := clamp n start in
  let b := clamp n stop in
  firstn (Z.to_nat (b - a)) (skipn (Z.to_nat a) l).

(** [divmod(a, b)] on integers (floor division). *)
Definition divmod (a b : Z) : Z * Z := (a / b, a mod b)%Z.

End Py.

Export Py.

Declare Scope py_scope.
Delimit Scope py_scope with py.
Notation "x <- c ;; k" := (bind c (fun x => k))
  (at level 61, c at next level, right associativity) : py_scope.

(* ================================================================== *)
(** * Numbers *)
(* ================================================================== *)

Open Scope Qc_scope.

Definition two : Qc := Q2Qc 2.

(** An integer used as a number. *)
Definition ofZ (z : Z) : Qc := Q2Qc (inject_Z z).

Definition Qc_leb (x y : Qc) : bool := Qle_bool x y.
Definition Qc_ltb (x y : Qc) : bool := negb (Qle_bool y x).

(** A non-integer number used as the bound of a slice is cut to an integer
    towards zero (NumPy up to 1.11, the releases the source was written
    for, with a deprecation warning). *)
Definition slice_bound (q : Qc) : Z := Z.quot (Qnum q) (Zpos (Qden q)).

(** Python 3 [round]: to the nearest integer, a tie to the even one. *)
Definition py_round (q : Qc) : Z :=
  let f := Qfloor q in
  let r := q - ofZ f in
  let half := Q2Qc (1 # 2) in
  if Qc_ltb r half then f
  else if Qc_ltb half r then (f + 1)%Z
  else if Z.even f then f else (f + 1)%Z.

(** The result of a NumPy scalar division and of what the refiner adds to
    it.  [Inf] is an infinity of either sign (the sign depends on the sign of
    a floating-point zero, which exact arithmetic does not have). *)
Inductive npfloat : Type :=
| Real (q : Qc)
| Inf
| NaN.

(** [x / y] on NumPy doubles: a zero divisor gives a warning, not an
    exception. *)
Definition fdiv (x y : Qc) : npfloat :=
  if Qc_eq_bool y 0 then (if Qc_eq_bool x 0 then NaN else Inf)
  else Real (x / y).

Definition fneg (v : npfloat) : npfloat :=
  match v with
  | Real q => Real (- q)
  | Inf => Inf
  | NaN => NaN
  end.

(** [k + v] for a finite [k]. *)
Definition fadd (k : Qc) (v : npfloat) : npfloat :=
  match v with
  | Real q => Real (k + q)
  | Inf => Inf
  | NaN => NaN
  end.

(** Complex samples. *)
Record complex : Type := Cx { real : Qc; imag : Qc }.

Definition c0 : complex := Cx 0 0.
Definition cadd (u v : complex) : complex :=
  Cx (real u + real v) (imag u + imag v).
Definition cmul (u v : complex) : complex :=
  Cx (real u * real v - imag u * imag v) (real u * imag v + imag u * real v).
Definition cconj (u : complex) : complex := Cx (real u) (- imag u).
Definition ofreal (q : Qc) : complex := Cx q 0.

(** NumPy orders complex numbers by real part, then by imaginary part. *)
Definition c_gtb (u v : complex) : bool :=
  Qc_ltb (real v) (real u)
  || (Qc_eq_bool (real u) (real v) && Qc_ltb (imag v) (imag u)).
Definition c_eqb (u v : complex) : bool :=
  Qc_eq_bool (real u) (real v) && Qc_eq_bool (imag u) (imag v).

(* ================================================================== *)
(** * NumPy and SciPy functions the class calls *)
(* ================================================================== *)

Module Np.

Open Scope py_scope.

(** Runs [f] on the elements from left to right, stopping at the first one
    that does not give a value. *)
Fixpoint traverse {A B} (f : A -> outcome B) (l : list A) : outcome (list B) :=
  match l with
  | [] => Ok []
  | a :: t => b <- f a ;; bs <- traverse f t ;; Ok (b :: bs)
  end.

(** A 2-D array: its rows, and the length of a row (which an array without
    rows still has). *)
Record ndarray2 : Type := Arr2 { rows : list (list Qc); ncols : nat }.

Definition nrows (a : ndarray2) : nat := List.length (rows a).

(** Every row has the recorded length. *)
Definition rect (a : ndarray2) : Prop :=
  Forall (fun r => List.length r = ncols a) (rows a).

(** [a.shape], rows first. *)
Definition shape (a : ndarray2) : Z * Z :=
  (Z.of_nat (nrows a), Z.of_nat (ncols a)).

(** [a[r0:r1, c0:c1]]. *)
Definition slice2 (a : ndarray2) (r0 r1 c0 c1 : Z) : ndarray2 :=
  Arr2 (map (fun r => slice r c0 c1) (slice (rows a) r0 r1))
       (slice_len (ncols a) c0 c1).

Definition vadd (u v : list Qc) : list Qc :=
  map (fun p => fst p + snd p) (combine u v).

Definition vsum (u : list Qc) : Qc := fold_right Qcplus 0 u.

(** [np.sum(a, axis=0)]: one sum per column. *)
Definition sum_axis0 (a : ndarray2) : list Qc :=
  fold_left vadd (rows a) (repeat 0 (ncols a)).

(** [np.sum(a, axis=1)]: one sum per row. *)
Definition sum_axis1 (a : ndarray2) : list Qc := map vsum (rows a).

(** Broadcasting of one axis: equal lengths, or one of them is 1. *)
Definition bcast_dim (n m : nat) : outcome nat :=
  if (n =? m)%nat then Ok n
  else if (n =? 1)%nat then Ok m
  else if (m =? 1)%nat then Ok n
  else Raise ValueError.

Definition stretch {A} (l : list A) (n : nat) : list A :=
  match l with
  | [x] => repeat x n
  | _ => l
  end.

(** [a - b] on 2-D arrays. *)
Definition sub2 (a b : ndarray2) : outcome ndarray2 :=
  h <- bcast_dim (nrows a) (nrows b) ;;
  w <- bcast_dim (ncols a) (ncols b) ;;
  Ok (Arr2 (map (fun p => map (fun q => fst q - snd q)
                              (combine (stretch (fst p) w) (stretch (snd p) w)))
                (combine (stretch (rows a) h) (stretch (rows b) h)))
           w).

(** [a / t] for a Python float [t]: a zero [t] fills the array with inf and
    nan (a warning, no exception). *)
Definition div2 (a : ndarray2) (t : Qc) : outcome ndarray2 :=
  if Qc_eq_bool t 0 then NotModelled
  else Ok (Arr2 (map (map (fun v => v / t)) (rows a)) (ncols a)).

(** [np.linspace(0, n, n)]. *)
Definition linspace0 (n : nat) : list Qc :=
  map (fun i => ofZ (Z.of_nat i) * (ofZ (Z.of_nat n) / ofZ (Z.of_nat n - 1)))
      (seq 0 n).

Fixpoint insert_sorted (v : Qc) (l : list Qc) : list Qc :=
  match l with
  | [] => [v]
  | h :: t => if Qc_leb v h then v :: l else h :: insert_sorted v t
  end.

Definition sort (l : list Qc) : list Qc := fold_right insert_sorted [] l.

(** [np.median] of the flattened array: the middle of the sorted values, the
    mean of the two middle ones for an even count; nan (with a warning) for
    an empty array. *)
Definition median (a : ndarray2) : outcome Qc :=
  let s := sort (List.concat (rows a)) in
  let n := List.length s in
  if (n =? 0)%nat then NotModelled
  else if Nat.odd n then Ok (nth (n / 2) s 0)
  else Ok ((nth (n / 2 - 1) s 0 + nth (n / 2) s 0) / two).

(** [polyfit(x, y, 2)] on three points, highest power first.  With three
    distinct abscissas the least-squares parabola passes through the three
    points (see [polyfit2_interpolates] and [polyfit2_unique]); it is
    written here by divided differences. *)
Definition polyfit2 (x : Z * Z * Z) (y : Qc * Qc * Qc) : outcome (Qc * Qc * Qc) :=
  let '(x0, x1, x2) := x in
  let '(y0, y1, y2) := y in
  if ((x0 =? x1) || (x1 =? x2) || (x0 =? x2))%Z then NotModelled
  else
    let d01 := (y1 - y0) / (ofZ x1 - ofZ x0) in
    let d12 := (y2 - y1) / (ofZ x2 - ofZ x1) in
    let a := (d12 - d01) / (ofZ x2 - ofZ x0) in
    let b := d01 - a * (ofZ x0 + ofZ x1) in
    let c := y0 - a * ofZ x0 * ofZ x0 - b * ofZ x0 in
    Ok (a, b, c).

(** [polyval(coeffs, x)]. *)
Definition polyval2 (coeffs : Qc * Qc * Qc) (x : Z * Z * Z) : Qc * Qc * Qc :=
  let '(a, b, c) := coeffs in
  let '(x0, x1, x2) := x in
  let p := fun t : Z => a * ofZ t * ofZ t + b * ofZ t + c in
  (p x0, p x1, p x2).

(** ** Spectra

    [fft] returns the discrete Fourier transform of a sequence.  The
    transform is a bijection on sequences of a given length, so a spectrum is
    represented here by the sequence it is the transform of:
    - [ifft] gives that sequence back;
    - the conjugate of the spectrum of [x] is the spectrum of
      [n |-> conj (x[(-n) mod L])];
    - the elementwise product of the spectra of [x] and [y] is the spectrum
      of their circular convolution [k |-> sum_n x[n] * y[(k - n) mod L]];
    - a spectrum of length 1 is its only sample, so broadcasting it against a
      spectrum of length [L] scales the represented sequence. *)
Record spectrum : Type := Spectrum { samples : list complex }.

Definition csum (l : list complex) : complex := fold_right cadd c0 l.

(** [fft(x)] of a real sequence; SciPy rejects an empty one. *)
Definition fft (x : list Qc) : outcome spectrum :=
  match x with
  | [] => Raise ValueError
  | _ => Ok (Spectrum (map ofreal x))
  end.

Definition conjugate (F : spectrum) : spectrum :=
  let x := samples F in
  let L := List.length x in
  Spectrum (map (fun n => cconj (nth ((L - n) mod L) x c0)) (seq 0 L)).

Definition cconv (x y : list complex) : list complex :=
  let L := List.length x in
  map (fun k =>
         csum (map (fun n => cmul (nth n x c0) (nth ((k + L - n) mod L) y c0))
                   (seq 0 L)))
      (seq 0 L).

(** [F * G] on spectra. *)
Definition spec_mul (F G : spectrum) : outcome spectrum :=
  let x := samples F in
  let y := samples G in
  if (List.length x =? List.length y)%nat then Ok (Spectrum (cconv x y))
  else
    match x, y with
    | [u], _ => Ok (Spectrum (map (cmul u) y))
    | _, [v] => Ok (Spectrum (map (fun s => cmul s v) x))
    | _, _ => Raise ValueError
    end.

Definition ifft (F : spectrum) : outcome (list complex) :=
  match samples F with
  | [] => Raise ValueError
  | x => Ok x
  end.

(** The built-in [max] on a sequence: the first of the largest elements. *)
Definition py_max (l : list complex) : outcome complex :=
  match l with
  | [] => Raise ValueError
  | u :: t => Ok (fold_left (fun m v => if c_gtb v m then v else m) t u)
  end.

Fixpoint where_from (i : Z) (l : list complex) (z : complex) : list Z :=
  match l with
  | [] => []
  | u :: t => if c_eqb u z then i :: where_from (i + 1) t z
              else where_from (i + 1) t z
  end.

(** [np.where(l == z)[0]]: the indices at which [l] equals [z], increasing. *)
Definition where_eq (l : list complex) (z : complex) : list Z :=
  where_from 0 l z.

(** ** [ndimage.zoom(grid, (zy, zx), order=2)]

    SciPy computes the output shape as [round(n * zoom)] along each axis and
    then evaluates the quadratic spline of the grid at each output pixel.
    The spline evaluation is the parameter [spline]: the value at output
    pixel [(r, c)] of an output of [oh] by [ow] pixels. *)
Section Zoom.

Variable spline : ndarray2 -> nat -> nat -> nat -> nat -> Qc.

Definition zoom (grid : ndarray2) (zy zx : Qc) : outcome ndarray2 :=
  let oh := py_round (ofZ (Z.of_nat (nrows grid)) * zy) in
  let ow := py_round (ofZ (Z.of_nat (ncols grid)) * zx) in
  if ((nrows grid =? 0)%nat || (ncols grid =? 0)%nat
      || (oh <=? 0)%Z || (ow <=? 0)%Z)%bool then NotModelled
  else
    let h := Z.to_nat oh in
    let w := Z.to_nat ow in
    Ok (Arr2 (map (fun r => map (fun c => spline grid h w r c) (seq 0 w))
                  (seq 0 h))
             w).

End Zoom.

End Np.

Export Np.

(* ================================================================== *)
(** * The class [Donuts] *)
(* ================================================================== *)

(** What [fits.open] gives: a list of header/data units.  A header maps a
    keyword to a number; the data is a 2-D array.  Reading the file is the
    business of the image source, so a method that takes a path takes the
    opened file here.

    No statement of the class writes into an array in place (every array
    operation of lines 55, 57, 107 and 109 builds a new array), so arrays are
    values. *)
Record hdu : Type := Hdu { header : list (string * Qc); data : ndarray2 }.

Definition fits : Type := list hdu.

(** [hdu.header[key]]. *)
Fixpoint header_get (h : list (string * Qc)) (key : string) : outcome Qc :=
  match h with
  | [] => Raise KeyError
  | (k, v) :: t => if String.eqb k key then Ok v else header_get t key
  end.

(** [a / b] on Python numbers. *)
Definition py_truediv (a b : Qc) : outcome Qc :=
  if Qc_eq_bool b 0 then Raise ZeroDivisionError else Ok (a / b).

(** The attributes of an instance.  The first group is set by [__init__],
    the second group (unset until the first call) by [measure_shift]. *)
Record Donuts : Type := Self {
  image_ext : Z;
  boarder : Z;
  ntiles : Z;
  normalise : bool;
  refimage : fits;
  subtract_bkg : bool;
  texp : Qc;
  dy : Z;
  dx : Z;
  dimx : Qc;
  dimy : Qc;
  ref_data : ndarray2;
  w_dimy : Z;
  w_dimx : Z;
  tilesizex : Qc;
  tilesizey : Qc;
  bkgmap : option ndarray2;
  ref_xproj : list Qc;
  ref_yproj : list Qc;
  x : list Qc;
  y : list Qc;
  checkimage : option fits;
  check_data : option ndarray2;
  check_bkgmap : option ndarray2;
  check_xproj : option (list Qc);
  check_yproj : option (list Qc);
  solution_n_x : option npfloat;
  solution_n_y : option npfloat
}.

Definition set_checkimage (v : fits) (self : Donuts) : Donuts :=
  Self (image_ext self) (boarder self) (ntiles self) (normalise self)
      (refimage self) (subtract_bkg self) (texp self) (dy self) (dx self)
      (dimx self) (dimy self) (ref_data self) (w_dimy self) (w_dimx self)
      (tilesizex self) (tilesizey self) (bkgmap self) (ref_xproj self)
      (ref_yproj self) (x self) (y self) (Some v) (check_data self)
      (check_bkgmap self) (check_xproj self) (check_yproj self)
      (solution_n_x self) (solution_n_y self).

Definition set_check_data (v : ndarray2) (self : Donuts) : Donuts :=
  Self (image_ext self) (boarder self) (ntiles self) (normalise self)
      (refimage self) (subtract_bkg self) (texp self) (dy self) (dx self)
      (dimx self) (dimy self) (ref_data self) (w_dimy self) (w_dimx self)
      (tilesizex self) (tilesizey self) (bkgmap self) (ref_xproj self)
      (ref_yproj self) (x self) (y self) (checkimage self) (Some v)
      (check_bkgmap self) (check_xproj self) (check_yproj self)
      (solution_n_x self) (solution_n_y self).

Definition set_check_bkgmap (v : ndarray2) (self : Donuts) : Donuts :=
  Self (image_ext self) (boarder self) (ntiles self) (normalise self)
      (refimage self) (subtract_bkg self) (texp self) (dy self) (dx self)
      (dimx self) (dimy self) (ref_data self) (w_dimy self) (w_dimx self)
      (tilesizex self) (tilesizey self) (bkgmap self) (ref_xproj self)
      (ref_yproj self) (x self) (y self) (checkimage self) (check_data self)
      (Some v) (check_xproj self) (check_yproj self) (solution_n_x self)
      (solution_n_y self).

Definition set_check_xproj (v : list Qc) (self : Donuts) : Donuts :=
  Self (image_ext self) (boarder self) (ntiles self) (normalise self)
      (refimage self) (subtract_bkg self) (texp self) (dy self) (dx self)
      (dimx self) (dimy self) (ref_data self) (w_dimy self) (w_dimx self)
      (tilesizex self) (tilesizey self) (bkgmap self) (ref_xproj self)
      (ref_yproj self) (x self) (y self) (checkimage self) (check_data self)
      (check_bkgmap self) (Some v) (check_yproj self) (solution_n_x self)
      (solution_n_y self).

Definition set_check_yproj (v : list Qc) (self : Donuts) : Donuts :=
  Self (image_ext self) (boarder self) (ntiles self) (normalise self)
      (refimage self) (subtract_bkg self) (texp self) (dy self) (dx self)
      (dimx self) (dimy self) (ref_data self) (w_dimy self) (w_dimx self)
      (tilesizex self) (tilesizey self) (bkgmap self) (ref_xproj self)
      (ref_yproj self) (x self) (y self) (checkimage self) (check_data self)
      (check_bkgmap self) (check_xproj self) (Some v) (solution_n_x self)
      (solution_n_y self).

Definition set_solution_n_x (v : npfloat) (self : Donuts) : Donuts :=
  Self (image_ext self) (boarder self) (ntiles self) (normalise self)
      (refimage self) (subtract_bkg self) (texp self) (dy self) (dx self)
      (dimx self) (dimy self) (ref_data self) (w_dimy self) (w_dimx self)
      (tilesizex self) (tilesizey self) (bkgmap self) (ref_xproj self)
      (ref_yproj self) (x self) (y self) (checkimage self) (check_data self)
      (check_bkgmap self) (check_xproj self) (check_yproj self) (Some v)
      (solution_n_y self).

Definition set_solution_n_y (v : npfloat) (self : Donuts) : Donuts :=
  Self (image_ext self) (boarder self) (ntiles self) (normalise self)
      (refimage self) (subtract_bkg self) (texp self) (dy self) (dx self)
      (dimx self) (dimy self) (ref_data self) (w_dimy self) (w_dimx self)
      (tilesizex self) (tilesizey self) (bkgmap self) (ref_xproj self)
      (ref_yproj self) (x self) (y self) (checkimage self) (check_data self)
      (check_bkgmap self) (check_xproj self) (check_yproj self)
      (solution_n_x self) (Some v).

(** A method body: it reads and assigns attributes of [self] and gives an
    outcome; the attributes assigned before an exception stay assigned. *)
Definition M (A : Type) : Type := Donuts -> Donuts * outcome A.

Definition mret {A} (a : A) : M A := fun self => (self, Ok a).

Definition mbind {A B} (c : M A) (k : A -> M B) : M B :=
  fun self =>
    let (self', r) := c self in
    match r with
    | Ok a => k a self'
    | Raise e => (self', Raise e)
    | NotModelled => (self', NotModelled)
    end.

Definition lift {A} (o : outcome A) : M A := fun self => (self, o).

(** [self.name] for an attribute that [__init__] sets. *)
Definition attr {A} (f : Donuts -> A) : M A := fun self => (self, Ok (f self)).

(** [self.name] for an attribute that only [measure_shift] sets. *)
Definition attr_opt {A} (name : string) (f : Donuts -> option A) : M A :=
  fun self =>
    (self, match f self with
           | Some v => Ok v
           | None => Raise (AttributeError name)
           end).

(** [self.name = v]. *)
Definition assign (set : Donuts -> Donuts) : M unit :=
  fun self => (set self, Ok tt).

Declare Scope m_scope.
Delimit Scope m_scope with m.
Notation "x <== c ;; k" := (mbind c (fun x => k))
  (at level 61, c at next level, right associativity) : m_scope.
Notation "c ;;; k" := (mbind c (fun _ => k))
  (at level 61, right associativity) : m_scope.

Section Methods.

Open Scope py_scope.
Open Scope m_scope.

(** The type of the background estimator as its callers use it. *)
Definition bkg_estimator : Type :=
  ndarray2 -> Z -> Qc -> Qc -> outcome ndarray2.

(** ** [__init__] (lines 8-63)

    The instance exists for the caller only when [__init__] returns, so the
    constructor is an outcome holding the finished instance.  Lines 33, 34,
    36, 37, 39, 40 and 46 read the bare names [dx], [dy] and [ref_data]
    (the values were stored as [self.dx], [self.dy], [self.ref_data]);
    lines 36-37 read [self.base], which nothing sets; line 54 calls the bare
    name [__generate_bkg_map], which inside a class body is the global
    [_Donuts__generate_bkg_map]. *)
Definition __init__ (refimage : fits) (image_ext : Z) (exposure : string)
    (normalise subtract_bkg : bool) (boarder ntiles : Z) : outcome Donuts :=
  (* 26-27 *)
  let h := refimage in
  u <- getitem h image_ext ;;
  texp <- header_get (header u) exposure ;;
  (* 29 *)
  u <- getitem h image_ext ;;
  let '(self_dy, self_dx) := shape (data u) in
  (* 33-34 *)
  dx <- load_global "dx" ;;
  let '(numx, rx) := divmod dx 16 in
  dy <- load_global "dy" ;;
  let '(numy, ry) := divmod dy 16 in
  (* 35-40 *)
  dims <- (if negb (rx =? 0)%Z || negb (ry =? 0)%Z then
             base <- load_attr_unset "base" ;;
             qx <- py_truediv (ofZ dx) base ;;
             base' <- load_attr_unset "base" ;;
             qy <- py_truediv (ofZ dy) base' ;;
             Ok (qx * base, qy * base')
           else Ok (ofZ dx, ofZ dy)) ;;
  let '(self_dimx, self_dimy) := dims in
  (* 43 *)
  u <- getitem h image_ext ;;
  let self_ref_data :=
    slice2 (data u)
           boarder (slice_bound (self_dimy - ofZ boarder))
           boarder (slice_bound (self_dimx - ofZ boarder)) in
  (* 46 *)
  ref_data <- load_global "ref_data" ;;
  let '(self_w_dimy, self_w_dimx) := shape ref_data in
  (* 49-50 *)
  self_tilesizex <- py_truediv (ofZ self_w_dimx) (ofZ ntiles) ;;
  self_tilesizey <- py_truediv (ofZ self_w_dimy) (ofZ ntiles) ;;
  (* 53-55 *)
  sub <- (if subtract_bkg then
            f <- @load_global bkg_estimator "_Donuts__generate_bkg_map" ;;
            bkg <- f self_ref_data ntiles self_tilesizex self_tilesizey ;;
            r <- sub2 self_ref_data bkg ;;
            Ok (Some bkg, r)
          else Ok (None, self_ref_data)) ;;
  let '(self_bkgmap, self_ref_data) := sub in
  (* 56-57 *)
  self_ref_data <- (if normalise then div2 self_ref_data texp
                    else Ok self_ref_data) ;;
  (* 59-63 *)
  Ok (Self image_ext boarder ntiles normalise refimage subtract_bkg texp
           self_dy self_dx self_dimx self_dimy self_ref_data
           self_w_dimy self_w_dimx self_tilesizex self_tilesizey self_bkgmap
           (sum_axis0 self_ref_data) (sum_axis1 self_ref_data)
           (linspace0 (ncols self_ref_data)) (linspace0 (nrows self_ref_data))
           None None None None None None None).

(** ** [__generate_bkg_map] (lines 65-77)

    [self] is not used by the body.  The slice bounds [i * tilesizey] are
    numbers, not integers, whenever the tile size is not an integer. *)
Section Background.

Variable spline : ndarray2 -> nat -> nat -> nat -> nat -> Qc.

Definition __generate_bkg_map (data : ndarray2) (tile_num : Z)
    (tilesizex tilesizey : Qc) : outcome ndarray2 :=
  (* 71: np.empty rejects a negative size *)
  if (tile_num <? 0)%Z then Raise ValueError
  else
    let range := map Z.of_nat (seq 0 (Z.to_nat tile_num)) in
    (* 72-74 *)
    coarse <-
      traverse (fun i =>
        traverse (fun j =>
          median (slice2 data
                    (slice_bound (ofZ i * tilesizey))
                    (slice_bound (ofZ (i + 1) * tilesizey))
                    (slice_bound (ofZ j * tilesizex))
                    (slice_bound (ofZ (j + 1) * tilesizex))))
          range)
        range ;;
    (* 76-77 *)
    zoom spline (Arr2 coarse (Z.to_nat tile_num)) tilesizey tilesizex.

End Background.

(** ** The refinement of the peak, x axis (lines 139-170): one [if] /
    [elif] / [elif] / [else] chain.  [z_pos] is [z_pos_x_n[0]]. *)
Definition refine_x (Phi : list complex) (z_pos : list Z) : M unit :=
  p <== lift (getitem z_pos 0) ;;
  let L := Z.of_nat (List.length Phi) in
  if Qc_leb (ofZ p) (ofZ L / two) then
    let lra_x := (p - 1, p, p + 1)%Z in
    t0 <== lift (getitem Phi (p - 1)) ;;
    t1 <== lift (getitem Phi p) ;;
    t2 <== lift (getitem Phi (p + 1)) ;;
    coeffs <== lift (polyfit2 lra_x (real t0, real t1, real t2)) ;;
    let besty := polyval2 coeffs lra_x in
    let '(a, b, _) := coeffs in
    assign (set_solution_n_x (fneg (fdiv (- b) (two * a))))
  else if Qc_ltb (ofZ L / two) (ofZ p) && negb (p =? L - 1)%Z then
    let lra_x := (p - 1, p, p + 1)%Z in
    t0 <== lift (getitem Phi (p - 1)) ;;
    t1 <== lift (getitem Phi p) ;;
    t2 <== lift (getitem Phi (p + 1)) ;;
    coeffs <== lift (polyfit2 lra_x (real t0, real t1, real t2)) ;;
    let besty := polyval2 coeffs lra_x in
    let '(a, b, _) := coeffs in
    assign (set_solution_n_x (fadd (ofZ L) (fdiv b (two * a))))
  else if (p =? L - 1)%Z then
    let lra_x := (-1, 0, 1)%Z in
    t0 <== lift (getitem Phi (-2)) ;;
    t1 <== lift (getitem Phi (-1)) ;;
    t2 <== lift (getitem Phi 0) ;;
    coeffs <== lift (polyfit2 lra_x (real t0, real t1, real t2)) ;;
    let besty := polyval2 coeffs lra_x in
    let '(a, b, _) := coeffs in
    assign (set_solution_n_x (fadd 1 (fdiv b (two * a))))
  else
    let lra_x := (1, 0, -1)%Z in
    t0 <== lift (getitem Phi (-1)) ;;
    t1 <== lift (getitem Phi 0) ;;
    t2 <== lift (getitem Phi 1) ;;
    coeffs <== lift (polyfit2 lra_x (real t0, real t1, real t2)) ;;
    let besty := polyval2 coeffs lra_x in
    let '(a, b, _) := coeffs in
    assign (set_solution_n_x (fdiv (- b) (two * a))).

(** ** The refinement of the peak, y axis (lines 174-205): three [if]
    statements in a row, the last one with the [else]. *)
Definition refine_y (Phi : list complex) (z_pos : list Z) : M unit :=
  p <== lift (getitem z_pos 0) ;;
  let L := Z.of_nat (List.length Phi) in
  (* 174-181 *)
  (if Qc_leb (ofZ p) (ofZ L / two) then
     let lra_y := (p - 1, p, p + 1)%Z in
     t0 <== lift (getitem Phi (p - 1)) ;;
     t1 <== lift (getitem Phi p) ;;
     t2 <== lift (getitem Phi (p + 1)) ;;
     coeffs <== lift (polyfit2 lra_y (real t0, real t1, real t2)) ;;
     let besty := polyval2 coeffs lra_y in
     let '(a, b, _) := coeffs in
     assign (set_solution_n_y (fneg (fdiv (- b) (two * a))))
   else mret tt) ;;;
  (* 182-189 *)
  (if Qc_ltb (ofZ L / two) (ofZ p) && negb (p =? L - 1)%Z then
     let lra_y := (p - 1, p, p + 1)%Z in
     t0 <== lift (getitem Phi (p - 1)) ;;
     t1 <== lift (getitem Phi p) ;;
     t2 <== lift (getitem Phi (p + 1)) ;;
     coeffs <== lift (polyfit2 lra_y (real t0, real t1, real t2)) ;;
     let besty := polyval2 coeffs lra_y in
     let '(a, b, _) := coeffs in
     assign (set_solution_n_y (fadd (ofZ L) (fdiv b (two * a))))
   else mret tt) ;;;
  (* 190-205 *)
  (if (p =? L - 1)%Z then
     let lra_y := (-1, 0, 1)%Z in
     t0 <== lift (getitem Phi (-2)) ;;
     t1 <== lift (getitem Phi (-1)) ;;
     t2 <== lift (getitem Phi 0) ;;
     coeffs <== lift (polyfit2 lra_y (real t0, real t1, real t2)) ;;
     let besty := polyval2 coeffs lra_y in
     let '(a, b, _) := coeffs in
     assign (set_solution_n_y (fadd 1 (fdiv b (two * a))))
   else
     let lra_y := (1, 0, -1)%Z in
     t0 <== lift (getitem Phi (-1)) ;;
     t1 <== lift (getitem Phi 0) ;;
     t2 <== lift (getitem Phi 1) ;;
     coeffs <== lift (polyfit2 lra_y (real t0, real t1, real t2)) ;;
     let besty := polyval2 coeffs lra_y in
     let '(a, b, _) := coeffs in
     assign (set_solution_n_y (fdiv (- b) (two * a)))).

(** The attribute [self.checkimage], under a name that the parameter
    [checkimage] of [measure_shift] does not hide. *)
Definition self_checkimage : Donuts -> option fits := checkimage.

(** ** [measure_shift] (lines 94-207), the function under the decorator.
    The two [print] calls (lines 171 and 206) write to the terminal and are
    left out. *)
Definition measure_shift (checkimage : fits) : M (npfloat * npfloat) :=
  (* 99-102 *)
  assign (set_checkimage checkimage) ;;;
  h <== attr_opt "checkimage" self_checkimage ;;
  ext <== attr image_ext ;;
  u <== lift (getitem h ext) ;;
  b <== attr boarder ;;
  dimy <== attr dimy ;;
  dimx <== attr dimx ;;
  assign (set_check_data
            (slice2 (data u)
                    b (slice_bound (dimy - ofZ b))
                    b (slice_bound (dimx - ofZ b)))) ;;;
  (* 105-107 *)
  sb <== attr subtract_bkg ;;
  (if sb then
     f <== lift (@load_global bkg_estimator "_Donuts__generate_bkg_map") ;;
     cd <== attr_opt "check_data" check_data ;;
     n <== attr ntiles ;;
     tx <== attr tilesizex ;;
     ty <== attr tilesizey ;;
     bkg <== lift (f cd n tx ty) ;;
     assign (set_check_bkgmap bkg) ;;;
     cd <== attr_opt "check_data" check_data ;;
     bk <== attr_opt "check_bkgmap" check_bkgmap ;;
     r <== lift (sub2 cd bk) ;;
     assign (set_check_data r)
   else mret tt) ;;;
  (* 108-109 *)
  nm <== attr normalise ;;
  (if nm then
     cd <== attr_opt "check_data" check_data ;;
     t <== attr texp ;;
     r <== lift (div2 cd t) ;;
     assign (set_check_data r)
   else mret tt) ;;;
  (* 111-112 *)
  cd <== attr_opt "check_data" check_data ;;
  assign (set_check_xproj (sum_axis0 cd)) ;;;
  cd <== attr_opt "check_data" check_data ;;
  assign (set_check_yproj (sum_axis1 cd)) ;;;
  (* 115-118 *)
  rx <== attr ref_xproj ;;
  F_ref_xproj_n <== lift (fft rx) ;;
  ry <== attr ref_yproj ;;
  F_ref_yproj_n <== lift (fft ry) ;;
  cx <== attr_opt "check_xproj" check_xproj ;;
  F_check_xproj_n <== lift (fft cx) ;;
  cy <== attr_opt "check_yproj" check_yproj ;;
  F_check_yproj_n <== lift (fft cy) ;;
  (* 121-126 *)
  let F_ref_xproj_conj_n := conjugate F_ref_xproj_n in
  let F_ref_yproj_conj_n := conjugate F_ref_yproj_n in
  complex_sum_x_n <== lift (spec_mul F_ref_xproj_conj_n F_check_xproj_n) ;;
  complex_sum_y_n <== lift (spec_mul F_ref_yproj_conj_n F_check_yproj_n) ;;
  Phi_ref_check_m_x_n <== lift (ifft complex_sum_x_n) ;;
  Phi_ref_check_m_y_n <== lift (ifft complex_sum_y_n) ;;
  (* 127-130 *)
  z_x_n <== lift (py_max Phi_ref_check_m_x_n) ;;
  let z_pos_x_n := where_eq Phi_ref_check_m_x_n z_x_n in
  z_y_n <== lift (py_max Phi_ref_check_m_y_n) ;;
  let z_pos_y_n := where_eq Phi_ref_check_m_y_n z_y_n in
  (* 139-170 *)
  refine_x Phi_ref_check_m_x_n z_pos_x_n ;;;
  (* 174-205 *)
  refine_y Phi_ref_check_m_y_n z_pos_y_n ;;;
  (* 207 *)
  sx <== attr_opt "solution_n_x" solution_n_x ;;
  sy <== attr_opt "solution_n_y" solution_n_y ;;
  mret (sx, sy).

(** ** Calling [d.measure_shift(checkimage=c)] (lines 93-94, 214)

    A function declared [def f(self, a)] needs [a]: called with [self]
    alone it raises TypeError before its body runs. *)
Definition call_method {A R} (body : A -> M R) (arg : option A) : M R :=
  match arg with
  | Some a => body a
  | None => lift (Raise TypeError)
  end.

(** Reading an attribute that the class declares with [@property] calls the
    decorated function with the instance alone. *)
Definition property_get {A R} (body : A -> M R) : M R :=
  call_method body None.

(** [d.measure_shift(checkimage=c)]: the attribute is read first, then what
    it gave (a tuple, were it to return) is called with the argument. *)
Definition invoke_measure_shift (c : fits) : M (npfloat * npfloat) :=
  _ <== property_get measure_shift ;;
  lift (Raise TypeError).

(** ** [print_summary] (lines 79-91) and [d.print_summary()] (line 212)

    [print] writes to the terminal and is left out; what remains of a line
    is the formatting of its arguments.  The format code [d] takes a Python
    int and raises ValueError for a float. *)
Inductive pytype : Type := PyInt | PyFloat.

Definition format_d (args : list pytype) : outcome unit :=
  if forallb (fun t => match t with PyInt => true | PyFloat => false end) args
  then Ok tt
  else Raise ValueError.

(** [funny_shape] tells which branch of lines 35-40 has set [dimx] and
    [dimy]: the quotient of lines 36-37 is a float, the shape entry of lines
    39-40 an int.  [boarder], [ntiles] and the entries of a shape are ints;
    the tile sizes come from a true division (lines 1, 49-50) and are
    floats. *)
Definition print_summary (funny_shape : bool) : M unit :=
  let dim := if funny_shape then PyFloat else PyInt in
  (* 85 *)
  _ <== attr dimx ;;
  _ <== attr dimy ;;
  lift (format_d [dim; dim]) ;;;
  (* 86 *)
  _ <== attr boarder ;;
  lift (format_d [PyInt]) ;;;
  (* 87 *)
  _ <== attr w_dimx ;;
  _ <== attr w_dimy ;;
  lift (format_d [PyInt; PyInt]) ;;;
  (* 88-91 *)
  sb <== attr subtract_bkg ;;
  if sb then
    _ <== attr ntiles ;;
    _ <== attr ntiles ;;
    lift (format_d [PyInt; PyInt]) ;;;
    _ <== attr tilesizex ;;
    _ <== attr tilesizey ;;
    lift (format_d [PyFloat; PyFloat])
  else mret tt.

(** [d.print_summary()]: reading the attribute runs the function under the
    decorator of line 79, which returns None; the call is then a call of
    None. *)
Definition invoke_print_summary (funny_shape : bool) : M unit :=
  print_summary funny_shape ;;;
  lift (Raise TypeError).

(** ** [Donuts(name=value, ...)] (line 210, test line 27)

    A call by keywords binds each keyword to the parameter of that name
    before the body runs: a keyword that names no parameter of line 8-9
    raises TypeError, and so does a missing [refimage], the only parameter
    without a default.  An argument of another kind than the body uses it
    as is not followed. *)
Inductive pyval : Type :=
| VFits (f : fits)
| VInt (z : Z)
| VStr (s : string)
| VBool (b : bool).

Definition init_params : list string :=
  ["refimage"; "image_ext"; "exposure"; "normalise"; "subtract_bkg";
   "boarder"; "ntiles"]%string.

Fixpoint keyword (name : string) (kwargs : list (string * pyval))
    : option pyval :=
  match kwargs with
  | [] => None
  | (k, v) :: t => if String.eqb k name then Some v else keyword name t
  end.

Definition as_int (default : Z) (o : option pyval) : outcome Z :=
  match o with
  | None => Ok default
  | Some (VInt z) => Ok z
  | Some _ => NotModelled
  end.

Definition as_str (default : string) (o : option pyval) : outcome string :=
  match o with
  | None => Ok default
  | Some (VStr s) => Ok s
  | Some _ => NotModelled
  end.

Definition as_bool (default : bool) (o : option pyval) : outcome bool :=
  match o with
  | None => Ok default
  | Some (VBool b) => Ok b
  | Some _ => NotModelled
  end.

Definition construct (kwargs : list (string * pyval)) : outcome Donuts :=
  if negb (forallb (fun kv => existsb (String.eqb (fst kv)) init_params)
                   kwargs)
  then Raise TypeError
  else
    match keyword "refimage" kwargs with
    | None => Raise TypeError
    | Some (VFits refimage) =>
        image_ext <- as_int 0 (keyword "image_ext" kwargs) ;;
        exposure <- as_str "EXPTIME" (keyword "exposure" kwargs) ;;
        normalise <- as_bool true (keyword "normalise" kwargs) ;;
        subtract_bkg <- as_bool true (keyword "subtract_bkg" kwargs) ;;
        boarder <- as_int 64 (keyword "boarder" kwargs) ;;
        ntiles <- as_int 32 (keyword "ntiles" kwargs) ;;
        __init__ refimage image_ext exposure normalise subtract_bkg boarder
                 ntiles
    | Some _ => NotModelled
    end.

End Methods.

(* ================================================================== *)
(** * Definitions used by the statements *)
(* ================================================================== *)

(** ** The reference state *)

(** The attributes that [__init__] sets. *)
Definition reference_state (d : Donuts) :=
  (image_ext d, boarder d, ntiles d, normalise d, refimage d, subtract_bkg d,
   texp d, (dy d, dx d, dimx d, dimy d), ref_data d,
   (w_dimy d, w_dimx d, tilesizex d, tilesizey d), bkgmap d,
   ref_xproj d, ref_yproj d, x d, y d).

(** A method body that changes none of them, however it ends. *)
Definition keeps_reference {A} (c : M A) : Prop :=
  forall self, reference_state (fst (c self)) = reference_state self.

(** ** The refiner, as the specification words it and as the source has it *)

(** The real part of the correlation at index [i], taken circularly:
    index [-1] is index [L - 1], index [L] is index [0]. *)
Definition sample (Phi : list complex) (i : Z) : Qc :=
  real (nth (Z.to_nat (i mod Z.of_nat (List.length Phi))) Phi c0).

(** The abscissa [-b / (2 a)] of the vertex of the parabola
    [a x^2 + b x + c] through three points. *)
Definition vertex (x : Z * Z * Z) (y : Qc * Qc * Qc) : npfloat :=
  match polyfit2 x y with
  | Ok (a, b, _) => fdiv (- b) (two * a)
  | _ => NaN
  end.

(** [k - v] for a finite [k]. *)
Definition fsub (k : Qc) (v : npfloat) : npfloat := fadd k (fneg v).

(** The four cases of the specification (section 4.4), the two boundary
    cases first. *)
Definition refine_claimed (Phi : list complex) (p : Z) : npfloat :=
  let L := Z.of_nat (List.length Phi) in
  if (p =? 0)%Z then
    fneg (vertex (1, 0, -1)%Z (sample Phi (L - 1), sample Phi 0, sample Phi 1))
  else if (p =? L - 1)%Z then
    fadd 1 (vertex (-1, 0, 1)%Z
                   (sample Phi (L - 2), sample Phi (L - 1), sample Phi 0))
  else if (2 * p <=? L)%Z then
    fneg (vertex (p - 1, p, p + 1)%Z
                 (sample Phi (p - 1), sample Phi p, sample Phi (p + 1)))
  else
    fadd (ofZ L)
         (vertex (p - 1, p, p + 1)%Z
                 (sample Phi (p - 1), sample Phi p, sample Phi (p + 1))).

(** What lines 139-170 compute: three cases, the first of which takes the
    peak at index 0 with it. *)
Definition refine_x_amended (Phi : list complex) (p : Z) : npfloat :=
  let L := Z.of_nat (List.length Phi) in
  if (2 * p <=? L)%Z then
    fneg (vertex (p - 1, p, p + 1)%Z
                 (sample Phi (p - 1), sample Phi p, sample Phi (p + 1)))
  else if (p <? L - 1)%Z then
    fsub (ofZ L)
         (vertex (p - 1, p, p + 1)%Z
                 (sample Phi (p - 1), sample Phi p, sample Phi (p + 1)))
  else
    fsub 1 (vertex (-1, 0, 1)%Z
                   (sample Phi (L - 2), sample Phi (L - 1), sample Phi 0)).

(** ** Concrete data for the examples *)

Definition px (rows : list (list Z)) (w : nat) : ndarray2 :=
  Arr2 (map (map ofZ) rows) w.

(** A file with one unit, exposure 1. *)
Definition image_of (rows : list (list Z)) (w : nat) : fits :=
  [Hdu [("EXPTIME"%string, 1)] (px rows w)].

(** An instance as [__init__] is written to leave it, with [image_ext=0],
    [boarder=0], [ntiles=1] and the raw sides of the image as [dimx] and
    [dimy]. *)
Definition instance_of (rows : list (list Z)) (w : nat)
    (normalise subtract_bkg : bool) : Donuts :=
  let a := px rows w in
  let h := Z.of_nat (List.length rows) in
  Self 0 0 1 normalise (image_of rows w) subtract_bkg 1
       h (Z.of_nat w) (ofZ (Z.of_nat w)) (ofZ h)
       a h (Z.of_nat w) (ofZ (Z.of_nat w)) (ofZ h) None
       (sum_axis0 a) (sum_axis1 a) (linspace0 w) (linspace0 (List.length rows))
       None None None None None None None.

(** A correlation sequence of length 5 with its peak at index 3. *)
Definition Phi5 : list complex :=
  map (fun v => ofreal (ofZ v)) [0; 0; 1; 4; 2]%Z.

Definition img3 : list (list Z) := [[1; 2; 3]; [1; 5; 1]; [0; 0; 1]]%Z.

(** The claim of the specification about the refiner, at one correlation and
    one peak index: both axes give the value of the four cases. *)
Definition refiner_as_claimed (Phi : list complex) (p : Z) (self : Donuts)
    : Prop :=
  solution_n_x (fst (refine_x Phi [p] self)) = Some (refine_claimed Phi p)
  /\ solution_n_y (fst (refine_y Phi [p] self)) = Some (refine_claimed Phi p).

(** ** One axis of lines 115-130 *)

(** The correlation of a reference projection [r] and a check projection
    [c]: lines 115-126 for one axis ([measure_shift_run] shows that
    [measure_shift] goes through it and through [peak_index]). *)
Definition correlation (r c : list Qc) : outcome (list complex) :=
  (F_ref <- fft r ;;
   F_check <- fft c ;;
   complex_sum <- spec_mul (conjugate F_ref) F_check ;;
   ifft complex_sum)%py.

(** The peak index that the refiner reads as [z_pos[0][0]]: lines 127-130
    for one axis. *)
Definition peak_index (Phi : list complex) : outcome Z :=
  (z <- py_max Phi ;; getitem (where_eq Phi z) 0)%py.

(** Every sample is a real number. *)
Definition all_real (l : list complex) : Prop :=
  Forall (fun u => imag u = 0) l.

(** ** [measure_shift] without background subtraction, in one piece *)

(** The region of a unit that lines 101-102 keep. *)
Definition cropped (self : Donuts) (u : hdu) : ndarray2 :=
  slice2 (data u)
         (boarder self) (slice_bound (dimy self - ofZ (boarder self)))
         (boarder self) (slice_bound (dimx self - ofZ (boarder self))).

(** The check data after lines 99-109 when [subtract_bkg] is off. *)
Definition processed (self : Donuts) (u : hdu) : outcome ndarray2 :=
  if normalise self then div2 (cropped self u) (texp self)
  else Ok (cropped self u).

(** What lines 174-205 leave in [solution_n_y]. *)
Definition refine_y_amended (Phi : list complex) (p : Z) : npfloat :=
  let L := Z.of_nat (List.length Phi) in
  if (p =? L - 1)%Z then
    fsub 1 (vertex (-1, 0, 1)%Z
                   (sample Phi (L - 2), sample Phi (L - 1), sample Phi 0))
  else
    vertex (1, 0, -1)%Z (sample Phi (L - 1), sample Phi 0, sample Phi 1).

(** The attributes of the instance after a call that went through. *)
Definition after_call (self : Donuts) (c : fits) (cd : ndarray2)
    (sx sy : npfloat) : Donuts :=
  set_solution_n_y sy
    (set_solution_n_x sx
       (set_check_yproj (sum_axis1 cd)
          (set_check_xproj (sum_axis0 cd)
             (set_check_data cd (set_checkimage c self))))).

(** ** The check image and its raw shape *)

(** Two instances that differ at most in [self.checkimage]. *)
Definition same_but_checkimage (s1 s2 : Donuts) : Prop :=
  set_checkimage [] s1 = set_checkimage [] s2.

(** A method body whose outcome does not depend on [self.checkimage]. *)
Definition blind_to_checkimage {A} (c : M A) : Prop :=
  forall s1 s2,
    same_but_checkimage s1 s2 ->
    snd (c s1) = snd (c s2) /\ same_but_checkimage (fst (c s1)) (fst (c s2)).

(** The claim of the specification about the raw shape of the check image,
    at one instance and one file. *)
Definition raw_shape_checked (self : Donuts) (c : fits) : Prop :=
  forall u,
    getitem c (image_ext self) = Ok u ->
    shape (data u) <> (dy self, dx self) ->
    snd (measure_shift c self) = Raise DimensionMismatch.

(** The image [img3] with one more row and one more column. *)
Definition img4 : list (list Z) :=
  [[1; 2; 3; 7]; [1; 5; 1; 7]; [0; 0; 1; 7]; [7; 7; 7; 7]]%Z.

(** ** Flat profiles *)

(** A projection whose entries are all the same number. *)
Definition constant (l : list Qc) : Prop :=
  exists v, l = repeat v (List.length l).

(** The claim of the specification about flat check images, at one instance
    and one file. *)
Definition degenerate_rejected (self : Donuts) (c : fits) : Prop :=
  forall u cd,
    getitem c (image_ext self) = Ok u ->
    processed self u = Ok cd ->
    constant (sum_axis0 cd) -> constant (sum_axis1 cd) ->
    snd (measure_shift c self) = Raise DegenerateSignal.

Definition flat3 : list (list Z) := [[1; 1; 1]; [1; 1; 1]; [1; 1; 1]]%Z.

(** ** The correlation of a projection with itself *)

(** The circular autocorrelation of [r] at lag [k]. *)
Definition autocorr (r : list Qc) (k : nat) : Qc :=
  let L := List.length r in
  vsum (map (fun m => nth m r 0 * nth ((k + m) mod L) r 0) (seq 0 L)).

(** ** The exceptions a call can end with *)

(** The exceptions of Python and of the libraries, as opposed to those that
    only the specification names. *)
Definition python_error (e : exn) : Prop :=
  match e with
  | NameError _ | AttributeError _ | IndexError | ValueError => True
  | _ => False
  end.

(** A computation that raises nothing but exceptions with property [P]. *)
Definition raises_only_o (P : exn -> Prop) {A} (o : outcome A) : Prop :=
  forall e, o = Raise e -> P e.

(** A method body that raises nothing but exceptions with property [P]. *)
Definition raises_only (P : exn -> Prop) {A} (c : M A) : Prop :=
  forall self e, snd (c self) = Raise e -> P e.

(** ** The instance when a call stops after line 112 *)

(** The attributes after lines 99-112 when [subtract_bkg] is off: the file,
    the processed crop and its two projections are stored, no solution. *)
Definition after_projections (self : Donuts) (c : fits) (cd : ndarray2)
    : Donuts :=
  set_check_yproj (sum_axis1 cd)
    (set_check_xproj (sum_axis0 cd)
       (set_check_data cd (set_checkimage c self))).

(** An instance as [__init__] is written to leave it with [boarder=b],
    background subtraction and normalisation off: the reference data are
    the image without a frame of [b] pixels. *)
Definition instance_with_boarder (rows : list (list Z)) (w : nat) (b : Z)
    : Donuts :=
  let a := px rows w in
  let h := Z.of_nat (List.length rows) in
  let r := slice2 a b (h - b) b (Z.of_nat w - b) in
  Self 0 b 1 false (image_of rows w) false 1
       h (Z.of_nat w) (ofZ (Z.of_nat w)) (ofZ h)
       r (Z.of_nat (nrows r)) (Z.of_nat (ncols r))
       (ofZ (Z.of_nat (ncols r))) (ofZ (Z.of_nat (nrows r))) None
       (sum_axis0 r) (sum_axis1 r) (linspace0 (ncols r)) (linspace0 (nrows r))
       None None None None None None None.

(** ** Attributes assigned before they are read *)

(** Which of the attributes that only [measure_shift] sets have been
    assigned since the call began. *)
Record assigned : Type := Assigned {
  a_checkimage : bool;
  a_check_data : bool;
  a_check_bkgmap : bool;
  a_check_xproj : bool;
  a_check_yproj : bool;
  a_solution_n_x : bool;
  a_solution_n_y : bool
}.

Definition nothing_assigned : assigned :=
  Assigned false false false false false false false.

(** [m] marks no more attributes than [m']. *)
Definition fewer (m m' : assigned) : bool :=
  implb (a_checkimage m) (a_checkimage m')
  && implb (a_check_data m) (a_check_data m')
  && implb (a_check_bkgmap m) (a_check_bkgmap m')
  && implb (a_check_xproj m) (a_check_xproj m')
  && implb (a_check_yproj m) (a_check_yproj m')
  && implb (a_solution_n_x m) (a_solution_n_x m')
  && implb (a_solution_n_y m) (a_solution_n_y m').

(** Two instances with the same reference state that agree on the marked
    attributes. *)
Definition agree (m : assigned) (s1 s2 : Donuts) : Prop :=
  reference_state s1 = reference_state s2
  /\ (a_checkimage m = true -> checkimage s1 = checkimage s2)
  /\ (a_check_data m = true -> check_data s1 = check_data s2)
  /\ (a_check_bkgmap m = true -> check_bkgmap s1 = check_bkgmap s2)
  /\ (a_check_xproj m = true -> check_xproj s1 = check_xproj s2)
  /\ (a_check_yproj m = true -> check_yproj s1 = check_yproj s2)
  /\ (a_solution_n_x m = true -> solution_n_x s1 = solution_n_x s2)
  /\ (a_solution_n_y m = true -> solution_n_y s1 = solution_n_y s2).

(** A piece of a method body that, run on two instances that agree on [m],
    ends the same way on both and, when it returns, leaves them agreeing
    on [m']. *)
Definition carries {A} (m m' : assigned) (c : M A) : Prop :=
  forall s1 s2,
    agree m s1 s2 ->
    snd (c s1) = snd (c s2)
    /\ (forall a, snd (c s1) = Ok a -> agree m' (fst (c s1)) (fst (c s2))).

(** ** The exceptions of a call without background subtraction *)

(** The exceptions that indexing and the transforms raise. *)
Definition library_error (e : exn) : Prop :=
  e = IndexError \/ e = ValueError.

(** An instance with background subtraction off on which every attribute
    that [measure_shift] sets holds a value. *)
Definition settled (s : Donuts) : Prop :=
  subtract_bkg s = false
  /\ checkimage s <> None /\ check_data s <> None /\ check_bkgmap s <> None
  /\ check_xproj s <> None /\ check_yproj s <> None
  /\ solution_n_x s <> None /\ solution_n_y s <> None.

(** An instance after a call that has assigned every attribute. *)
Definition filled (s : Donuts) : Donuts :=
  set_solution_n_y NaN
    (set_solution_n_x NaN
       (set_check_yproj []
          (set_check_xproj []
             (set_check_bkgmap (Arr2 [] 0)
                (set_check_data (Arr2 [] 0) (set_checkimage [] s)))))).

(** A piece of a method body that keeps the invariant [I] and raises
    nothing but exceptions with property [P]. *)
Definition stays (I : Donuts -> Prop) (P : exn -> Prop) {A} (c : M A)
    : Prop :=
  forall s, I s -> (forall e, snd (c s) = Raise e -> P e) /\ I (fst (c s)).

(** ** A profile shifted along its axis *)

(** [np.roll(r, d)] for [0 <= d]: the entry at [n] is the entry of [r] at
    [n - d], taken circularly. *)
Definition roll (d : nat) (r : list Qc) : list Qc :=
  let L := List.length r in
  map (fun n => nth ((n + (L - d mod L)) mod L) r 0) (seq 0 L).

(** A profile that no circular shift by less than its length leaves
    unchanged. *)
Definition aperiodic (r : list Qc) : Prop :=
  forall j, (0 < j < List.length r)%nat -> roll j r <> r.

(** The circular cross-correlation of [r] and [c] at lag [k]. *)
Definition xcorr (r c : list Qc) (k : nat) : Qc :=
  let L := List.length r in
  vsum (map (fun m => nth m r 0 * nth ((k + m) mod L) c 0) (seq 0 L)).

(** The shift that the x axis reports for a peak at index [d] of a
    correlation of length [L]. *)
Definition reported (L d : Z) : Qc :=
  ofZ (if (2 * d <=? L)%Z then - d else L - d).

(** Half a pixel. *)
Definition half : Qc := 1 / two.

(** ** The tiles of the background estimator *)

(** The tile [(i, j)] whose median line 74 takes. *)
Definition tile (data : ndarray2) (tilesizex tilesizey : Qc) (i j : Z)
    : ndarray2 :=
  slice2 data
         (slice_bound (ofZ i * tilesizey))
         (slice_bound (ofZ (i + 1) * tilesizey))
         (slice_bound (ofZ j * tilesizex))
         (slice_bound (ofZ (j + 1) * tilesizex)).

(** The indices that lines 72-73 run over. *)
Definition tile_range (tile_num : Z) : list Z :=
  map Z.of_nat (seq 0 (Z.to_nat tile_num)).

(** Blocks of rows put side by side. *)
Fixpoint hstack (h : nat) (blocks : list (list (list Qc))) : list (list Qc) :=
  match blocks with
  | [] => repeat [] h
  | b :: rest => map (fun p => fst p ++ snd p) (combine b (hstack h rest))
  end.

(** The tiles put back together: side by side within a band, the bands one
    below the other. *)
Definition reassembled (data : ndarray2) (N : Z) (tilesizex tilesizey : Qc)
    : list (list Qc) :=
  List.concat
    (map (fun i =>
            hstack (nrows (tile data tilesizex tilesizey i 0))
                   (map (fun j => rows (tile data tilesizex tilesizey i j))
                        (tile_range N)))
         (tile_range N)).

(** ** A brighter or dimmer check image *)

(** A profile of which every entry [v] has become [k * v + m]. *)
Definition rescaled (k m : Qc) (c : list Qc) : list Qc :=
  map (fun v => k * v + m) c.

(** ** What a call returns and what it stores *)

(** A method body whose value and final instance satisfy [Q] whenever it
    returns. *)
Definition returns_with {A} (Q : A -> Donuts -> Prop) (c : M A) : Prop :=
  forall s a, snd (c s) = Ok a -> Q a (fst (c s)).

(** The solution attributes hold the pair. *)
Definition stored (r : npfloat * npfloat) (s : Donuts) : Prop :=
  solution_n_x s = Some (fst r) /\ solution_n_y s = Some (snd r).

(** ** The constructor call of the test *)

(** The keywords of the test (test_integration2.py, lines 27-29), for a
    reference file [f]. *)
Definition test_keywords (f : fits) : list (string * pyval) :=
  [("refimage", VFits f); ("image_ext", VInt 0); ("exposure", VStr "EXPTIME");
   ("normalise", VBool true); ("subtract_bkg", VBool true);
   ("prescan_width", VInt 0); ("overscan_width", VInt 0);
   ("boarder", VInt 64); ("ntiles", VInt 28)]%string.

(* ================================================================== *)
(** * Names that nothing binds *)
(* ================================================================== *)

(** The bare names that [__init__] and [measure_shift] load are no locals of
    these functions (neither assigns them) and no module globals. *)
Lemma unbound_names :
  forallb (fun name => negb (is_module_global name))
          ["dx"; "dy"; "ref_data"; "_Donuts__generate_bkg_map"]%string
  = true.
Proof. reflexivity. Qed.

(* ================================================================== *)
(** * Arithmetic of the numbers *)
(* ================================================================== *)

Section Numbers.

Lemma Qc_leb_le (u v : Qc) : Qc_leb u v = true <-> u <= v.
Proof. unfold Qc_leb, Qcle. apply Qle_bool_iff. Qed.

Lemma Qc_ltb_lt (u v : Qc) : Qc_ltb u v = true <-> u < v.
Proof.
  unfold Qc_ltb, Qclt. rewrite negb_true_iff.
  split.
  - intros H. apply Qnot_le_lt. intro Hle.
    apply Qle_bool_iff in Hle. congruence.
  - intros H. destruct (Qle_bool v u) eqn:E; [| reflexivity].
    apply Qle_bool_iff in E. exfalso. apply (Qlt_not_le _ _ H E).
Qed.

Lemma Qc_eq_bool_refl (u : Qc) : Qc_eq_bool u u = true.
Proof. unfold Qc_eq_bool. destruct (Qc_eq_dec u u); congruence. Qed.

Lemma Qc_eq_bool_neq (u v : Qc) : u <> v -> Qc_eq_bool u v = false.
Proof. unfold Qc_eq_bool. destruct (Qc_eq_dec u v); congruence. Qed.

Lemma Qc_eq_bool_iff (u v : Qc) : Qc_eq_bool u v = true <-> u = v.
Proof.
  split.
  - apply Qc_eq_bool_correct.
  - intros ->. apply Qc_eq_bool_refl.
Qed.

Lemma this_ofZ (z : Z) : (this (ofZ z) == inject_Z z)%Q.
Proof. unfold ofZ, Q2Qc. cbn [this]. apply Qred_correct. Qed.

Lemma ofZ_inj (a b : Z) : ofZ a = ofZ b -> a = b.
Proof.
  intros H. apply (f_equal this) in H.
  assert (E : (inject_Z a == inject_Z b)%Q).
  { rewrite <- !this_ofZ. rewrite H. reflexivity. }
  unfold Qeq in E. simpl in E. lia.
Qed.

Lemma ofZ_mul (a b : Z) : ofZ (a * b) = ofZ a * ofZ b.
Proof.
  apply Qc_is_canon. unfold Qcmult, Q2Qc. cbn [this].
  rewrite Qred_correct, !this_ofZ. rewrite inject_Z_mult. reflexivity.
Qed.

Lemma ofZ_0 : ofZ 0 = 0.
Proof. apply Qc_is_canon. reflexivity. Qed.

Lemma ofZ_1 : ofZ 1 = 1.
Proof. apply Qc_is_canon. reflexivity. Qed.

Lemma two_is : two = 1 + 1.
Proof. apply Qc_is_canon. reflexivity. Qed.

Lemma two_neq_0 : two <> 0.
Proof. intro H. apply (f_equal this) in H. discriminate H. Qed.

Lemma ofZ_le (a b : Z) : ofZ a <= ofZ b <-> (a <= b)%Z.
Proof.
  unfold Qcle. rewrite !this_ofZ. rewrite Zle_Qle. reflexivity.
Qed.

Lemma ofZ_sub_neq (a b : Z) : a <> b -> ofZ b - ofZ a <> 0.
Proof.
  intros H E. apply H. apply ofZ_inj.
  transitivity ((ofZ b - ofZ a) + ofZ a); [rewrite E; ring | ring].
Qed.

Lemma half_is (L : Z) : two * (ofZ L / two) = ofZ L.
Proof. field. apply two_neq_0. Qed.

Lemma two_pos : 0 < two.
Proof. reflexivity. Qed.

(** [p <= L / 2] under true division is [2 p <= L]. *)
Lemma le_half (p L : Z) : Qc_leb (ofZ p) (ofZ L / two) = (2 * p <=? L)%Z.
Proof.
  apply eq_true_iff_eq. rewrite Qc_leb_le, Z.leb_le.
  rewrite <- ofZ_le, ofZ_mul.
  replace (ofZ 2) with two by (apply Qc_is_canon; reflexivity).
  rewrite <- (half_is L) at 2.
  split; intros H.
  - rewrite (Qcmult_comm two (ofZ p)), (Qcmult_comm two (ofZ L / two)).
    apply Qcmult_le_compat_r; [exact H | apply Qclt_le_weak, two_pos].
  - apply Qcmult_lt_0_le_reg_r with (z := two); [apply two_pos |].
    rewrite (Qcmult_comm (ofZ p) two), (Qcmult_comm (ofZ L / two) two).
    exact H.
Qed.

Lemma gt_half (p L : Z) : Qc_ltb (ofZ L / two) (ofZ p) = (L <? 2 * p)%Z.
Proof.
  unfold Qc_ltb. fold (Qc_leb (ofZ p) (ofZ L / two)). rewrite le_half.
  rewrite Z.leb_antisym. rewrite negb_involutive. reflexivity.
Qed.

End Numbers.

(* ================================================================== *)
(** * Indexing and the three-point fit *)
(* ================================================================== *)

Section Indexing.

Lemma getitem_mod A (l : list A) (i : Z) (d : A) :
  (- Z.of_nat (List.length l) <= i < Z.of_nat (List.length l))%Z ->
  getitem l i = Ok (nth (Z.to_nat (i mod Z.of_nat (List.length l))) l d).
Proof.
  intros Hi. unfold getitem.
  set (n := Z.of_nat (List.length l)) in *.
  assert (Hmod : (i mod n = if (i <? 0) then i + n else i)%Z).
  { destruct (Z.ltb_spec i 0).
    - symmetry. apply Z.mod_unique with (q := (-1)%Z); lia.
    - apply Z.mod_small. lia. }
  rewrite Hmod.
  set (j := (if (i <? 0)%Z then (i + n)%Z else i)).
  assert (Hj : (0 <= j < n)%Z) by (subst j; destruct (Z.ltb_spec i 0); lia).
  replace ((0 <=? j)%Z && (j <? n)%Z) with true
    by (symmetry; apply andb_true_iff; split;
        [apply Z.leb_le | apply Z.ltb_lt]; lia).
  destruct (nth_error l (Z.to_nat j)) eqn:E.
  - rewrite (nth_error_nth _ _ d E). reflexivity.
  - apply nth_error_None in E. subst n. lia.
Qed.

Lemma getitem_sample (Phi : list complex) (i : Z) :
  (- Z.of_nat (List.length Phi) <= i < Z.of_nat (List.length Phi))%Z ->
  exists u, getitem Phi i = Ok u /\ real u = sample Phi i.
Proof.
  intros Hi. eexists. split.
  - apply getitem_mod with (d := c0). exact Hi.
  - reflexivity.
Qed.

End Indexing.

Section Fit.

Lemma polyfit2_distinct (x0 x1 x2 : Z) (y : Qc * Qc * Qc) :
  x0 <> x1 -> x1 <> x2 -> x0 <> x2 ->
  exists a b c, polyfit2 (x0, x1, x2) y = Ok (a, b, c).
Proof.
  intros H01 H12 H02. destruct y as [[y0 y1] y2]. unfold polyfit2.
  apply Z.eqb_neq in H01, H12, H02. rewrite H01, H12, H02. simpl.
  eauto.
Qed.

(** The fitted parabola passes through the three points. *)
Lemma polyfit2_interpolates (x0 x1 x2 : Z) (y0 y1 y2 a b c : Qc) :
  polyfit2 (x0, x1, x2) (y0, y1, y2) = Ok (a, b, c) ->
  polyval2 (a, b, c) (x0, x1, x2) = (y0, y1, y2).
Proof.
  unfold polyfit2, polyval2.
  destruct (Z.eqb_spec x0 x1); [discriminate |].
  destruct (Z.eqb_spec x1 x2); [discriminate |].
  destruct (Z.eqb_spec x0 x2); [discriminate |].
  simpl. intros H. injection H as <- <- <-.
  assert (D01 : ofZ x1 - ofZ x0 <> 0) by (apply ofZ_sub_neq; assumption).
  assert (D12 : ofZ x2 - ofZ x1 <> 0) by (apply ofZ_sub_neq; assumption).
  assert (D02 : ofZ x2 - ofZ x0 <> 0) by (apply ofZ_sub_neq; assumption).
  f_equal; [f_equal |]; field; auto.
Qed.

(** It is the only parabola that does: a fit with residual zero is the
    least-squares fit, and no other parabola has residual zero. *)
Lemma polyfit2_unique (x0 x1 x2 : Z) (y0 y1 y2 a b c a' b' c' : Qc) :
  polyfit2 (x0, x1, x2) (y0, y1, y2) = Ok (a, b, c) ->
  polyval2 (a', b', c') (x0, x1, x2) = (y0, y1, y2) ->
  (a', b', c') = (a, b, c).
Proof.
  intros Hfit Hval.
  pose proof (polyfit2_interpolates _ _ _ _ _ _ Hfit) as Hint.
  unfold polyfit2 in Hfit.
  destruct (Z.eqb_spec x0 x1); [discriminate |].
  destruct (Z.eqb_spec x1 x2); [discriminate |].
  destruct (Z.eqb_spec x0 x2); [discriminate |].
  clear Hfit. unfold polyval2 in *.
  rewrite <- Hint in Hval. clear Hint.
  pose proof (f_equal (fun t => fst (fst t)) Hval) as E0.
  pose proof (f_equal (fun t => snd (fst t)) Hval) as E1.
  pose proof (f_equal snd Hval) as E2.
  cbn [fst snd] in E0, E1, E2. clear Hval.
  assert (D01 : ofZ x1 - ofZ x0 <> 0) by (apply ofZ_sub_neq; assumption).
  assert (D12 : ofZ x2 - ofZ x1 <> 0) by (apply ofZ_sub_neq; assumption).
  assert (D02 : ofZ x2 - ofZ x0 <> 0) by (apply ofZ_sub_neq; assumption).
  set (X0 := ofZ x0) in *. set (X1 := ofZ x1) in *. set (X2 := ofZ x2) in *.
  (* differences of the two parabolas vanish at three distinct points *)
  set (da := a' - a). set (db := b' - b). set (dc := c' - c).
  assert (Z0 : da * X0 * X0 + db * X0 + dc = 0)
    by (subst da db dc; rewrite <- (Qcplus_opp_r (a * X0 * X0 + b * X0 + c));
        rewrite <- E0 at 1; ring).
  assert (Z1 : da * X1 * X1 + db * X1 + dc = 0)
    by (subst da db dc; rewrite <- (Qcplus_opp_r (a * X1 * X1 + b * X1 + c));
        rewrite <- E1 at 1; ring).
  assert (Z2 : da * X2 * X2 + db * X2 + dc = 0)
    by (subst da db dc; rewrite <- (Qcplus_opp_r (a * X2 * X2 + b * X2 + c));
        rewrite <- E2 at 1; ring).
  assert (S01 : da * (X1 + X0) + db = 0).
  { apply Qcmult_integral_l with (x := X1 - X0); [exact D01 |].
    transitivity ((da * X1 * X1 + db * X1 + dc)
                  - (da * X0 * X0 + db * X0 + dc)); [ring |].
    rewrite Z0, Z1. ring. }
  assert (S12 : da * (X2 + X1) + db = 0).
  { apply Qcmult_integral_l with (x := X2 - X1); [exact D12 |].
    transitivity ((da * X2 * X2 + db * X2 + dc)
                  - (da * X1 * X1 + db * X1 + dc)); [ring |].
    rewrite Z1, Z2. ring. }
  assert (Ha : da = 0).
  { apply Qcmult_integral_l with (x := X2 - X0); [exact D02 |].
    transitivity ((da * (X2 + X1) + db) - (da * (X1 + X0) + db)); [ring |].
    rewrite S01, S12. ring. }
  assert (Hb : db = 0).
  { rewrite Ha in S01. rewrite <- S01. ring. }
  assert (Hc : dc = 0).
  { rewrite Ha, Hb in Z0. rewrite <- Z0. ring. }
  assert (Ea : a' = a).
  { transitivity (da + a); [subst da; ring | rewrite Ha; ring]. }
  assert (Eb : b' = b).
  { transitivity (db + b); [subst db; ring | rewrite Hb; ring]. }
  assert (Ec : c' = c).
  { transitivity (dc + c); [subst dc; ring | rewrite Hc; ring]. }
  congruence.
Qed.

Lemma fneg_fdiv_opp (b d : Qc) : fneg (fdiv (- b) d) = fdiv b d.
Proof.
  unfold fdiv. destruct (Qc_eq_bool d 0) eqn:Ed.
  - destruct (Qc_eq_bool b 0) eqn:Eb.
    + apply Qc_eq_bool_iff in Eb. subst b.
      replace (- 0) with 0 by ring. reflexivity.
    + rewrite Qc_eq_bool_neq; [reflexivity |].
      intro E. assert (b = 0) by (rewrite <- (Qcopp_involutive b), E; ring).
      subst b. rewrite Qc_eq_bool_refl in Eb. discriminate.
  - simpl. f_equal.
    assert (d <> 0) by (intro; subst; rewrite Qc_eq_bool_refl in Ed;
                        discriminate).
    field. assumption.
Qed.

End Fit.

(* ================================================================== *)
(** * Running a method body step by step *)
(* ================================================================== *)

Lemma mbind_lift_ok A B (a : A) (k : A -> M B) (self : Donuts) :
  mbind (lift (Ok a)) k self = k a self.
Proof. reflexivity. Qed.

Lemma mbind_assign B (set : Donuts -> Donuts) (k : unit -> M B) self :
  mbind (assign set) k self = k tt (set self).
Proof. reflexivity. Qed.

Lemma mbind_mret A B (a : A) (k : A -> M B) self :
  mbind (mret a) k self = k a self.
Proof. reflexivity. Qed.

Lemma mbind_attr A B (f : Donuts -> A) (k : A -> M B) self :
  mbind (attr f) k self = k (f self) self.
Proof. reflexivity. Qed.

Lemma mbind_run A B (c : M A) (k : A -> M B) self self' a :
  c self = (self', Ok a) -> mbind c k self = k a self'.
Proof. intros E. unfold mbind. rewrite E. reflexivity. Qed.

Lemma mbind_attr_opt A B name (f : Donuts -> option A) (k : A -> M B) self :
  mbind (attr_opt name f) k self
  = match f self with
    | Some v => k v self
    | None => (self, Raise (AttributeError name))
    end.
Proof. unfold mbind, attr_opt. destruct (f self); reflexivity. Qed.

(** One step of a method body on a given instance. *)
Ltac mstep :=
  first [ rewrite mbind_assign | rewrite mbind_attr | rewrite mbind_attr_opt
        | rewrite mbind_lift_ok | rewrite mbind_mret ];
  cbv beta;
  cbn [image_ext boarder ntiles normalise refimage subtract_bkg texp dy dx
       dimx dimy ref_data w_dimy w_dimx tilesizex tilesizey bkgmap
       ref_xproj ref_yproj x y checkimage self_checkimage check_data
       check_bkgmap check_xproj check_yproj solution_n_x solution_n_y
       set_checkimage set_check_data set_check_bkgmap set_check_xproj
       set_check_yproj set_solution_n_x set_solution_n_y].

(* ================================================================== *)
(** * The refinement of the peak *)
(* ================================================================== *)

Section Refiner.

Open Scope m_scope.

Lemma getitem_head A (a : A) (l : list A) : getitem (a :: l) 0 = Ok a.
Proof.
  rewrite getitem_mod with (d := a).
  - rewrite Z.mod_0_l; [reflexivity |].
    cbn [List.length]. lia.
  - cbn [List.length]. lia.
Qed.

(** Reading three samples of the correlation and fitting them, as each of
    the branches does: inside the sequence nothing raises, and the fit is the
    one [vertex] is defined from. *)
Lemma fit_samples (Phi : list complex) (i0 i1 i2 : Z) (xs : Z * Z * Z)
    (k : Qc * Qc * Qc -> M unit) (self : Donuts) :
  let L := Z.of_nat (List.length Phi) in
  (- L <= i0 < L)%Z -> (- L <= i1 < L)%Z -> (- L <= i2 < L)%Z ->
  (t0 <== lift (getitem Phi i0) ;;
   t1 <== lift (getitem Phi i1) ;;
   t2 <== lift (getitem Phi i2) ;;
   coeffs <== lift (polyfit2 xs (real t0, real t1, real t2)) ;;
   k coeffs) self
  = (coeffs <== lift (polyfit2 xs (sample Phi i0, sample Phi i1, sample Phi i2)) ;;
     k coeffs) self.
Proof.
  intros L H0 H1 H2.
  destruct (getitem_sample Phi H0) as (u0 & G0 & R0).
  destruct (getitem_sample Phi H1) as (u1 & G1 & R1).
  destruct (getitem_sample Phi H2) as (u2 & G2 & R2).
  rewrite G0, mbind_lift_ok, G1, mbind_lift_ok, G2, mbind_lift_ok.
  rewrite R0, R1, R2. reflexivity.
Qed.

Lemma fit_then_assign (xs : Z * Z * Z) (ys : Qc * Qc * Qc)
    (f : Qc -> Qc -> npfloat) (set : npfloat -> Donuts -> Donuts) self :
  let '(x0, x1, x2) := xs in
  x0 <> x1 -> x1 <> x2 -> x0 <> x2 ->
  exists a b c,
    polyfit2 xs ys = Ok (a, b, c) /\
    (coeffs <== lift (polyfit2 xs ys) ;;
     let besty := polyval2 coeffs xs in
     let '(a, b, _) := coeffs in
     assign (set (f a b))) self
    = (set (f a b) self, Ok tt).
Proof.
  destruct xs as [[x0 x1] x2]. intros H01 H12 H02.
  destruct (polyfit2_distinct ys H01 H12 H02) as (a & b & c & E).
  exists a, b, c. split; [exact E |].
  rewrite E, mbind_lift_ok. reflexivity.
Qed.

Lemma vertex_of_fit xs ys a b c :
  polyfit2 xs ys = Ok (a, b, c) -> vertex xs ys = fdiv (- b) (two * a).
Proof. intros E. unfold vertex. rewrite E. reflexivity. Qed.

(** Lines 139-170 store the value of the three-way split and never raise. *)
Lemma refine_x_value (Phi : list complex) (p : Z) (rest : list Z)
    (self : Donuts) :
  (3 <= Z.of_nat (List.length Phi))%Z ->
  (0 <= p < Z.of_nat (List.length Phi))%Z ->
  refine_x Phi (p :: rest) self
  = (set_solution_n_x (refine_x_amended Phi p) self, Ok tt).
Proof.
  intros HL Hp. unfold refine_x, refine_x_amended.
  rewrite getitem_head, mbind_lift_ok. cbv zeta.
  set (L := Z.of_nat (List.length Phi)) in *.
  rewrite le_half, gt_half.
  destruct (Z.leb_spec (2 * p) L) as [Hlow | Hhigh].
  - (* p <= L/2 *)
    rewrite fit_samples by (fold L; lia).
    pose proof (@fit_then_assign (p - 1, p, p + 1)%Z
                  (sample Phi (p - 1), sample Phi p, sample Phi (p + 1))
                  (fun a b => fneg (fdiv (- b) (two * a)))
                  set_solution_n_x self) as F.
    cbv beta iota in F.
    destruct F as (a & b & c & E & R); try lia.
    etransitivity; [exact R |].
    rewrite (vertex_of_fit _ _ E). reflexivity.
  - replace (L <? 2 * p)%Z with true by (symmetry; apply Z.ltb_lt; lia).
    destruct (Z.eqb_spec p (L - 1)) as [Hlast | Hmid].
    + (* p = L - 1 *)
      replace (p <? L - 1)%Z with false by (symmetry; apply Z.ltb_ge; lia).
      cbn [andb negb].
      rewrite fit_samples by (fold L; lia).
      pose proof (@fit_then_assign (-1, 0, 1)%Z
                    (sample Phi (-2), sample Phi (-1), sample Phi 0)
                    (fun a b => fadd 1 (fdiv b (two * a)))
                    set_solution_n_x self) as F.
      cbv beta iota in F.
      destruct F as (a & b & c & E & R); try lia.
      etransitivity; [exact R |].
      assert (S2 : sample Phi (L - 2) = sample Phi (-2)).
      { unfold sample. fold L. f_equal. f_equal. f_equal.
        replace (L - 2)%Z with (-2 + 1 * L)%Z by lia.
        apply Z.mod_add. lia. }
      assert (S1 : sample Phi (L - 1) = sample Phi (-1)).
      { unfold sample. fold L. f_equal. f_equal. f_equal.
        replace (L - 1)%Z with (-1 + 1 * L)%Z by lia.
        apply Z.mod_add. lia. }
      rewrite S2, S1, (vertex_of_fit _ _ E).
      unfold fsub. rewrite fneg_fdiv_opp. reflexivity.
    + (* L/2 < p < L - 1 *)
      replace (p <? L - 1)%Z with true by (symmetry; apply Z.ltb_lt; lia).
      cbn [andb negb].
      rewrite fit_samples by (fold L; lia).
      pose proof (@fit_then_assign (p - 1, p, p + 1)%Z
                    (sample Phi (p - 1), sample Phi p, sample Phi (p + 1))
                    (fun a b => fadd (ofZ L) (fdiv b (two * a)))
                    set_solution_n_x self) as F.
      cbv beta iota in F.
      destruct F as (a & b & c & E & R); try lia.
      etransitivity; [exact R |].
      rewrite (vertex_of_fit _ _ E).
      unfold fsub. rewrite fneg_fdiv_opp. reflexivity.
Qed.

(** Lines 174-205 with the peak away from the last index: the final
    [else] branch has the last word. *)
Lemma refine_y_not_last (Phi : list complex) (p : Z) (rest : list Z)
    (self : Donuts) :
  (3 <= Z.of_nat (List.length Phi))%Z ->
  (0 <= p < Z.of_nat (List.length Phi))%Z ->
  p <> (Z.of_nat (List.length Phi) - 1)%Z ->
  refine_y Phi (p :: rest) self
  = (set_solution_n_y
       (vertex (1, 0, -1)%Z
          (sample Phi (Z.of_nat (List.length Phi) - 1), sample Phi 0,
           sample Phi 1))
       self,
     Ok tt).
Proof.
  intros HL Hp Hne. unfold refine_y.
  rewrite getitem_head, mbind_lift_ok. cbv zeta.
  set (L := Z.of_nat (List.length Phi)) in *.
  rewrite le_half, gt_half.
  destruct (Z.eqb_spec p (L - 1)) as [| _]; [contradiction |].
  assert (S1 : sample Phi (L - 1) = sample Phi (-1)).
  { unfold sample. fold L. f_equal. f_equal. f_equal.
    replace (L - 1)%Z with (-1 + 1 * L)%Z by lia.
    apply Z.mod_add. lia. }
  (* the last statement, run from any state *)
  assert (Last : forall s,
    (if false then
       let lra_y := (-1, 0, 1)%Z in
       t0 <== lift (getitem Phi (-2)) ;;
       t1 <== lift (getitem Phi (-1)) ;;
       t2 <== lift (getitem Phi 0) ;;
       coeffs <== lift (polyfit2 lra_y (real t0, real t1, real t2)) ;;
       let besty := polyval2 coeffs lra_y in
       let '(a, b, _) := coeffs in
       assign (set_solution_n_y (fadd 1 (fdiv b (two * a))))
     else
       let lra_y := (1, 0, -1)%Z in
       t0 <== lift (getitem Phi (-1)) ;;
       t1 <== lift (getitem Phi 0) ;;
       t2 <== lift (getitem Phi 1) ;;
       coeffs <== lift (polyfit2 lra_y (real t0, real t1, real t2)) ;;
       let besty := polyval2 coeffs lra_y in
       let '(a, b, _) := coeffs in
       assign (set_solution_n_y (fdiv (- b) (two * a)))) s
    = (set_solution_n_y
         (vertex (1, 0, -1)%Z (sample Phi (L - 1), sample Phi 0, sample Phi 1))
         s, Ok tt)).
  { intros s. cbv zeta. rewrite fit_samples by (fold L; lia).
    pose proof (@fit_then_assign (1, 0, -1)%Z
                  (sample Phi (-1), sample Phi 0, sample Phi 1)
                  (fun a b => fdiv (- b) (two * a))
                  set_solution_n_y s) as F.
    cbv beta iota in F.
    destruct F as (a & b & c & E & R); try lia.
    etransitivity; [exact R |].
    rewrite S1, (vertex_of_fit _ _ E). reflexivity. }
  destruct (Z.leb_spec (2 * p) L) as [Hlow | Hhigh].
  - (* the first [if] stores a value, the second does nothing *)
    replace (L <? 2 * p)%Z with false by (symmetry; apply Z.ltb_ge; lia).
    cbn [andb]. cbv beta iota.
    pose proof (@fit_then_assign (p - 1, p, p + 1)%Z
                  (sample Phi (p - 1), sample Phi p, sample Phi (p + 1))
                  (fun a b => fneg (fdiv (- b) (two * a)))
                  set_solution_n_y self) as F.
    cbv beta iota in F.
    destruct F as (a & b & c & E & R); try lia.
    erewrite mbind_run;
      [| cbv zeta; rewrite fit_samples by (fold L; lia); exact R].
    rewrite mbind_mret. rewrite Last. reflexivity.
  - (* the first [if] does nothing, the second stores a value *)
    replace (L <? 2 * p)%Z with true by (symmetry; apply Z.ltb_lt; lia).
    cbn [andb negb]. cbv beta iota. rewrite mbind_mret. cbv beta.
    pose proof (@fit_then_assign (p - 1, p, p + 1)%Z
                  (sample Phi (p - 1), sample Phi p, sample Phi (p + 1))
                  (fun a b => fadd (ofZ L) (fdiv b (two * a)))
                  set_solution_n_y self) as F.
    cbv beta iota in F.
    destruct F as (a & b & c & E & R); try lia.
    erewrite mbind_run;
      [| cbv zeta; rewrite fit_samples by (fold L; lia); exact R].
    rewrite Last. reflexivity.
Qed.

End Refiner.

(* ================================================================== *)
(** * The correlation and its peak *)
(* ================================================================== *)

Section Peak.

Lemma imag_csum (l : list complex) : all_real l -> imag (csum l) = 0.
Proof.
  induction 1 as [| u l Hu Hl IH]; [reflexivity |].
  cbn [csum fold_right cadd imag]. fold (csum l).
  rewrite Hu, IH. ring.
Qed.

Lemma imag_cmul (u v : complex) : imag u = 0 -> imag v = 0 -> imag (cmul u v) = 0.
Proof. intros Hu Hv. cbn [cmul imag]. rewrite Hu, Hv. ring. Qed.

Lemma all_real_nth (l : list complex) (n : nat) :
  all_real l -> imag (nth n l c0) = 0.
Proof.
  intros H. destruct (Nat.lt_ge_cases n (List.length l)) as [Hn | Hn].
  - apply (proj1 (Forall_forall _ _) H). apply nth_In. exact Hn.
  - rewrite nth_overflow by exact Hn. reflexivity.
Qed.

Lemma all_real_ofreal (r : list Qc) : all_real (map ofreal r).
Proof. apply Forall_forall. intros u Hu. apply in_map_iff in Hu.
  destruct Hu as (q & <- & _). reflexivity. Qed.

Lemma all_real_conjugate (F : spectrum) :
  all_real (samples F) -> all_real (samples (conjugate F)).
Proof.
  intros H. unfold conjugate. cbn [samples].
  apply Forall_forall. intros u Hu. apply in_map_iff in Hu.
  destruct Hu as (n & <- & _). cbn [cconj imag].
  rewrite all_real_nth by exact H. ring.
Qed.

Lemma all_real_cconv (a b : list complex) :
  all_real a -> all_real b -> all_real (cconv a b).
Proof.
  intros Ha Hb. unfold cconv. apply Forall_forall. intros u Hu.
  apply in_map_iff in Hu. destruct Hu as (k & <- & _).
  apply imag_csum. apply Forall_forall. intros v Hv.
  apply in_map_iff in Hv. destruct Hv as (n & <- & _).
  apply imag_cmul; apply all_real_nth; assumption.
Qed.

Lemma all_real_spec_mul (F G S : spectrum) :
  all_real (samples F) -> all_real (samples G) ->
  spec_mul F G = Ok S -> all_real (samples S).
Proof.
  intros HF HG. unfold spec_mul.
  destruct (List.length (samples F) =? List.length (samples G))%nat.
  - intros E. injection E as <-. cbn [samples].
    apply all_real_cconv; assumption.
  - destruct (samples F) as [| u [| u' x]] eqn:EF.
    + destruct (samples G) as [| v [| v' y]]; try discriminate.
      intros E. injection E as <-. constructor.
    + intros E. injection E as <-. cbn [samples].
      apply Forall_forall. intros w Hw. apply in_map_iff in Hw.
      destruct Hw as (s & <- & Hs). apply imag_cmul.
      * inversion HF; assumption.
      * apply (proj1 (Forall_forall _ _) HG). exact Hs.
    + destruct (samples G) as [| v [| v' y]]; try discriminate.
      intros E. injection E as <-. cbn [samples].
      apply Forall_forall. intros w Hw.
      change (In w (map (fun s => cmul s v) (u :: u' :: x))) in Hw.
      apply in_map_iff in Hw.
      destruct Hw as (s & <- & Hs). apply imag_cmul.
      * apply (proj1 (Forall_forall _ _) HF). exact Hs.
      * inversion HG; assumption.
Qed.

(** The correlation of two real projections is real and not empty. *)
Lemma correlation_real (r c : list Qc) (Phi : list complex) :
  correlation r c = Ok Phi -> all_real Phi /\ Phi <> [].
Proof.
  unfold correlation, fft.
  destruct r as [| r0 r']; [discriminate |].
  destruct c as [| c0' c']; [discriminate |].
  cbn [bind].
  destruct (spec_mul _ _) as [S | |] eqn:ES; try discriminate.
  cbn [bind]. unfold ifft.
  apply all_real_spec_mul in ES.
  - destruct (samples S) as [| s0 s'] eqn:E; [discriminate |].
    intros H. injection H as <-. split; [exact ES | discriminate].
  - apply all_real_conjugate. cbn [samples]. apply all_real_ofreal.
  - cbn [samples]. apply all_real_ofreal.
Qed.

Lemma c_gtb_real (v m : complex) :
  imag v = 0 -> imag m = 0 -> c_gtb v m = Qc_ltb (real m) (real v).
Proof.
  intros Hv Hm. unfold c_gtb. rewrite Hv, Hm.
  replace (Qc_ltb 0 0) with false by reflexivity.
  rewrite andb_false_r, orb_false_r. reflexivity.
Qed.

Lemma c_eqb_real (u v : complex) :
  imag u = 0 -> imag v = 0 -> c_eqb u v = Qc_eq_bool (real u) (real v).
Proof.
  intros Hu Hv. unfold c_eqb. rewrite Hu, Hv, Qc_eq_bool_refl.
  apply andb_true_r.
Qed.

(** The running maximum of the built-in [max]: an element of the sequence
    that no element exceeds. *)
Lemma fold_max_real (t : list complex) (u : complex) :
  all_real (u :: t) ->
  let m := fold_left (fun m v => if c_gtb v m then v else m) t u in
  In m (u :: t) /\ forall v, In v (u :: t) -> real v <= real m.
Proof.
  revert u. induction t as [| w t IH]; intros u Hall.
  - cbn. split; [left; reflexivity |].
    intros v [<- | []]. apply Qcle_refl.
  - cbn [fold_left].
    inversion Hall as [| ? ? Hu Ht]; subst.
    inversion Ht as [| ? ? Hw Ht']; subst.
    rewrite c_gtb_real by assumption.
    destruct (Qc_ltb (real u) (real w)) eqn:E.
    + apply Qc_ltb_lt in E.
      destruct (IH w) as [Hin Hmax]; [constructor; assumption |].
      split.
      * right. exact Hin.
      * intros v [<- | Hv].
        -- apply Qcle_trans with (real w);
             [apply Qclt_le_weak; exact E | apply Hmax; left; reflexivity].
        -- apply Hmax. exact Hv.
    + assert (Hle : real w <= real u).
      { apply Qcnot_lt_le. intro Hlt. apply Qc_ltb_lt in Hlt. congruence. }
      destruct (IH u) as [Hin Hmax]; [constructor; assumption |].
      split.
      * destruct Hin as [<- | Hin]; [left; reflexivity | right; right; exact Hin].
      * intros v [<- | [<- | Hv]].
        -- apply Hmax. left. reflexivity.
        -- apply Qcle_trans with (real u);
             [exact Hle | apply Hmax; left; reflexivity].
        -- apply Hmax. right. exact Hv.
Qed.

(** [np.where(l == z)[0]] starts with the first index at which [l] equals
    [z]. *)
Lemma where_from_first (l : list complex) (z : complex) (i : Z) :
  (exists v, In v l /\ c_eqb v z = true) ->
  exists k rest,
    where_from i l z = (i + Z.of_nat k)%Z :: rest
    /\ (k < List.length l)%nat
    /\ c_eqb (nth k l c0) z = true
    /\ forall j, (j < k)%nat -> c_eqb (nth j l c0) z = false.
Proof.
  revert i. induction l as [| u l IH]; intros i (v & Hv & Ev).
  - destruct Hv.
  - cbn [where_from]. destruct (c_eqb u z) eqn:Eu.
    + exists 0%nat, (where_from (i + 1) l z).
      repeat split.
      * f_equal. lia.
      * cbn. lia.
      * exact Eu.
      * intros j Hj. lia.
    + destruct Hv as [-> | Hv]; [congruence |].
      destruct (IH (i + 1)%Z) as (k & rest & Hw & Hk & Ek & Hfirst);
        [exists v; split; assumption |].
      exists (S k), rest. repeat split.
      * rewrite Hw. f_equal. lia.
      * cbn. lia.
      * exact Ek.
      * intros [| j] Hj; [exact Eu | apply Hfirst; lia].
Qed.

Lemma sample_in_range (Phi : list complex) (i : Z) :
  (0 <= i < Z.of_nat (List.length Phi))%Z ->
  sample Phi i = real (nth (Z.to_nat i) Phi c0).
Proof. intros H. unfold sample. rewrite Z.mod_small by exact H. reflexivity. Qed.

(** The peak of a sequence of real samples. *)
Lemma peak_index_real (Phi : list complex) :
  all_real Phi -> Phi <> [] ->
  exists p,
    peak_index Phi = Ok p
    /\ (0 <= p < Z.of_nat (List.length Phi))%Z
    /\ (forall i, (0 <= i < Z.of_nat (List.length Phi))%Z ->
                  sample Phi i <= sample Phi p)
    /\ (forall i, (0 <= i < p)%Z -> sample Phi i < sample Phi p).
Proof.
  intros Hall Hne. destruct Phi as [| u t]; [congruence |].
  unfold peak_index. cbn [py_max bind].
  set (m := fold_left (fun m v => if c_gtb v m then v else m) t u).
  destruct (fold_max_real Hall) as [Hin Hmax]. fold m in Hin, Hmax.
  assert (Hm : imag m = 0) by (apply (proj1 (Forall_forall _ _) Hall); exact Hin).
  destruct (@where_from_first (u :: t) m 0) as (k & rest & Hw & Hk & Ek & Hfirst).
  { exists m. split; [exact Hin |].
    rewrite c_eqb_real by assumption. apply Qc_eq_bool_refl. }
  unfold where_eq. rewrite Hw, getitem_head.
  exists (Z.of_nat k). split; [f_equal; lia |].
  split; [lia |].
  assert (Ek' : real (nth k (u :: t) c0) = real m).
  { rewrite c_eqb_real in Ek; [| apply all_real_nth; exact Hall | exact Hm].
    apply Qc_eq_bool_iff. exact Ek. }
  split.
  - intros i Hi. rewrite !sample_in_range by lia.
    rewrite Nat2Z.id, Ek'. apply Hmax. apply nth_In. lia.
  - intros i Hi. rewrite !sample_in_range by lia.
    rewrite Nat2Z.id, Ek'.
    assert (Hle : real (nth (Z.to_nat i) (u :: t) c0) <= real m)
      by (apply Hmax; apply nth_In; lia).
    assert (Hneq : real (nth (Z.to_nat i) (u :: t) c0) <> real m).
    { intro E. specialize (Hfirst (Z.to_nat i)).
      rewrite c_eqb_real in Hfirst; [| apply all_real_nth; exact Hall | exact Hm].
      rewrite E, Qc_eq_bool_refl in Hfirst.
      assert (true = false) by (apply Hfirst; lia). discriminate. }
    destruct (Qcle_lt_or_eq _ _ Hle) as [Hlt | Heq]; [exact Hlt | contradiction].
Qed.

End Peak.

(* ================================================================== *)
(** * Running [measure_shift] *)
(* ================================================================== *)

Section Run.

Open Scope m_scope.


(** On the y axis with the peak at the last index the third [if] runs its
    first branch. *)
Lemma refine_y_last (Phi : list complex) (p : Z) (rest : list Z)
    (self : Donuts) :
  (3 <= Z.of_nat (List.length Phi))%Z ->
  p = (Z.of_nat (List.length Phi) - 1)%Z ->
  refine_y Phi (p :: rest) self
  = (set_solution_n_y (refine_y_amended Phi p) self, Ok tt).
Proof.
  intros HL Hp. unfold refine_y, refine_y_amended.
  rewrite getitem_head, mbind_lift_ok. cbv zeta.
  set (L := Z.of_nat (List.length Phi)) in *.
  rewrite le_half, gt_half.
  replace (2 * p <=? L)%Z with false by (symmetry; apply Z.leb_gt; lia).
  replace (p =? L - 1)%Z with true by (symmetry; apply Z.eqb_eq; lia).
  rewrite andb_false_r. cbv beta iota.
  rewrite !mbind_mret. cbv beta.
  rewrite fit_samples by (fold L; lia).
  pose proof (@fit_then_assign (-1, 0, 1)%Z
                (sample Phi (-2), sample Phi (-1), sample Phi 0)
                (fun a b => fadd 1 (fdiv b (two * a)))
                set_solution_n_y self) as F.
  cbv beta iota in F.
  destruct F as (a & b & c & E & R); try lia.
  etransitivity; [exact R |].
  assert (S2 : sample Phi (L - 2) = sample Phi (-2)).
  { unfold sample. fold L. f_equal. f_equal. f_equal.
    replace (L - 2)%Z with (-2 + 1 * L)%Z by lia.
    apply Z.mod_add. lia. }
  assert (S1 : sample Phi (L - 1) = sample Phi (-1)).
  { unfold sample. fold L. f_equal. f_equal. f_equal.
    replace (L - 1)%Z with (-1 + 1 * L)%Z by lia.
    apply Z.mod_add. lia. }
  rewrite S2, S1, (vertex_of_fit _ _ E).
  unfold fsub. rewrite fneg_fdiv_opp. reflexivity.
Qed.

Lemma refine_y_value (Phi : list complex) (p : Z) (rest : list Z)
    (self : Donuts) :
  (3 <= Z.of_nat (List.length Phi))%Z ->
  (0 <= p < Z.of_nat (List.length Phi))%Z ->
  refine_y Phi (p :: rest) self
  = (set_solution_n_y (refine_y_amended Phi p) self, Ok tt).
Proof.
  intros HL Hp.
  destruct (Z.eq_dec p (Z.of_nat (List.length Phi) - 1)) as [E | E].
  - apply refine_y_last; assumption.
  - rewrite refine_y_not_last by assumption.
    unfold refine_y_amended.
    replace (p =? Z.of_nat (List.length Phi) - 1)%Z with false
      by (symmetry; apply Z.eqb_neq; exact E).
    reflexivity.
Qed.

Lemma correlation_inv (r c : list Qc) (Phi : list complex) :
  correlation r c = Ok Phi ->
  exists Fr Fc S,
    fft r = Ok Fr /\ fft c = Ok Fc
    /\ spec_mul (conjugate Fr) Fc = Ok S /\ ifft S = Ok Phi.
Proof.
  unfold correlation. intros H.
  destruct (fft r) as [Fr | |] eqn:E1; try discriminate.
  destruct (fft c) as [Fc | |] eqn:E2; try discriminate.
  cbn [bind] in H.
  destruct (spec_mul (conjugate Fr) Fc) as [S | |] eqn:E3; try discriminate.
  cbn [bind] in H. exists Fr, Fc, S. repeat split; auto.
Qed.

Lemma getitem_0_inv A (l : list A) (a : A) :
  getitem l 0 = Ok a -> exists rest, l = a :: rest.
Proof.
  destruct l as [| b l]; [discriminate |].
  rewrite getitem_head. intros E. injection E as ->. eauto.
Qed.

Lemma peak_index_inv (Phi : list complex) (p : Z) :
  peak_index Phi = Ok p ->
  exists z rest, py_max Phi = Ok z /\ where_eq Phi z = p :: rest.
Proof.
  unfold peak_index. intros H.
  destruct (py_max Phi) as [z | |] eqn:E1; try discriminate.
  cbn [bind] in H. apply getitem_0_inv in H. destruct H as (rest & E).
  exists z, rest. auto.
Qed.

(** [measure_shift] on an instance without background subtraction, when the
    file has the unit asked for, the exposure is not zero and both
    correlations have at least three samples: the call returns, and its two
    components are what the two refiners store. *)
Lemma measure_shift_run (c : fits) (self : Donuts) (u : hdu) (cd : ndarray2)
    (Phix Phiy : list complex) (px py : Z) :
  subtract_bkg self = false ->
  getitem c (image_ext self) = Ok u ->
  processed self u = Ok cd ->
  correlation (ref_xproj self) (sum_axis0 cd) = Ok Phix ->
  correlation (ref_yproj self) (sum_axis1 cd) = Ok Phiy ->
  peak_index Phix = Ok px ->
  peak_index Phiy = Ok py ->
  (3 <= Z.of_nat (List.length Phix))%Z ->
  (3 <= Z.of_nat (List.length Phiy))%Z ->
  (0 <= px < Z.of_nat (List.length Phix))%Z ->
  (0 <= py < Z.of_nat (List.length Phiy))%Z ->
  measure_shift c self
  = (after_call self c cd (refine_x_amended Phix px) (refine_y_amended Phiy py),
     Ok (refine_x_amended Phix px, refine_y_amended Phiy py)).
Proof.
  intros Hsb Hu Hcd Hx Hy Hpx Hpy HLx HLy Hrx Hry.
  apply correlation_inv in Hx. destruct Hx as (Frx & Fcx & Sx & X1 & X2 & X3 & X4).
  apply correlation_inv in Hy. destruct Hy as (Fry & Fcy & Sy & Y1 & Y2 & Y3 & Y4).
  apply peak_index_inv in Hpx. destruct Hpx as (zx & restx & Zx & Wx).
  apply peak_index_inv in Hpy. destruct Hpy as (zy & resty & Zy & Wy).
  unfold measure_shift.
  repeat mstep. rewrite Hu. repeat mstep. rewrite Hsb. cbv iota.
  repeat mstep.
  unfold processed, cropped in Hcd.
  assert (Hnorm :
    forall k : unit -> M (npfloat * npfloat),
    forall s0,
      check_data s0
      = Some (slice2 (data u) (boarder self)
                (slice_bound (dimy self - ofZ (boarder self)))
                (boarder self)
                (slice_bound (dimx self - ofZ (boarder self)))) ->
      texp s0 = texp self ->
      mbind (if normalise self
             then cd0 <== attr_opt "check_data" check_data ;;
                  t <== attr texp ;;
                  r <== lift (div2 cd0 t) ;;
                  assign (set_check_data r)
             else mret tt) k s0
      = k tt (set_check_data cd s0)).
  { intros k s0 E0 Et. destruct (normalise self).
    - rewrite mbind_run with (self' := set_check_data cd s0) (a := tt);
        [reflexivity |].
      rewrite mbind_attr_opt, E0, mbind_attr, Et, Hcd.
      reflexivity.
    - injection Hcd as <-. rewrite mbind_mret.
      f_equal. destruct s0. cbn in E0 |- *. rewrite E0. reflexivity. }
  rewrite Hnorm by reflexivity. clear Hnorm.
  repeat mstep. rewrite X1. repeat mstep. rewrite Y1. repeat mstep.
  rewrite X2. repeat mstep. rewrite Y2. repeat mstep.
  cbv zeta. rewrite X3. repeat mstep. rewrite Y3. repeat mstep.
  rewrite X4. repeat mstep. rewrite Y4. repeat mstep.
  rewrite Zx. repeat mstep. rewrite Zy. repeat mstep.
  rewrite Wx, Wy.
  erewrite mbind_run; [| apply refine_x_value; assumption].
  erewrite mbind_run; [| apply refine_y_value; assumption].
  repeat mstep. reflexivity.
Qed.

End Run.

(* ================================================================== *)
(** * The reference state is left alone *)
(* ================================================================== *)

Section Frame.

Open Scope m_scope.

Lemma keeps_mret A (a : A) : keeps_reference (mret a).
Proof. intro self. reflexivity. Qed.

Lemma keeps_lift A (o : outcome A) : keeps_reference (lift o).
Proof. intro self. reflexivity. Qed.

Lemma keeps_attr A (f : Donuts -> A) : keeps_reference (attr f).
Proof. intro self. reflexivity. Qed.

Lemma keeps_attr_opt A name (f : Donuts -> option A) :
  keeps_reference (attr_opt name f).
Proof. intro self. reflexivity. Qed.

Lemma keeps_mbind A B (c : M A) (k : A -> M B) :
  keeps_reference c -> (forall a, keeps_reference (k a)) ->
  keeps_reference (mbind c k).
Proof.
  intros Hc Hk self. unfold mbind.
  specialize (Hc self). destruct (c self) as [self' [a | e |]]; simpl in *.
  - rewrite Hk. exact Hc.
  - exact Hc.
  - exact Hc.
Qed.

Lemma keeps_if A (b : bool) (c1 c2 : M A) :
  keeps_reference c1 -> keeps_reference c2 ->
  keeps_reference (if b then c1 else c2).
Proof. destruct b; auto. Qed.

Lemma keeps_assign_checkimage v : keeps_reference (assign (set_checkimage v)).
Proof. intro self. reflexivity. Qed.
Lemma keeps_assign_check_data v : keeps_reference (assign (set_check_data v)).
Proof. intro self. reflexivity. Qed.
Lemma keeps_assign_check_bkgmap v :
  keeps_reference (assign (set_check_bkgmap v)).
Proof. intro self. reflexivity. Qed.
Lemma keeps_assign_check_xproj v :
  keeps_reference (assign (set_check_xproj v)).
Proof. intro self. reflexivity. Qed.
Lemma keeps_assign_check_yproj v :
  keeps_reference (assign (set_check_yproj v)).
Proof. intro self. reflexivity. Qed.
Lemma keeps_assign_solution_n_x v :
  keeps_reference (assign (set_solution_n_x v)).
Proof. intro self. reflexivity. Qed.
Lemma keeps_assign_solution_n_y v :
  keeps_reference (assign (set_solution_n_y v)).
Proof. intro self. reflexivity. Qed.

Create HintDb frame.
#[local] Hint Resolve keeps_mret keeps_lift keeps_attr keeps_attr_opt
  keeps_assign_checkimage keeps_assign_check_data keeps_assign_check_bkgmap
  keeps_assign_check_xproj keeps_assign_check_yproj
  keeps_assign_solution_n_x keeps_assign_solution_n_y : frame.

Ltac keeps :=
  repeat first
    [ solve [auto with frame]
    | apply keeps_mbind; [| intro]
    | apply keeps_if
    | match goal with
      | |- keeps_reference (let '(_, _) := ?c in _) => destruct c
      end ].

Lemma keeps_refine_x Phi z_pos : keeps_reference (refine_x Phi z_pos).
Proof. unfold refine_x. keeps. Qed.

Lemma keeps_refine_y Phi z_pos : keeps_reference (refine_y Phi z_pos).
Proof. unfold refine_y. keeps. Qed.

Lemma keeps_measure_shift checkimage :
  keeps_reference (measure_shift checkimage).
Proof.
  pose proof keeps_refine_x. pose proof keeps_refine_y.
  unfold measure_shift. keeps.
Qed.

Lemma keeps_invoke_measure_shift c :
  keeps_reference (invoke_measure_shift c).
Proof. intro self. reflexivity. Qed.

End Frame.

(* ================================================================== *)
(** * Only the cropped region of the check image is looked at *)
(* ================================================================== *)

Open Scope m_scope.

Lemma blind_mret A (a : A) : blind_to_checkimage (mret a).
Proof. intros s1 s2 H. split; [reflexivity | exact H]. Qed.

Lemma blind_lift A (o : outcome A) : blind_to_checkimage (lift o).
Proof. intros s1 s2 H. split; [reflexivity | exact H]. Qed.

Lemma blind_attr A (f : Donuts -> A) :
  (forall s, f (set_checkimage [] s) = f s) -> blind_to_checkimage (attr f).
Proof.
  intros Hf s1 s2 H. split; [| exact H].
  cbn. f_equal. rewrite <- (Hf s1), <- (Hf s2). f_equal. exact H.
Qed.

Lemma blind_attr_opt A name (f : Donuts -> option A) :
  (forall s, f (set_checkimage [] s) = f s) ->
  blind_to_checkimage (attr_opt name f).
Proof.
  intros Hf s1 s2 H. split; [| exact H].
  cbn. rewrite <- (Hf s1), <- (Hf s2).
  unfold same_but_checkimage in H. rewrite H. reflexivity.
Qed.

Lemma blind_assign (set : Donuts -> Donuts) :
  (forall s, set_checkimage [] (set s) = set (set_checkimage [] s)) ->
  blind_to_checkimage (assign set).
Proof.
  intros Hs s1 s2 H. split; [reflexivity |].
  cbn. unfold same_but_checkimage in *. rewrite !Hs, H. reflexivity.
Qed.

Lemma blind_mbind A B (c : M A) (k : A -> M B) :
  blind_to_checkimage c -> (forall a, blind_to_checkimage (k a)) ->
  blind_to_checkimage (mbind c k).
Proof.
  intros Hc Hk s1 s2 H. unfold mbind.
  destruct (Hc s1 s2 H) as [Hr Hs].
  destruct (c s1) as [s1' r1], (c s2) as [s2' r2]. cbn in Hr, Hs. subst r2.
  destruct r1 as [a | e |].
  - apply Hk. exact Hs.
  - split; [reflexivity | exact Hs].
  - split; [reflexivity | exact Hs].
Qed.

Lemma blind_if A (b : bool) (c1 c2 : M A) :
  blind_to_checkimage c1 -> blind_to_checkimage c2 ->
  blind_to_checkimage (if b then c1 else c2).
Proof. destruct b; auto. Qed.

Ltac blind :=
  repeat first
    [ solve [auto]
    | apply blind_mret
    | apply blind_lift
    | apply blind_attr; intro; reflexivity
    | apply blind_attr_opt; intro; reflexivity
    | apply blind_assign; intro; reflexivity
    | apply blind_mbind; [| intro]
    | apply blind_if
    | match goal with
      | |- blind_to_checkimage (let '(_, _) := ?c in _) => destruct c
      end ].

Lemma blind_refine_x Phi z_pos : blind_to_checkimage (refine_x Phi z_pos).
Proof. unfold refine_x. blind. Qed.

Lemma blind_refine_y Phi z_pos : blind_to_checkimage (refine_y Phi z_pos).
Proof. unfold refine_y. blind. Qed.


(* ================================================================== *)
(** * Flat profiles *)
(* ================================================================== *)

Lemma cadd_comm (u v : complex) : cadd u v = cadd v u.
Proof. unfold cadd. f_equal; ring. Qed.

Lemma cadd_assoc (u v w : complex) : cadd u (cadd v w) = cadd (cadd u v) w.
Proof. unfold cadd. cbn [real imag]. f_equal; ring. Qed.

Lemma csum_perm (l l' : list complex) :
  Permutation l l' -> csum l = csum l'.
Proof.
  induction 1 as [| u l l' _ IH | u v l | l l' l'' _ IH1 _ IH2].
  - reflexivity.
  - cbn [csum fold_right]. fold (csum l). fold (csum l'). rewrite IH.
    reflexivity.
  - cbn [csum fold_right]. fold (csum l).
    rewrite !cadd_assoc, (cadd_comm v u). reflexivity.
  - congruence.
Qed.

(** Walking a circle of [L] indices backwards from [k] visits every index
    once. *)
Lemma circular_indices (k L : nat) :
  Permutation (seq 0 L) (map (fun n => ((k + L - n) mod L)%nat) (seq 0 L)).
Proof.
  apply NoDup_Permutation_bis.
  - apply seq_NoDup.
  - rewrite length_map. apply Nat.le_refl.
  - intros m Hm. apply in_seq in Hm. apply in_map_iff.
    exists ((k + L - m) mod L)%nat.
    assert (HL : L <> 0%nat) by lia.
    pose proof (Nat.mod_upper_bound (k + L - m) L HL) as Hn.
    split; [| apply in_seq; lia].
    pose proof (Nat.div_mod_eq (k + L - m) L) as Hq.
    set (q := ((k + L - m) / L)%nat) in *.
    set (n := ((k + L - m) mod L)%nat) in *.
    replace (k + L - n)%nat with (m + q * L)%nat by nia.
    rewrite Nat.Div0.mod_add. apply Nat.mod_small. lia.
Qed.

Lemma nth_map_seq A (f : nat -> A) (L n : nat) (d : A) :
  (n < L)%nat -> nth n (map f (seq 0 L)) d = f n.
Proof.
  intros H. rewrite nth_indep with (d' := f 0%nat)
    by (rewrite length_map, length_seq; exact H).
  rewrite map_nth. rewrite seq_nth by exact H. reflexivity.
Qed.

Lemma length_cconv (a b : list complex) :
  List.length (cconv a b) = List.length a.
Proof. unfold cconv. rewrite length_map, length_seq. reflexivity. Qed.

Lemma length_conjugate (F : spectrum) :
  List.length (samples (conjugate F)) = List.length (samples F).
Proof. unfold conjugate. cbn [samples]. rewrite length_map, length_seq.
  reflexivity. Qed.

(** The correlation of two projections of the same length. *)
Lemma correlation_same_length (r c : list Qc) :
  List.length c = List.length r -> r <> [] ->
  correlation r c
  = Ok (cconv (samples (conjugate (Spectrum (map ofreal r)))) (map ofreal c)).
Proof.
  intros Hlen Hne. unfold correlation, fft.
  destruct r as [| r0 r']; [congruence |].
  destruct c as [| c0' c']; [discriminate |].
  cbn [bind]. unfold spec_mul.
  rewrite length_conjugate. cbn [samples]. rewrite !length_map.
  rewrite Hlen, Nat.eqb_refl. cbn [bind]. unfold ifft. cbn [samples].
  destruct (cconv _ _) eqn:E; [| reflexivity].
  apply (f_equal (@List.length complex)) in E.
  rewrite length_cconv, length_conjugate in E. discriminate E.
Qed.

(** A flat check projection, or a flat reference projection, gives a flat
    correlation. *)
Lemma correlation_flat (r c : list Qc) :
  List.length c = List.length r -> r <> [] ->
  constant c \/ constant r ->
  exists e, imag e = 0
            /\ correlation r c = Ok (repeat e (List.length r)).
Proof.
  intros Hlen Hne Hflat.
  rewrite (@correlation_same_length r c Hlen Hne).
  set (x := samples (conjugate (Spectrum (map ofreal r)))).
  set (y := map ofreal c).
  set (L := List.length r).
  assert (Hx : List.length x = L)
    by (subst x; rewrite length_conjugate; cbn [samples];
        apply length_map).
  assert (Hy : List.length y = L) by (subst y; rewrite length_map; exact Hlen).
  assert (HL : L <> 0%nat) by (subst L; destruct r; [congruence | discriminate]).
  assert (Hreal : all_real (cconv x y)).
  { apply all_real_cconv.
    - subst x. apply all_real_conjugate. cbn [samples]. apply all_real_ofreal.
    - subst y. apply all_real_ofreal. }
  assert (Hconst : exists e, cconv x y = repeat e L).
  { unfold cconv. rewrite Hx. destruct Hflat as [[v Hv] | [v Hv]].
    - (* flat check projection *)
      exists (csum (map (fun n => cmul (nth n x c0) (ofreal v)) (seq 0 L))).
      rewrite <- (length_seq L 0) at 3. rewrite <- map_const.
      apply map_ext_in. intros k Hk. f_equal.
      apply map_ext_in. intros n Hn. f_equal.
      subst y. rewrite Hv, Hlen. fold L. rewrite map_repeat.
      apply nth_repeat_lt. apply Nat.mod_upper_bound. exact HL.
    - (* flat reference projection *)
      set (v' := cconj (ofreal v)).
      exists (csum (map (fun m => cmul v' (nth m y c0)) (seq 0 L))).
      rewrite <- (length_seq L 0) at 3. rewrite <- map_const.
      apply map_ext_in. intros k Hk.
      rewrite (csum_perm (Permutation_map (fun m => cmul v' (nth m y c0))
                            (circular_indices k L))).
      rewrite map_map. f_equal.
      apply map_ext_in. intros n Hn. apply in_seq in Hn. f_equal.
      subst x. unfold conjugate. cbn [samples]. rewrite length_map.
      fold L. rewrite nth_map_seq by lia. subst v'. f_equal.
      rewrite Hv. fold L. rewrite map_repeat.
      apply nth_repeat_lt. apply Nat.mod_upper_bound. exact HL. }
  destruct Hconst as [e He]. exists e. split.
  - rewrite He in Hreal. destruct L as [| L']; [congruence |].
    inversion Hreal. assumption.
  - rewrite He. reflexivity.
Qed.

Lemma Qc_ltb_irrefl (q : Qc) : Qc_ltb q q = false.
Proof.
  destruct (Qc_ltb q q) eqn:E; [| reflexivity].
  apply Qc_ltb_lt in E. exfalso. apply (Qclt_not_eq _ _ E). reflexivity.
Qed.

Lemma c_gtb_irrefl (e : complex) : c_gtb e e = false.
Proof. unfold c_gtb. rewrite !Qc_ltb_irrefl, andb_false_r. reflexivity. Qed.

Lemma c_eqb_refl (e : complex) : c_eqb e e = true.
Proof. unfold c_eqb. rewrite !Qc_eq_bool_refl. reflexivity. Qed.

(** The peak of a flat correlation is index 0. *)
Lemma peak_index_flat (e : complex) (L : nat) :
  (1 <= L)%nat -> peak_index (repeat e L) = Ok 0%Z.
Proof.
  intros HL. destruct L as [| L]; [lia |].
  unfold peak_index. cbn [repeat py_max bind].
  assert (Hfold : forall n,
             fold_left (fun m v => if c_gtb v m then v else m) (repeat e n) e
             = e).
  { induction n as [| n IH]; [reflexivity |].
    cbn [repeat fold_left]. rewrite c_gtb_irrefl. exact IH. }
  rewrite Hfold. unfold where_eq. cbn [where_from].
  rewrite c_eqb_refl. apply getitem_head.
Qed.

Lemma sample_flat (e : complex) (L : nat) (i : Z) :
  (1 <= L)%nat -> sample (repeat e L) i = real e.
Proof.
  intros HL. unfold sample. rewrite repeat_length. f_equal.
  apply nth_repeat_lt.
  pose proof (Z.mod_pos_bound i (Z.of_nat L)). lia.
Qed.

(** Three equal samples have no vertex: [a = b = 0], and [0 / 0] is nan. *)
Lemma vertex_flat (x0 x1 x2 : Z) (w : Qc) :
  x0 <> x1 -> x1 <> x2 -> x0 <> x2 ->
  vertex (x0, x1, x2) (w, w, w) = NaN.
Proof.
  intros H01 H12 H02. unfold vertex, polyfit2.
  apply Z.eqb_neq in H01, H12, H02. rewrite H01, H12, H02.
  cbn [orb].
  set (d01 := (w - w) / (ofZ x1 - ofZ x0)).
  set (d12 := (w - w) / (ofZ x2 - ofZ x1)).
  assert (E01 : d01 = 0) by (subst d01; unfold Qcdiv; ring).
  assert (E12 : d12 = 0) by (subst d12; unfold Qcdiv; ring).
  set (a := (d12 - d01) / (ofZ x2 - ofZ x0)).
  assert (Ea : a = 0) by (subst a; rewrite E01, E12; unfold Qcdiv; ring).
  set (b := d01 - a * (ofZ x0 + ofZ x1)).
  assert (Eb : b = 0) by (subst b; rewrite E01, Ea; ring).
  rewrite Ea, Eb. unfold fdiv.
  replace (two * 0) with 0 by ring. replace (- 0) with 0 by ring.
  rewrite Qc_eq_bool_refl. reflexivity.
Qed.

Lemma refine_amended_flat (e : complex) (L : nat) :
  (3 <= L)%nat ->
  refine_x_amended (repeat e L) 0 = NaN
  /\ refine_y_amended (repeat e L) 0 = NaN.
Proof.
  intros HL. unfold refine_x_amended, refine_y_amended.
  rewrite repeat_length, !sample_flat by lia.
  replace (2 * 0 <=? Z.of_nat L)%Z with true by (symmetry; apply Z.leb_le; lia).
  replace (0 =? Z.of_nat L - 1)%Z with false by (symmetry; apply Z.eqb_neq; lia).
  rewrite !vertex_flat by lia. split; reflexivity.
Qed.

(* ================================================================== *)
(** * The background map *)
(* ================================================================== *)

Lemma this_Qcdiv (p q : Qc) : (this (p / q) == this p / this q)%Q.
Proof.
  unfold Qcdiv, Qcmult, Qcinv, Q2Qc. cbn [this].
  rewrite !Qred_correct. reflexivity.
Qed.

(** The integer part of a non-negative fraction. *)
Lemma slice_bound_frac (a b : Z) :
  (0 <= a)%Z -> (0 < b)%Z -> slice_bound (ofZ a / ofZ b) = (a / b)%Z.
Proof.
  intros Ha Hb. unfold slice_bound.
  set (q := ofZ a / ofZ b).
  assert (Hq : (this q == a # Z.to_pos b)%Q).
  { subst q. rewrite this_Qcdiv, !this_ofZ.
    rewrite (Qmake_Qdiv a (Z.to_pos b)). rewrite Z2Pos.id by exact Hb.
    reflexivity. }
  clearbody q. destruct (this q) as [n d]. cbn [Qnum Qden].
  assert (Hnn : (0 <= n)%Z).
  { assert (H0 : (0 <= n # d)%Q).
    { rewrite Hq. unfold Qle. cbn [Qnum Qden]. lia. }
    unfold Qle in H0. cbn [Qnum Qden] in H0. lia. }
  rewrite Z.quot_div_nonneg by lia.
  change (Qfloor (n # d) = (a / b)%Z).
  rewrite (Qfloor_comp _ _ Hq). unfold Qfloor. rewrite Z2Pos.id by exact Hb.
  reflexivity.
Qed.

Lemma slice_bound_tile (i n N : Z) :
  (0 <= i)%Z -> (0 <= n)%Z -> (0 < N)%Z ->
  slice_bound (ofZ i * (ofZ n / ofZ N)) = (i * n / N)%Z.
Proof.
  intros Hi Hn HN.
  replace (ofZ i * (ofZ n / ofZ N)) with (ofZ (i * n) / ofZ N).
  - apply slice_bound_frac; lia.
  - rewrite ofZ_mul. field. intro E. rewrite <- ofZ_0 in E.
    apply ofZ_inj in E. lia.
Qed.

Lemma py_round_ofZ (z : Z) : py_round (ofZ z) = z.
Proof.
  unfold py_round.
  assert (Hf : Qfloor (ofZ z) = z).
  { rewrite (Qfloor_comp _ _ (this_ofZ z)). apply Qfloor_Z. }
  rewrite Hf. replace (ofZ z - ofZ z) with 0 by ring.
  reflexivity.
Qed.

Lemma clamp_in (n i : Z) : (0 <= i <= n)%Z -> clamp n i = i.
Proof. intros H. unfold clamp. destruct (Z.ltb_spec i 0); lia. Qed.

Lemma length_slice A (l : list A) (a b : Z) :
  (0 <= a <= b)%Z -> (b <= Z.of_nat (List.length l))%Z ->
  List.length (slice l a b) = Z.to_nat (b - a).
Proof.
  intros Ha Hb. unfold slice. rewrite !clamp_in by lia.
  rewrite length_firstn, length_skipn. lia.
Qed.

Lemma slice_incl A (l : list A) (a b : Z) : incl (slice l a b) l.
Proof.
  unfold slice. intros v Hv.
  set (n := Z.to_nat (clamp (Z.of_nat (List.length l)) a)) in *.
  rewrite <- (firstn_skipn n l). apply in_or_app. right.
  set (m := Z.to_nat _) in Hv.
  rewrite <- (firstn_skipn m (skipn n l)). apply in_or_app. left. exact Hv.
Qed.

Lemma length_insert_sorted (v : Qc) (l : list Qc) :
  List.length (insert_sorted v l) = S (List.length l).
Proof.
  induction l as [| h t IH]; [reflexivity |].
  cbn [insert_sorted]. destruct (Qc_leb v h); cbn [List.length]; congruence.
Qed.

Lemma length_sort (l : list Qc) : List.length (sort l) = List.length l.
Proof.
  induction l as [| h t IH]; [reflexivity |].
  cbn [sort fold_right]. fold (sort t).
  rewrite length_insert_sorted, IH. reflexivity.
Qed.

(** The median of an array that has a pixel is a number. *)
Lemma median_ok (a : ndarray2) :
  List.concat (rows a) <> [] -> exists m, median a = Ok m.
Proof.
  intros H. unfold median. rewrite length_sort.
  destruct (List.concat (rows a)) as [| v l]; [congruence |].
  cbn [List.length Nat.eqb].
  destruct (Nat.odd (S (List.length l))); eauto.
Qed.

Lemma traverse_ok A B (f : A -> outcome B) (l : list A) :
  (forall a, In a l -> exists b, f a = Ok b) ->
  exists bs, traverse f l = Ok bs /\ List.length bs = List.length l.
Proof.
  induction l as [| a l IH]; intros H.
  - exists []. split; reflexivity.
  - destruct (H a (or_introl eq_refl)) as [b Hb].
    destruct IH as (bs & Hbs & Hlen); [intros; apply H; right; assumption |].
    exists (b :: bs). cbn [traverse]. rewrite Hb. cbn [bind].
    rewrite Hbs. cbn [bind]. split; [reflexivity | cbn; congruence].
Qed.

(** A tile of the grid of lines 72-74 has at least one pixel when the tile
    count is at most each side of the array. *)
Lemma tile_not_empty (data : ndarray2) (N i j : Z) :
  rect data ->
  (1 <= N)%Z ->
  (N <= Z.of_nat (nrows data))%Z -> (N <= Z.of_nat (ncols data))%Z ->
  (0 <= i < N)%Z -> (0 <= j < N)%Z ->
  let h := Z.of_nat (nrows data) in
  let w := Z.of_nat (ncols data) in
  List.concat
    (rows (slice2 data
             (slice_bound (ofZ i * (ofZ h / ofZ N)))
             (slice_bound (ofZ (i + 1) * (ofZ h / ofZ N)))
             (slice_bound (ofZ j * (ofZ w / ofZ N)))
             (slice_bound (ofZ (j + 1) * (ofZ w / ofZ N)))))
  <> [].
Proof.
  intros Hrect HN Hh Hw Hi Hj h w.
  rewrite !slice_bound_tile by lia.
  assert (Step : forall k n, (0 <= k < N)%Z -> (N <= n)%Z ->
            (0 <= k * n / N)%Z /\ (k * n / N + 1 <= (k + 1) * n / N)%Z
            /\ ((k + 1) * n / N <= n)%Z).
  { intros k n Hk Hn. split; [apply Z.div_pos; nia |]. split.
    - replace (k * n / N + 1)%Z with ((k * n + 1 * N) / N)%Z
        by (rewrite Z.div_add by lia; reflexivity).
      apply Z.div_le_mono; nia.
    - apply Z.div_le_upper_bound; nia. }
  destruct (Step i h Hi Hh) as (R0 & R1 & R2).
  destruct (Step j w Hj Hw) as (C0 & C1 & C2).
  unfold slice2. cbn [rows].
  set (r0 := (i * h / N)%Z) in *. set (r1 := ((i + 1) * h / N)%Z) in *.
  set (c0' := (j * w / N)%Z) in *. set (c1 := ((j + 1) * w / N)%Z) in *.
  assert (Hrows : List.length (slice (rows data) r0 r1) = Z.to_nat (r1 - r0))
    by (apply length_slice; fold (nrows data); lia).
  destruct (slice (rows data) r0 r1) as [| row rest] eqn:E;
    [cbn in Hrows; lia |].
  assert (Hin : In row (rows data))
    by (apply (@slice_incl _ (rows data) r0 r1); rewrite E; left; reflexivity).
  assert (Hlen : List.length row = ncols data)
    by (apply (proj1 (Forall_forall _ _) Hrect); exact Hin).
  assert (Hcols : List.length (slice row c0' c1) = Z.to_nat (c1 - c0'))
    by (apply length_slice; rewrite ?Hlen; lia).
  cbn [map List.concat].
  destruct (slice row c0' c1); [cbn in Hcols; lia | discriminate].
Qed.

(* ================================================================== *)
(** * The identical image *)
(* ================================================================== *)

Lemma vsum_perm (l l' : list Qc) : Permutation l l' -> vsum l = vsum l'.
Proof.
  induction 1 as [| u l l' _ IH | u v l | l l' l'' _ IH1 _ IH2].
  - reflexivity.
  - cbn [vsum fold_right]. fold (vsum l). fold (vsum l'). rewrite IH.
    reflexivity.
  - cbn [vsum fold_right]. fold (vsum l). ring.
  - congruence.
Qed.

Lemma real_csum (l : list complex) : real (csum l) = vsum (map real l).
Proof.
  induction l as [| u l IH]; [reflexivity |].
  cbn [csum fold_right map vsum cadd real]. fold (csum l).
  fold (vsum (map real l)). rewrite IH. reflexivity.
Qed.

(** Shifting a circle of [L] indices by [k] visits every index once. *)
Lemma shifted_indices (k L : nat) :
  Permutation (seq 0 L) (map (fun m => ((k + m) mod L)%nat) (seq 0 L)).
Proof.
  eapply Permutation_trans; [apply (circular_indices k L) |].
  eapply Permutation_trans;
    [apply Permutation_map; apply (circular_indices 0 L) |].
  rewrite map_map. apply Permutation_refl'.
  apply map_ext_in. intros m Hm. apply in_seq in Hm.
  assert (HL : L <> 0%nat) by lia.
  cbn [Nat.add].
  destruct (Nat.eq_dec m 0) as [-> | Hm0].
  - rewrite Nat.sub_0_r, Nat.Div0.mod_same, Nat.sub_0_r, Nat.add_0_r.
    rewrite <- (Nat.mul_1_l L) at 1. apply Nat.Div0.mod_add.
  - rewrite (Nat.mod_small (L - m) L) by lia.
    replace (k + L - (L - m))%nat with (k + m)%nat by lia. reflexivity.
Qed.

Lemma nth_ofreal (r : list Qc) (n : nat) :
  nth n (map ofreal r) c0 = ofreal (nth n r 0).
Proof. exact (map_nth ofreal r 0 n). Qed.

(** In exact arithmetic the correlation of [r] with itself is its circular
    autocorrelation. *)
Lemma correlation_self (r : list Qc) :
  r <> [] ->
  exists Phi,
    correlation r r = Ok Phi
    /\ List.length Phi = List.length r
    /\ all_real Phi
    /\ forall k, (k < List.length r)%nat ->
                 sample Phi (Z.of_nat k) = autocorr r k.
Proof.
  intros Hne. rewrite (@correlation_same_length r r eq_refl Hne).
  set (x := samples (conjugate (Spectrum (map ofreal r)))).
  set (y := map ofreal r). set (L := List.length r).
  assert (Hx : List.length x = L)
    by (subst x; rewrite length_conjugate; cbn [samples]; apply length_map).
  assert (HL : L <> 0%nat) by (subst L; destruct r; [congruence | discriminate]).
  eexists. split; [reflexivity |]. split; [rewrite length_cconv; exact Hx |].
  split.
  { apply all_real_cconv.
    - subst x. apply all_real_conjugate. cbn [samples]. apply all_real_ofreal.
    - subst y. apply all_real_ofreal. }
  intros k Hk. rewrite sample_in_range by (rewrite length_cconv, Hx; lia).
  rewrite Nat2Z.id. unfold cconv. rewrite Hx.
  rewrite nth_map_seq by exact Hk. rewrite real_csum, map_map.
  unfold autocorr. fold L.
  rewrite (vsum_perm (Permutation_map
             (fun m => nth m r 0 * nth ((k + m) mod L) r 0)
             (circular_indices 0 L))).
  rewrite map_map. f_equal. apply map_ext_in. intros n Hn.
  apply in_seq in Hn. cbn [Nat.add].
  subst x y. unfold conjugate. cbn [samples]. rewrite length_map. fold L.
  rewrite nth_map_seq by lia. rewrite !nth_ofreal.
  cbn [cmul cconj ofreal real imag].
  rewrite Nat.Div0.add_mod_idemp_r.
  replace (k + (L - n))%nat with (k + L - n)%nat by lia.
  ring.
Qed.

Lemma Qc_square_nonneg (q : Qc) : 0 <= q * q.
Proof.
  assert (E : (this (q * q) == this q * this q)%Q)
    by (unfold Qcmult, Q2Qc; cbn [this]; apply Qred_correct).
  unfold Qcle. rewrite E. change (0 <= this q * this q)%Q.
  destruct (this q) as [n d]. unfold Qle, Qmult. cbn [Qnum Qden]. nia.
Qed.

Lemma vsum_nonneg (l : list Qc) :
  Forall (fun v => 0 <= v) l -> 0 <= vsum l.
Proof.
  induction 1 as [| v l Hv _ IH]; [apply Qcle_refl |].
  cbn [vsum fold_right]. fold (vsum l).
  replace 0 with (0 + 0) by ring. apply Qcplus_le_compat; assumption.
Qed.

Lemma vsum_zero (l : list Qc) :
  Forall (fun v => 0 <= v) l -> vsum l = 0 -> Forall (fun v => v = 0) l.
Proof.
  induction 1 as [| v l Hv Hl IH]; intros Hsum; [constructor |].
  cbn [vsum fold_right] in Hsum. fold (vsum l) in Hsum.
  pose proof (vsum_nonneg Hl) as Hs.
  assert (Hv0 : v = 0).
  { apply Qcle_antisym; [| exact Hv].
    replace v with (0 - vsum l) by (rewrite <- Hsum; ring).
    replace 0 with (0 - 0) at 2 by ring.
    unfold Qcminus. apply Qcplus_le_compat; [apply Qcle_refl |].
    apply Qcopp_le_compat. exact Hs. }
  constructor; [exact Hv0 |].
  apply IH. rewrite Hv0 in Hsum. rewrite <- Hsum. ring.
Qed.

Lemma vsum_map_add (A : Type) (f g : A -> Qc) (l : list A) :
  vsum (map (fun a => f a + g a) l) = vsum (map f l) + vsum (map g l).
Proof.
  induction l as [| a l IH]; [cbn; ring |].
  cbn [map vsum fold_right]. fold (vsum (map f l)). fold (vsum (map g l)).
  fold (vsum (map (fun a => f a + g a) l)). rewrite IH. ring.
Qed.

Lemma vsum_map_scale (A : Type) (c : Qc) (f : A -> Qc) (l : list A) :
  vsum (map (fun a => c * f a) l) = c * vsum (map f l).
Proof.
  induction l as [| a l IH]; [cbn; ring |].
  cbn [map vsum fold_right]. fold (vsum (map f l)).
  fold (vsum (map (fun a => c * f a) l)). rewrite IH. ring.
Qed.

(** The sum of the squared differences between [r] and [r] shifted by [k]
    is twice the gap between the autocorrelation at lag 0 and at lag [k]. *)
Lemma autocorr_gap (r : list Qc) (k : nat) :
  let L := List.length r in
  vsum (map (fun m => (nth m r 0 - nth ((k + m) mod L) r 0)
                      * (nth m r 0 - nth ((k + m) mod L) r 0)) (seq 0 L))
  = two * (autocorr r 0 - autocorr r k).
Proof.
  intros L. unfold autocorr. fold L.
  set (R := fun m => nth m r 0).
  set (s := fun m => ((k + m) mod L)%nat).
  assert (E0 : vsum (map (fun m => R m * R ((0 + m) mod L)%nat) (seq 0 L))
               = vsum (map (fun m => R m * R m) (seq 0 L))).
  { f_equal. apply map_ext_in. intros m Hm. apply in_seq in Hm.
    cbn [Nat.add]. rewrite Nat.mod_small by lia. reflexivity. }
  assert (Es : vsum (map (fun m => R (s m) * R (s m)) (seq 0 L))
               = vsum (map (fun m => R m * R m) (seq 0 L))).
  { rewrite (vsum_perm (Permutation_map (fun m => R m * R m)
                          (shifted_indices k L))).
    rewrite map_map. reflexivity. }
  change (vsum (map (fun m => (R m - R (s m)) * (R m - R (s m))) (seq 0 L))
          = two * (vsum (map (fun m => R m * R ((0 + m) mod L)%nat) (seq 0 L))
                   - vsum (map (fun m => R m * R (s m)) (seq 0 L)))).
  rewrite E0.
  transitivity (vsum (map (fun m => (R m * R m + R (s m) * R (s m))
                                    + (- two) * (R m * R (s m))) (seq 0 L))).
  { f_equal. apply map_ext. intros m. rewrite two_is. ring. }
  rewrite vsum_map_add, vsum_map_add, vsum_map_scale, Es.
  rewrite two_is. ring.
Qed.

(** The autocorrelation is largest at lag 0. *)
Lemma autocorr_max (r : list Qc) (k : nat) : autocorr r k <= autocorr r 0.
Proof.
  pose proof (autocorr_gap r k) as G. cbv zeta in G.
  assert (H : 0 <= two * (autocorr r 0 - autocorr r k)).
  { rewrite <- G. apply vsum_nonneg. apply Forall_forall.
    intros v Hv. apply in_map_iff in Hv. destruct Hv as (m & <- & _).
    apply Qc_square_nonneg. }
  apply Qcmult_lt_0_le_reg_r with (z := two); [apply two_pos |].
  apply Qcle_minus_iff.
  replace (autocorr r 0 * two + - (autocorr r k * two))
    with (two * (autocorr r 0 - autocorr r k)) by ring.
  exact H.
Qed.

(** It is the same one step before and one step after lag 0. *)
Lemma autocorr_sym (r : list Qc) :
  (2 <= List.length r)%nat ->
  autocorr r (List.length r - 1) = autocorr r 1.
Proof.
  intros HL. unfold autocorr. set (L := List.length r) in *.
  rewrite (vsum_perm (Permutation_map
             (fun m => nth m r 0 * nth ((1 + m) mod L) r 0)
             (shifted_indices (L - 1) L))).
  rewrite map_map. f_equal. apply map_ext_in. intros m Hm.
  apply in_seq in Hm.
  rewrite Nat.Div0.add_mod_idemp_r.
  replace (1 + (L - 1 + m))%nat with (m + 1 * L)%nat by lia.
  rewrite Nat.Div0.mod_add, (Nat.mod_small m L) by lia. ring.
Qed.

(** When lag 1 reaches the value of lag 0 the projection is flat. *)
Lemma autocorr_flat (r : list Qc) :
  autocorr r 1 = autocorr r 0 -> constant r.
Proof.
  intros E. pose proof (autocorr_gap r 1) as G. cbv zeta in G.
  rewrite E in G. replace (two * (autocorr r 0 - autocorr r 0)) with 0 in G
    by ring.
  set (L := List.length r) in *.
  apply vsum_zero in G.
  - assert (Hstep : forall m, (m < L)%nat ->
                               nth m r 0 = nth ((1 + m) mod L) r 0).
    { intros m Hm.
      pose proof (proj1 (Forall_forall _ _) G) as G'.
      specialize (G' ((nth m r 0 - nth ((1 + m) mod L) r 0)
                      * (nth m r 0 - nth ((1 + m) mod L) r 0))).
      assert (Hz : (nth m r 0 - nth ((1 + m) mod L) r 0)
                   * (nth m r 0 - nth ((1 + m) mod L) r 0) = 0).
      { apply G'. apply in_map_iff. exists m. split; [reflexivity |].
        apply in_seq. lia. }
      apply Qcmult_integral in Hz.
      assert (Hd : nth m r 0 - nth ((1 + m) mod L) r 0 = 0) by tauto.
      transitivity ((nth m r 0 - nth ((1 + m) mod L) r 0)
                    + nth ((1 + m) mod L) r 0); [ring |].
      rewrite Hd. ring. }
    assert (Hall : forall m, (m < L)%nat -> nth m r 0 = nth 0 r 0).
    { induction m as [| m IH]; intros Hm; [reflexivity |].
      rewrite <- IH by lia. rewrite (Hstep m) by lia.
      rewrite Nat.mod_small by lia. reflexivity. }
    exists (nth 0 r 0). fold L.
    apply nth_ext with (d := 0) (d' := 0).
    + rewrite repeat_length. reflexivity.
    + intros n Hn. fold L in Hn. rewrite nth_repeat_lt by exact Hn.
      apply Hall. exact Hn.
  - apply Forall_forall. intros v Hv. apply in_map_iff in Hv.
    destruct Hv as (m & <- & _). apply Qc_square_nonneg.
Qed.

Lemma ofZ_m1 : ofZ (-1) = Qcopp 1.
Proof. apply Qc_is_canon. reflexivity. Qed.

(** The parabola through three samples that are equal on both sides of the
    middle one has its vertex in the middle. *)
Lemma polyfit2_symmetric (s0 s1 : Qc) :
  polyfit2 (-1, 0, 1)%Z (s1, s0, s1) = Ok (s1 - s0, 0, s0)
  /\ polyfit2 (1, 0, -1)%Z (s1, s0, s1) = Ok (s1 - s0, 0, s0).
Proof.
  unfold polyfit2. cbn [Z.eqb orb].
  rewrite ofZ_0, ofZ_1, ofZ_m1.
  assert (H1 : (1 : Qc) <> 0) by discriminate.
  assert (H2 : 1 - Qcopp 1 <> 0) by discriminate.
  assert (H3 : 0 - Qcopp 1 <> 0) by discriminate.
  assert (H4 : Qcopp 1 - 1 <> 0) by discriminate.
  assert (H5 : Qcopp 1 - 0 <> 0) by discriminate.
  assert (H6 : 0 - (1 : Qc) <> 0) by discriminate.
  assert (H7 : 1 - (0 : Qc) <> 0) by discriminate.
  split; f_equal; repeat (apply f_equal2); field; auto.
Qed.

Lemma vertex_symmetric (s0 s1 : Qc) :
  s1 <> s0 ->
  vertex (-1, 0, 1)%Z (s1, s0, s1) = Real 0
  /\ vertex (1, 0, -1)%Z (s1, s0, s1) = Real 0.
Proof.
  intros Hne. destruct (polyfit2_symmetric s0 s1) as [E1 E2].
  unfold vertex. rewrite E1, E2.
  assert (Ha : two * (s1 - s0) <> 0).
  { intro E. apply Qcmult_integral in E. destruct E as [E | E].
    - exact (two_neq_0 E).
    - apply Hne. transitivity ((s1 - s0) + s0); [ring | rewrite E; ring]. }
  unfold fdiv. rewrite (Qc_eq_bool_neq Ha).
  assert (Ez : - 0 / (two * (s1 - s0)) = 0) by (unfold Qcdiv; ring).
  rewrite Ez. split; reflexivity.
Qed.

Lemma sample_minus_one (Phi : list complex) :
  Phi <> [] ->
  sample Phi (-1) = sample Phi (Z.of_nat (List.length Phi) - 1).
Proof.
  intros Hne. unfold sample. f_equal. f_equal. f_equal.
  assert (0 < Z.of_nat (List.length Phi))%Z
    by (destruct Phi; [congruence | cbn [List.length]; lia]).
  replace (Z.of_nat (List.length Phi) - 1)%Z
    with (-1 + 1 * Z.of_nat (List.length Phi))%Z by lia.
  symmetry. apply Z.mod_add. lia.
Qed.

(** One axis of the identical image: the peak is at index 0 and both
    refiners give zero, unless the projection is flat. *)
Lemma identical_projection (r : list Qc) :
  (3 <= List.length r)%nat -> ~ constant r ->
  exists Phi,
    correlation r r = Ok Phi
    /\ List.length Phi = List.length r
    /\ peak_index Phi = Ok 0%Z
    /\ refine_x_amended Phi 0 = Real 0
    /\ refine_y_amended Phi 0 = Real 0.
Proof.
  intros HL Hflat.
  assert (Hne : r <> []) by (destruct r; [cbn in HL; lia | discriminate]).
  destruct (correlation_self Hne) as (Phi & HPhi & Hlen & Hreal & Hauto).
  exists Phi. split; [exact HPhi |]. split; [exact Hlen |].
  assert (HPne : Phi <> [])
    by (destruct Phi; [cbn in Hlen; lia | discriminate]).
  assert (S0 : sample Phi 0 = autocorr r 0) by (apply (Hauto 0%nat); lia).
  assert (S1 : sample Phi 1 = autocorr r 1) by (apply (Hauto 1%nat); lia).
  assert (Sl : sample Phi (Z.of_nat (List.length Phi) - 1) = autocorr r 1).
  { rewrite Hlen, <- autocorr_sym by lia.
    replace (Z.of_nat (List.length r) - 1)%Z
      with (Z.of_nat (List.length r - 1)) by lia.
    apply Hauto. lia. }
  assert (Hgap : autocorr r 1 <> autocorr r 0)
    by (intro E; apply Hflat; apply autocorr_flat; exact E).
  split.
  - (* the peak *)
    destruct (peak_index_real Hreal HPne) as (p & Hp & Hrange & _ & Hfirst).
    destruct (Z.eq_dec p 0) as [-> | Hp0]; [exact Hp |].
    exfalso. specialize (Hfirst 0%Z ltac:(lia)).
    rewrite S0 in Hfirst.
    replace p with (Z.of_nat (Z.to_nat p)) in Hfirst by lia.
    rewrite Hauto in Hfirst by lia.
    apply (Qclt_not_le _ _ Hfirst). apply autocorr_max.
  - destruct (vertex_symmetric Hgap) as [V1 V2].
    unfold refine_x_amended, refine_y_amended.
    replace (2 * 0 <=? Z.of_nat (List.length Phi))%Z with true
      by (symmetry; apply Z.leb_le; lia).
    replace (0 =? Z.of_nat (List.length Phi) - 1)%Z with false
      by (symmetry; apply Z.eqb_neq; lia).
    change (0 - 1)%Z with (-1)%Z. change (0 + 1)%Z with 1%Z.
    rewrite (sample_minus_one HPne), Sl, S0, S1, V1, V2.
    split; [| reflexivity].
    cbn [fneg]. apply f_equal. ring.
Qed.

(** The identical image on the path that runs: with background subtraction
    off, a check image whose projections are those of the reference and are
    not flat is measured at exactly (0, 0). *)
Lemma identical_image_zero_shift (c : fits) (self : Donuts) (u : hdu)
    (cd : ndarray2) :
  subtract_bkg self = false ->
  getitem c (image_ext self) = Ok u ->
  processed self u = Ok cd ->
  sum_axis0 cd = ref_xproj self ->
  sum_axis1 cd = ref_yproj self ->
  (3 <= List.length (ref_xproj self))%nat ->
  (3 <= List.length (ref_yproj self))%nat ->
  ~ constant (ref_xproj self) -> ~ constant (ref_yproj self) ->
  snd (measure_shift c self) = Ok (Real 0, Real 0).
Proof.
  intros Hsb Hu Hcd Hx Hy H3x H3y Hfx Hfy.
  destruct (identical_projection H3x Hfx) as (Phix & Cx & Lx & Px & Vx & _).
  destruct (identical_projection H3y Hfy) as (Phiy & Cy & Ly & Py & _ & Vy).
  rewrite (@measure_shift_run c self u cd Phix Phiy 0 0); try assumption.
  - cbn [snd]. rewrite Vx, Vy. reflexivity.
  - rewrite Hx. exact Cx.
  - rewrite Hy. exact Cy.
  - lia.
  - lia.
  - lia.
  - lia.
Qed.

(** The 3 by 3 image [img3] against itself, without background
    subtraction. *)
Example img3_against_itself :
  snd (measure_shift (image_of img3 3) (instance_of img3 3 false false))
  = Ok (Real 0, Real 0).
Proof.
  apply (@identical_image_zero_shift
           (image_of img3 3) (instance_of img3 3 false false)
           (Hdu [("EXPTIME"%string, 1)] (px img3 3)) (px img3 3));
    try reflexivity.
  - intros [v Hv].
    pose proof (f_equal (fun l => nth 0 l 0) Hv) as E0.
    pose proof (f_equal (fun l => nth 1 l 0) Hv) as E1.
    vm_compute in E0, E1. rewrite <- E0 in E1. discriminate E1.
  - intros [v Hv].
    pose proof (f_equal (fun l => nth 0 l 0) Hv) as E0.
    pose proof (f_equal (fun l => nth 1 l 0) Hv) as E1.
    vm_compute in E0, E1. rewrite <- E0 in E1. discriminate E1.
Qed.

(* ================================================================== *)
(** * The exceptions a call can end with *)
(* ================================================================== *)

Lemma getitem_raises A (l : list A) (i : Z) :
  raises_only_o python_error (getitem l i).
Proof.
  intros e. unfold getitem.
  destruct ((0 <=? _)%Z && _)%bool;
    [destruct (nth_error l _) |]; intros E; try discriminate;
    injection E as <-; exact I.
Qed.

Lemma fft_raises (r : list Qc) : raises_only_o python_error (fft r).
Proof.
  intros e. unfold fft. destruct r; intros E; try discriminate.
  injection E as <-. exact I.
Qed.

Lemma ifft_raises (F : spectrum) : raises_only_o python_error (ifft F).
Proof.
  intros e. unfold ifft. destruct (samples F); intros E; try discriminate.
  injection E as <-. exact I.
Qed.

Lemma spec_mul_raises (F G : spectrum) :
  raises_only_o python_error (spec_mul F G).
Proof.
  intros e. unfold spec_mul.
  destruct (List.length (samples F) =? List.length (samples G))%nat;
    [discriminate |].
  destruct (samples F) as [| u [| u' t]]; destruct (samples G) as [| v [| v' t']];
    intros E; try discriminate; injection E as <-; exact I.
Qed.

Lemma py_max_raises (l : list complex) :
  raises_only_o python_error (py_max l).
Proof.
  intros e. unfold py_max. destruct l; intros E; try discriminate.
  injection E as <-. exact I.
Qed.

Lemma polyfit2_raises xs ys : raises_only_o python_error (polyfit2 xs ys).
Proof.
  intros e. destruct xs as [[x0 x1] x2], ys as [[y0 y1] y2]. unfold polyfit2.
  destruct ((x0 =? x1)%Z || (x1 =? x2)%Z || (x0 =? x2)%Z); discriminate.
Qed.

Lemma div2_raises a t : raises_only_o python_error (div2 a t).
Proof. intros e. unfold div2. destruct (Qc_eq_bool t 0); discriminate. Qed.

Lemma raises_mret P A (a : A) : raises_only P (mret a).
Proof. intros s e E. discriminate E. Qed.

Lemma raises_attr P A (f : Donuts -> A) : raises_only P (attr f).
Proof. intros s e E. discriminate E. Qed.

Lemma raises_assign P (set : Donuts -> Donuts) : raises_only P (assign set).
Proof. intros s e E. discriminate E. Qed.

Lemma raises_attr_opt A name (f : Donuts -> option A) :
  raises_only python_error (attr_opt name f).
Proof.
  intros s e. unfold attr_opt. cbn [snd].
  destruct (f s); intros E; [discriminate |]. injection E as <-. exact I.
Qed.

Lemma raises_lift P A (o : outcome A) :
  raises_only_o P o -> raises_only P (lift o).
Proof. intros H s e E. apply H. exact E. Qed.

Lemma raises_mbind P A B (c : M A) (k : A -> M B) :
  raises_only P c -> (forall a, raises_only P (k a)) ->
  raises_only P (mbind c k).
Proof.
  intros Hc Hk s e. unfold mbind. specialize (Hc s).
  destruct (c s) as [s' [a | e' |]]; cbn [snd] in *.
  - apply Hk.
  - intros E. injection E as <-. apply Hc. reflexivity.
  - discriminate.
Qed.

(** After a bare name that nothing binds, what follows is not run. *)
Lemma raises_mbind_unbound A B (name : string) (k : A -> M B) :
  raises_only python_error (mbind (lift (load_global name)) k).
Proof. intros s e E. cbn in E. injection E as <-. exact I. Qed.

Lemma raises_if P A (b : bool) (c1 c2 : M A) :
  raises_only P c1 -> raises_only P c2 ->
  raises_only P (if b then c1 else c2).
Proof. destruct b; auto. Qed.

Ltac raises :=
  repeat first
    [ solve [auto]
    | apply raises_mret
    | apply raises_attr
    | apply raises_assign
    | apply raises_attr_opt
    | apply raises_mbind_unbound
    | apply raises_lift;
        first [ apply getitem_raises | apply fft_raises | apply ifft_raises
              | apply spec_mul_raises | apply py_max_raises
              | apply polyfit2_raises | apply div2_raises ]
    | apply raises_mbind; [| intro]
    | apply raises_if
    | match goal with
      | |- raises_only _ (let '(_, _) := ?c in _) => destruct c
      end ].

Lemma raises_refine_x Phi z_pos :
  raises_only python_error (refine_x Phi z_pos).
Proof. unfold refine_x. raises. Qed.

Lemma raises_refine_y Phi z_pos :
  raises_only python_error (refine_y Phi z_pos).
Proof. unfold refine_y. raises. Qed.

(** Whatever the instance and the file, a call that raises raises an
    exception of Python or of the libraries: no path of [measure_shift]
    ends with DegenerateSignal or DimensionMismatch. *)
Lemma measure_shift_raises_python_errors (c : fits) :
  raises_only python_error (measure_shift c).
Proof.
  pose proof raises_refine_x. pose proof raises_refine_y.
  unfold measure_shift. raises.
Qed.

(* ================================================================== *)
(** * Failures along [measure_shift] *)
(* ================================================================== *)

Lemma getitem_out_of_range A (l : list A) (i : Z) :
  (i < - Z.of_nat (List.length l) \/ Z.of_nat (List.length l) <= i)%Z ->
  getitem l i = Raise IndexError.
Proof.
  intros Hi. unfold getitem.
  set (n := Z.of_nat (List.length l)) in *.
  destruct (Z.ltb_spec i 0).
  - replace (0 <=? i + n)%Z with false by (symmetry; apply Z.leb_gt; lia).
    reflexivity.
  - replace (i <? n)%Z with false by (symmetry; apply Z.ltb_ge; lia).
    rewrite andb_false_r. reflexivity.
Qed.

Lemma header_get_missing (h : list (string * Qc)) (key : string) :
  (forall v, ~ In (key, v) h) -> header_get h key = Raise KeyError.
Proof.
  induction h as [| [k v] h IH]; intros Hno; [reflexivity |].
  cbn [header_get]. destruct (String.eqb_spec k key) as [-> | Hk].
  - exfalso. apply (Hno v). left. reflexivity.
  - apply IH. intros v' Hin. apply (Hno v'). right. exact Hin.
Qed.

Lemma fft_cases (r : list Qc) :
  (r = [] /\ fft r = Raise ValueError)
  \/ (r <> [] /\ fft r = Ok (Spectrum (map ofreal r))).
Proof.
  destruct r as [| v r]; [left | right]; split;
    try reflexivity; discriminate.
Qed.

Lemma spec_mul_cases (F G : spectrum) :
  spec_mul F G = Raise ValueError \/ exists S, spec_mul F G = Ok S.
Proof.
  unfold spec_mul.
  destruct (List.length (samples F) =? List.length (samples G))%nat;
    [right; eauto |].
  destruct (samples F) as [| u [| u' t]];
    destruct (samples G) as [| v [| v' t']]; eauto.
Qed.

Lemma spec_mul_mismatch (F G : spectrum) :
  List.length (samples F) <> List.length (samples G) ->
  List.length (samples F) <> 1%nat ->
  List.length (samples G) <> 1%nat ->
  spec_mul F G = Raise ValueError.
Proof.
  intros Hne HF HG. unfold spec_mul.
  replace (List.length (samples F) =? List.length (samples G))%nat with false
    by (symmetry; apply Nat.eqb_neq; exact Hne).
  destruct (samples F) as [| u [| u' t]];
    destruct (samples G) as [| v [| v' t']];
    cbn [List.length] in *; try reflexivity; congruence.
Qed.

Lemma ifft_cases (F : spectrum) :
  ifft F = Raise ValueError \/ (samples F <> [] /\ ifft F = Ok (samples F)).
Proof.
  unfold ifft. destruct (samples F); [left; reflexivity |].
  right. split; [discriminate | reflexivity].
Qed.

Lemma slice_empty A (l : list A) (a b : Z) :
  (0 <= b <= a)%Z -> slice l a b = [].
Proof.
  intros H. unfold slice.
  set (n := Z.of_nat (List.length l)).
  assert (Hc : (clamp n b <= clamp n a)%Z).
  { unfold clamp. destruct (Z.ltb_spec b 0), (Z.ltb_spec a 0); lia. }
  replace (Z.to_nat (clamp n b - clamp n a)) with 0%nat by lia.
  reflexivity.
Qed.

Lemma slice_len_empty (n : nat) (a b : Z) :
  (0 <= b <= a)%Z -> slice_len n a b = 0%nat.
Proof.
  intros H. unfold slice_len.
  assert (Hc : (clamp (Z.of_nat n) b <= clamp (Z.of_nat n) a)%Z).
  { unfold clamp. destruct (Z.ltb_spec b 0), (Z.ltb_spec a 0); lia. }
  lia.
Qed.

Lemma fold_vadd_nil (rs : list (list Qc)) : fold_left vadd rs [] = [].
Proof. induction rs as [| r rs IH]; [reflexivity | exact IH]. Qed.

(** Normalisation keeps the shape, so an array without columns or without
    rows still has none after it. *)
Lemma div2_shape (a b : ndarray2) (t : Qc) :
  div2 a t = Ok b -> ncols b = ncols a /\ nrows b = nrows a.
Proof.
  unfold div2. destruct (Qc_eq_bool t 0); [discriminate |].
  intros E. injection E as <-. unfold nrows. cbn [ncols rows].
  rewrite length_map. split; reflexivity.
Qed.

Lemma sum_axis0_no_columns (a : ndarray2) :
  ncols a = 0%nat -> sum_axis0 a = [].
Proof. intros H. unfold sum_axis0. rewrite H. apply fold_vadd_nil. Qed.

Lemma sum_axis1_no_rows (a : ndarray2) :
  nrows a = 0%nat -> sum_axis1 a = [].
Proof.
  unfold nrows, sum_axis1. intros H.
  destruct (rows a); [reflexivity | discriminate].
Qed.

Lemma Ok_inj A (a b : A) : Ok a = Ok b -> a = b.
Proof. intros E. injection E as E. exact E. Qed.

Lemma mbind_lift_raise A B (e : exn) (k : A -> M B) (self : Donuts) :
  mbind (lift (Raise e)) k self = (self, Raise e).
Proof. reflexivity. Qed.

(** Lines 108-109 on an instance whose [check_data] is the crop: they leave
    the processed crop in [check_data]. *)
Lemma normalise_step A (self s0 : Donuts) (u : hdu) (cd : ndarray2)
    (k : unit -> M A) :
  processed self u = Ok cd ->
  check_data s0 = Some (cropped self u) ->
  texp s0 = texp self ->
  mbind (if normalise self
         then (cd0 <== attr_opt "check_data" check_data ;;
               t <== attr texp ;;
               r <== lift (div2 cd0 t) ;;
               assign (set_check_data r))%m
         else mret tt) k s0
  = k tt (set_check_data cd s0).
Proof.
  unfold processed. intros Hcd E0 Et. destruct (normalise self).
  - rewrite mbind_run with (self' := set_check_data cd s0) (a := tt);
      [reflexivity |].
    rewrite mbind_attr_opt, E0, mbind_attr, Et, Hcd.
    reflexivity.
  - apply Ok_inj in Hcd. rewrite mbind_mret.
    f_equal. destruct s0. cbn in E0 |- *. rewrite E0, Hcd. reflexivity.
Qed.

Lemma after_projections_eq (self : Donuts) (c : fits) (cd cd0 : ndarray2) :
  set_check_yproj (sum_axis1 cd)
    (set_check_xproj (sum_axis0 cd)
       (set_check_data cd (set_check_data cd0 (set_checkimage c self))))
  = after_projections self c cd.
Proof. destruct self. reflexivity. Qed.

(** The lines up to 112 when background subtraction is off: from then on
    [check_data] and the two projections are those of the processed crop. *)
Ltac to_the_transforms Hsb Hu Hcd :=
  unfold measure_shift;
  repeat mstep; rewrite Hu; repeat mstep; rewrite Hsb; cbv iota;
  repeat mstep;
  rewrite (normalise_step _ _ Hcd) by reflexivity;
  repeat mstep;
  rewrite after_projections_eq.

(** One step on the instance that lines 99-112 leave. *)
Ltac pstep :=
  mstep;
  cbn [after_projections ref_xproj ref_yproj check_xproj check_yproj
       solution_n_x solution_n_y
       set_check_yproj set_check_xproj set_check_data set_checkimage].

(** One transform of lines 115-126 that may fail: either it raises
    ValueError, which ends the call, or the body goes on. *)
Ltac transform_or_stop :=
  match goal with
  | |- mbind (lift (fft ?r)) _ _ = _ =>
      let E := fresh "E" in
      destruct (fft_cases r) as [[_ E] | [_ E]]; rewrite E;
      [ reflexivity | repeat pstep ]
  | |- mbind (lift (spec_mul ?F ?G)) _ _ = _ =>
      let E := fresh "E" in
      let S := fresh "S" in
      destruct (spec_mul_cases F G) as [E | [S E]]; rewrite E;
      [ reflexivity | repeat pstep ]
  end.

Lemma spec_mul_sizes (r k : list Qc) :
  (2 <= List.length r)%nat -> (2 <= List.length k)%nat ->
  List.length k <> List.length r ->
  spec_mul (conjugate (Spectrum (map ofreal r))) (Spectrum (map ofreal k))
  = Raise ValueError.
Proof.
  intros Hr Hk Hne. apply spec_mul_mismatch;
    rewrite ?length_conjugate; cbn [samples]; rewrite ?length_map; lia.
Qed.

Lemma processed_shape (self : Donuts) (u : hdu) (cd : ndarray2) :
  processed self u = Ok cd ->
  ncols cd = ncols (cropped self u) /\ nrows cd = nrows (cropped self u).
Proof.
  unfold processed. destruct (normalise self); intros E.
  - apply (@div2_shape _ _ _ E).
  - apply Ok_inj in E. subst cd. split; reflexivity.
Qed.

Lemma length_samples_fft (r : list Qc) (F : spectrum) :
  fft r = Ok F -> List.length (samples F) = List.length r.
Proof.
  destruct r; [discriminate |]. intros E. apply Ok_inj in E. subst F.
  cbn [samples]. apply length_map.
Qed.

(* ================================================================== *)
(** * Attributes assigned before they are read *)
(* ================================================================== *)

Lemma agree_fewer (m m' : assigned) (s1 s2 : Donuts) :
  fewer m m' = true -> agree m' s1 s2 -> agree m s1 s2.
Proof.
  destruct m as [a b c d e f g], m' as [a' b' c' d' e' f' g'].
  unfold fewer, agree. cbn.
  intros Hf (H0 & H1 & H2 & H3 & H4 & H5 & H6 & H7).
  repeat (apply andb_prop in Hf; destruct Hf as [Hf ?]).
  repeat split; try assumption; intros ->;
    match goal with
    | H : implb true ?b = true |- _ => cbn in H; subst b; auto
    end.
Qed.

Lemma carries_weaken A (m m' m'' : assigned) (c : M A) :
  carries m m' c -> fewer m'' m' = true -> carries m m'' c.
Proof.
  intros Hc Hf s1 s2 H. destruct (Hc s1 s2 H) as [E Q].
  split; [exact E |]. intros a Ha. apply (@agree_fewer _ _ _ _ Hf). eauto.
Qed.

Lemma carries_mret A (m : assigned) (a : A) : carries m m (mret a).
Proof. intros s1 s2 H. split; [reflexivity | intros; exact H]. Qed.

Lemma carries_lift A (m : assigned) (o : outcome A) : carries m m (lift o).
Proof. intros s1 s2 H. split; [reflexivity | intros; exact H]. Qed.

Lemma carries_raise A B (m m' : assigned) (e : exn) (k : A -> M B) :
  carries m m' (mbind (lift (Raise e)) k).
Proof. intros s1 s2 H. split; [reflexivity | discriminate]. Qed.

Lemma carries_attr A (m : assigned) (f : Donuts -> A) :
  (forall s1 s2, agree m s1 s2 -> f s1 = f s2) -> carries m m (attr f).
Proof.
  intros Hf s1 s2 H. split; [cbn; rewrite (Hf s1 s2 H); reflexivity |].
  intros; exact H.
Qed.

Lemma carries_attr_opt A (m : assigned) name (f : Donuts -> option A) :
  (forall s1 s2, agree m s1 s2 -> f s1 = f s2) ->
  carries m m (attr_opt name f).
Proof.
  intros Hf s1 s2 H. split; [cbn; rewrite (Hf s1 s2 H); reflexivity |].
  intros; exact H.
Qed.

Lemma carries_assign (m m' : assigned) (set : Donuts -> Donuts) :
  (forall s1 s2, agree m s1 s2 -> agree m' (set s1) (set s2)) ->
  carries m m' (assign set).
Proof. intros Hs s1 s2 H. split; [reflexivity | intros; apply Hs, H]. Qed.

Lemma carries_mbind A B (m q m' : assigned) (c : M A) (k : A -> M B) :
  carries m q c -> (forall a, carries q m' (k a)) ->
  carries m m' (mbind c k).
Proof.
  intros Hc Hk s1 s2 H. destruct (Hc s1 s2 H) as [E Q].
  unfold mbind.
  destruct (c s1) as [s1' r1], (c s2) as [s2' r2]. cbn in E, Q. subst r2.
  destruct r1 as [a | e |].
  - apply Hk. apply (Q a). reflexivity.
  - split; [reflexivity | discriminate].
  - split; [reflexivity | discriminate].
Qed.

Lemma carries_if A (m m' : assigned) (b : bool) (c1 c2 : M A) :
  carries m m' c1 -> carries m m' c2 -> carries m m' (if b then c1 else c2).
Proof. destruct b; auto. Qed.

(** An [if] without [else]: what its body assigns is not counted. *)
Lemma carries_when (m m' : assigned) (b : bool) (c : M unit) :
  carries m m' c -> fewer m m' = true ->
  carries m m (if b then c else mret tt).
Proof.
  intros Hc Hf. destruct b; [| apply carries_mret].
  apply (@carries_weaken _ _ _ _ _ Hc Hf).
Qed.

(** The attributes of the reference state agree. *)
Ltac same_reference :=
  let s1 := fresh "s" in
  let s2 := fresh "s" in
  let H := fresh "H" in
  intros s1 s2 [H _]; destruct s1, s2;
  unfold reference_state in H;
  cbn [image_ext boarder ntiles normalise refimage subtract_bkg texp dy dx
       dimx dimy ref_data w_dimy w_dimx tilesizex tilesizey bkgmap
       ref_xproj ref_yproj x y] in H |- *;
  congruence.

(** An attribute that the call has assigned agrees. *)
Ltac same_assigned :=
  let H := fresh "H" in
  intros ? ? H; unfold self_checkimage; apply H; reflexivity.

(** After an assignment the assigned attribute agrees, the others as
    before. *)
Ltac still_agree :=
  let s1 := fresh "s" in
  let s2 := fresh "s" in
  let H := fresh "H" in
  intros s1 s2 H; destruct s1, s2; unfold agree, reference_state in *;
  cbn in H |- *; intuition congruence.

Lemma carries_set_checkimage a b c d e f g (v : fits) :
  carries (Assigned a b c d e f g) (Assigned true b c d e f g)
          (assign (set_checkimage v)).
Proof. apply carries_assign. still_agree. Qed.

Lemma carries_set_check_data a b c d e f g (v : ndarray2) :
  carries (Assigned a b c d e f g) (Assigned a true c d e f g)
          (assign (set_check_data v)).
Proof. apply carries_assign. still_agree. Qed.

Lemma carries_set_check_bkgmap a b c d e f g (v : ndarray2) :
  carries (Assigned a b c d e f g) (Assigned a b true d e f g)
          (assign (set_check_bkgmap v)).
Proof. apply carries_assign. still_agree. Qed.

Lemma carries_set_check_xproj a b c d e f g (v : list Qc) :
  carries (Assigned a b c d e f g) (Assigned a b c true e f g)
          (assign (set_check_xproj v)).
Proof. apply carries_assign. still_agree. Qed.

Lemma carries_set_check_yproj a b c d e f g (v : list Qc) :
  carries (Assigned a b c d e f g) (Assigned a b c d true f g)
          (assign (set_check_yproj v)).
Proof. apply carries_assign. still_agree. Qed.

Lemma carries_set_solution_n_x a b c d e f g (v : npfloat) :
  carries (Assigned a b c d e f g) (Assigned a b c d e true g)
          (assign (set_solution_n_x v)).
Proof. apply carries_assign. still_agree. Qed.

Lemma carries_set_solution_n_y a b c d e f g (v : npfloat) :
  carries (Assigned a b c d e f g) (Assigned a b c d e f true)
          (assign (set_solution_n_y v)).
Proof. apply carries_assign. still_agree. Qed.

Lemma fewer_refl (m : assigned) : fewer m m = true.
Proof. destruct m as [[] [] [] [] [] [] []]; reflexivity. Qed.

Ltac fewer_ok :=
  unfold fewer;
  cbn [a_checkimage a_check_data a_check_bkgmap a_check_xproj a_check_yproj
       a_solution_n_x a_solution_n_y];
  repeat match goal with
         | |- context [implb ?b _] => is_var b; destruct b
         end;
  reflexivity.

(** One statement of a method body. *)
Ltac carry :=
  cbv zeta;
  lazymatch goal with
  | |- carries _ _ (mret _) => apply carries_mret
  | |- carries _ _ (lift _) => apply carries_lift
  | |- carries _ _ (attr _) => apply carries_attr; same_reference
  | |- carries _ _ (attr_opt _ _) => apply carries_attr_opt; same_assigned
  | |- carries _ _ (assign (set_checkimage _)) => apply carries_set_checkimage
  | |- carries _ _ (assign (set_check_data _)) => apply carries_set_check_data
  | |- carries _ _ (assign (set_check_bkgmap _)) =>
      apply carries_set_check_bkgmap
  | |- carries _ _ (assign (set_check_xproj _)) =>
      apply carries_set_check_xproj
  | |- carries _ _ (assign (set_check_yproj _)) =>
      apply carries_set_check_yproj
  | |- carries _ _ (assign (set_solution_n_x _)) =>
      apply carries_set_solution_n_x
  | |- carries _ _ (assign (set_solution_n_y _)) =>
      apply carries_set_solution_n_y
  | |- carries _ _ (mbind (lift (load_global _)) _) => apply carries_raise
  | |- carries _ _ (mbind _ _) => eapply carries_mbind; [| intro]
  | |- carries _ _ (if _ then _ else mret tt) =>
      eapply carries_when
  | |- carries _ _ (if _ then _ else _) => apply carries_if
  | |- carries _ _ (let '(_, _) := ?c in _) => destruct c
  | |- fewer _ _ = true => first [ apply fewer_refl | fewer_ok ]
  end.

Lemma carries_refine_x a b c d e f g Phi z_pos :
  carries (Assigned a b c d e f g) (Assigned a b c d e true g)
          (refine_x Phi z_pos).
Proof. unfold refine_x. repeat carry. Qed.

Lemma carries_refine_y a b c d e f g Phi z_pos :
  carries (Assigned a b c d e f g) (Assigned a b c d e f true)
          (refine_y Phi z_pos).
Proof. unfold refine_y. repeat carry. Qed.

(** [measure_shift] reads no attribute of an earlier call before it has
    assigned it. *)
Lemma carries_measure_shift (c : fits) :
  carries nothing_assigned (Assigned true true false true true true true)
          (measure_shift c).
Proof.
  unfold measure_shift, nothing_assigned.
  repeat first [ apply carries_refine_x | apply carries_refine_y | carry ].
Qed.

(* ================================================================== *)
(** * The exceptions of a call without background subtraction *)
(* ================================================================== *)

Lemma getitem_library A (l : list A) (i : Z) :
  raises_only_o library_error (getitem l i).
Proof.
  intros e. unfold getitem.
  destruct ((0 <=? _)%Z && _)%bool;
    [destruct (nth_error l _) |]; intros E; try discriminate;
    injection E as <-; left; reflexivity.
Qed.

Lemma fft_library (r : list Qc) : raises_only_o library_error (fft r).
Proof.
  intros e. unfold fft. destruct r; intros E; try discriminate.
  injection E as <-. right. reflexivity.
Qed.

Lemma ifft_library (F : spectrum) : raises_only_o library_error (ifft F).
Proof.
  intros e. unfold ifft. destruct (samples F); intros E; try discriminate.
  injection E as <-. right. reflexivity.
Qed.

Lemma spec_mul_library (F G : spectrum) :
  raises_only_o library_error (spec_mul F G).
Proof.
  intros e. destruct (spec_mul_cases F G) as [E | [S E]]; rewrite E;
    intros E'; try discriminate.
  injection E' as <-. right. reflexivity.
Qed.

Lemma py_max_library (l : list complex) :
  raises_only_o library_error (py_max l).
Proof.
  intros e. unfold py_max. destruct l; intros E; try discriminate.
  injection E as <-. right. reflexivity.
Qed.

Lemma polyfit2_library xs ys : raises_only_o library_error (polyfit2 xs ys).
Proof.
  intros e. destruct xs as [[x0 x1] x2], ys as [[y0 y1] y2]. unfold polyfit2.
  destruct ((x0 =? x1)%Z || (x1 =? x2)%Z || (x0 =? x2)%Z); discriminate.
Qed.

Lemma div2_library a t : raises_only_o library_error (div2 a t).
Proof. intros e. unfold div2. destruct (Qc_eq_bool t 0); discriminate. Qed.

Section Stays.

Variable I : Donuts -> Prop.
Variable P : exn -> Prop.

Lemma stays_mret A (a : A) : stays I P (mret a).
Proof. intros s H. split; [discriminate | exact H]. Qed.

Lemma stays_lift A (o : outcome A) : raises_only_o P o -> stays I P (lift o).
Proof. intros Ho s H. split; [exact Ho | exact H]. Qed.

Lemma stays_attr A (f : Donuts -> A) : stays I P (attr f).
Proof. intros s H. split; [discriminate | exact H]. Qed.

Lemma stays_attr_opt A name (f : Donuts -> option A) :
  (forall s, I s -> f s <> None) -> stays I P (attr_opt name f).
Proof.
  intros Hf s H. split; [| exact H]. cbn.
  specialize (Hf s H). destruct (f s); [discriminate | contradiction].
Qed.

Lemma stays_assign (set : Donuts -> Donuts) :
  (forall s, I s -> I (set s)) -> stays I P (assign set).
Proof. intros Hs s H. split; [discriminate | apply Hs, H]. Qed.

Lemma stays_mbind A B (c : M A) (k : A -> M B) :
  stays I P c -> (forall a, stays I P (k a)) -> stays I P (mbind c k).
Proof.
  intros Hc Hk s H. destruct (Hc s H) as [E Q]. unfold mbind.
  destruct (c s) as [s' r]. cbn in E, Q.
  destruct r as [a | e |].
  - apply Hk, Q.
  - split; [| exact Q]. cbn. intros e' E'. apply E.
    injection E' as <-. reflexivity.
  - split; [discriminate | exact Q].
Qed.

Lemma stays_if A (b : bool) (c1 c2 : M A) :
  stays I P c1 -> stays I P c2 -> stays I P (if b then c1 else c2).
Proof. destruct b; auto. Qed.

(** Reading an attribute whose value the invariant fixes. *)
Lemma stays_attr_known A B (f : Donuts -> A) (v : A) (k : A -> M B) :
  (forall s, I s -> f s = v) -> stays I P (k v) ->
  stays I P (mbind (attr f) k).
Proof.
  intros Hf Hk s H. unfold mbind, attr. rewrite (Hf s H). apply Hk, H.
Qed.

End Stays.

Ltac settled_after :=
  let s := fresh "s" in
  let H := fresh "H" in
  intros s H; destruct s; unfold settled in *; cbn in H |- *;
  intuition discriminate.

Ltac settled_value :=
  let s := fresh "s" in
  let H := fresh "H" in
  intros s H; unfold self_checkimage; apply H.

(** One statement of a method body on a settled instance. *)
Ltac stay :=
  cbv zeta; cbv beta iota;
  lazymatch goal with
  | |- stays _ _ (mret _) => apply stays_mret
  | |- stays _ _ (lift _) =>
      apply stays_lift;
      first [ apply getitem_library | apply fft_library | apply ifft_library
            | apply spec_mul_library | apply py_max_library
            | apply polyfit2_library | apply div2_library ]
  | |- stays _ _ (attr_opt _ _) => apply stays_attr_opt; settled_value
  | |- stays _ _ (attr _) => apply stays_attr
  | |- stays _ _ (assign _) => apply stays_assign; settled_after
  | |- stays _ _ (mbind (attr subtract_bkg) _) =>
      apply stays_attr_known with (v := false); [intros ? H; apply H |]
  | |- stays _ _ (mbind _ _) => apply stays_mbind; [| intro]
  | |- stays _ _ (if _ then _ else _) => apply stays_if
  | |- stays _ _ (let '(_, _) := ?c in _) => destruct c
  end.

Lemma stays_refine_x Phi z_pos :
  stays settled library_error (refine_x Phi z_pos).
Proof. unfold refine_x. repeat stay. Qed.

Lemma stays_refine_y Phi z_pos :
  stays settled library_error (refine_y Phi z_pos).
Proof. unfold refine_y. repeat stay. Qed.

Lemma stays_measure_shift (c : fits) :
  stays settled library_error (measure_shift c).
Proof.
  unfold measure_shift.
  repeat first [ apply stays_refine_x | apply stays_refine_y | stay ].
Qed.

Lemma agree_filled (s : Donuts) : agree nothing_assigned s (filled s).
Proof.
  split; [destruct s; reflexivity |]. repeat split; discriminate.
Qed.

Lemma settled_filled (s : Donuts) :
  subtract_bkg s = false -> settled (filled s).
Proof.
  intros H. destruct s. cbn in H. unfold settled, filled. cbn.
  repeat split; try discriminate. exact H.
Qed.

(** With background subtraction off, a call that raises raises IndexError
    or ValueError. *)
Lemma measure_shift_library_errors (c : fits) (self : Donuts) (e : exn) :
  subtract_bkg self = false ->
  snd (measure_shift c self) = Raise e -> library_error e.
Proof.
  intros Hsb He.
  destruct (carries_measure_shift c (agree_filled self)) as [E _].
  rewrite E in He.
  destruct (stays_measure_shift c (settled_filled self Hsb)) as [R _].
  apply R. exact He.
Qed.

(* ================================================================== *)
(** * A check profile that is the reference profile, shifted *)
(* ================================================================== *)

Lemma ofZ_add (a b : Z) : ofZ (a + b) = ofZ a + ofZ b.
Proof.
  apply Qc_is_canon. unfold Qcplus, Q2Qc. cbn [this].
  rewrite Qred_correct, !this_ofZ. rewrite inject_Z_plus. reflexivity.
Qed.

Lemma ofZ_opp (a : Z) : ofZ (- a) = - ofZ a.
Proof.
  apply Qc_is_canon. unfold Qcopp, Q2Qc. cbn [this].
  rewrite Qred_correct, !this_ofZ. rewrite inject_Z_opp. reflexivity.
Qed.

Lemma ofZ_sub (a b : Z) : ofZ (a - b) = ofZ a - ofZ b.
Proof.
  unfold Z.sub, Qcminus. rewrite ofZ_add, ofZ_opp. reflexivity.
Qed.

(** In exact arithmetic the correlation of two profiles of the same length
    is their circular cross-correlation. *)
Lemma correlation_xcorr (r c : list Qc) :
  r <> [] -> List.length c = List.length r ->
  exists Phi,
    correlation r c = Ok Phi
    /\ List.length Phi = List.length r
    /\ all_real Phi
    /\ forall k, (k < List.length r)%nat ->
                 sample Phi (Z.of_nat k) = xcorr r c k.
Proof.
  intros Hne Hlen. rewrite (@correlation_same_length r c Hlen Hne).
  set (x := samples (conjugate (Spectrum (map ofreal r)))).
  set (y := map ofreal c). set (L := List.length r).
  assert (Hx : List.length x = L)
    by (subst x; rewrite length_conjugate; cbn [samples]; apply length_map).
  assert (HL : L <> 0%nat) by (subst L; destruct r; [congruence | discriminate]).
  eexists. split; [reflexivity |]. split; [rewrite length_cconv; exact Hx |].
  split.
  { apply all_real_cconv.
    - subst x. apply all_real_conjugate. cbn [samples]. apply all_real_ofreal.
    - subst y. apply all_real_ofreal. }
  intros k Hk. rewrite sample_in_range by (rewrite length_cconv, Hx; lia).
  rewrite Nat2Z.id. unfold cconv. rewrite Hx.
  rewrite nth_map_seq by exact Hk. rewrite real_csum, map_map.
  unfold xcorr. fold L.
  rewrite (vsum_perm (Permutation_map
             (fun m => nth m r 0 * nth ((k + m) mod L) c 0)
             (circular_indices 0 L))).
  rewrite map_map. f_equal. apply map_ext_in. intros n Hn.
  apply in_seq in Hn. cbn [Nat.add].
  subst x y. unfold conjugate. cbn [samples]. rewrite length_map. fold L.
  rewrite nth_map_seq by lia. rewrite !nth_ofreal.
  cbn [cmul cconj ofreal real imag].
  rewrite Nat.Div0.add_mod_idemp_r.
  replace (k + (L - n))%nat with (k + L - n)%nat by lia.
  ring.
Qed.

Lemma length_roll (d : nat) (r : list Qc) :
  List.length (roll d r) = List.length r.
Proof. unfold roll. rewrite length_map, length_seq. reflexivity. Qed.

Lemma nth_roll (d n : nat) (r : list Qc) :
  (n < List.length r)%nat ->
  nth n (roll d r) 0
  = nth ((n + (List.length r - d mod List.length r)) mod List.length r) r 0.
Proof. intros Hn. unfold roll. rewrite nth_map_seq by exact Hn. reflexivity. Qed.

Lemma xcorr_roll (r : list Qc) (d k : nat) :
  (d < List.length r)%nat -> (k < List.length r)%nat ->
  xcorr r (roll d r) k
  = autocorr r ((k + (List.length r - d)) mod List.length r).
Proof.
  intros Hd Hk. unfold xcorr, autocorr. set (L := List.length r) in *.
  assert (HL : L <> 0%nat) by lia.
  f_equal. apply map_ext_in. intros m Hm. apply in_seq in Hm.
  rewrite nth_roll by (apply Nat.mod_upper_bound; exact HL). fold L.
  rewrite (Nat.mod_small d L) by exact Hd.
  rewrite !Nat.Div0.add_mod_idemp_l.
  replace (k + m + (L - d))%nat with (k + (L - d) + m)%nat by lia.
  reflexivity.
Qed.

(** When lag [k] reaches the value of lag 0, the profile is unchanged by a
    shift of [k]. *)
Lemma autocorr_equal_periodic (r : list Qc) (k : nat) :
  autocorr r k = autocorr r 0 ->
  forall m, (m < List.length r)%nat ->
            nth m r 0 = nth ((k + m) mod List.length r) r 0.
Proof.
  intros E. pose proof (autocorr_gap r k) as G. cbv zeta in G.
  rewrite E in G. replace (two * (autocorr r 0 - autocorr r 0)) with 0 in G
    by ring.
  set (L := List.length r) in *.
  apply vsum_zero in G.
  - intros m Hm.
    pose proof (proj1 (Forall_forall _ _) G) as G'.
    specialize (G' ((nth m r 0 - nth ((k + m) mod L) r 0)
                    * (nth m r 0 - nth ((k + m) mod L) r 0))).
    assert (Hz : (nth m r 0 - nth ((k + m) mod L) r 0)
                 * (nth m r 0 - nth ((k + m) mod L) r 0) = 0).
    { apply G'. apply in_map_iff. exists m. split; [reflexivity |].
      apply in_seq. lia. }
    apply Qcmult_integral in Hz.
    assert (Hd : nth m r 0 - nth ((k + m) mod L) r 0 = 0) by tauto.
    transitivity ((nth m r 0 - nth ((k + m) mod L) r 0)
                  + nth ((k + m) mod L) r 0); [ring |].
    rewrite Hd. ring.
  - apply Forall_forall. intros v Hv. apply in_map_iff in Hv.
    destruct Hv as (m & <- & _). apply Qc_square_nonneg.
Qed.

(** The autocorrelation of an aperiodic profile is largest at lag 0 and
    nowhere else. *)
Lemma autocorr_strict (r : list Qc) (j : nat) :
  aperiodic r -> (0 < j < List.length r)%nat ->
  autocorr r j < autocorr r 0.
Proof.
  intros Hap Hj.
  destruct (Qc_eq_dec (autocorr r j) (autocorr r 0)) as [E | N].
  - exfalso. set (L := List.length r) in *.
    apply (Hap (L - j)%nat); [fold L; lia |].
    pose proof (autocorr_equal_periodic r j E) as Hper. fold L in Hper.
    apply nth_ext with (d := 0) (d' := 0); [apply length_roll |].
    intros n Hn. rewrite length_roll in Hn. fold L in Hn.
    rewrite nth_roll by exact Hn. fold L.
    rewrite (Nat.mod_small (L - j) L) by lia.
    replace (L - (L - j))%nat with j by lia.
    rewrite (Hper n Hn). f_equal. f_equal. lia.
  - destruct (Qcle_lt_or_eq _ _ (autocorr_max r j)) as [H | H];
      [exact H | contradiction].
Qed.

(** The parabola through three samples at [p - 1], [p], [p + 1] that are
    equal on both sides of the middle one has its vertex at [p]. *)
Lemma polyfit2_centred (p : Z) (s0 s1 : Qc) :
  exists c,
    polyfit2 (p - 1, p, p + 1)%Z (s1, s0, s1)
    = Ok (s1 - s0, - (two * ofZ p * (s1 - s0)), c).
Proof.
  unfold polyfit2.
  replace (p - 1 =? p)%Z with false by (symmetry; apply Z.eqb_neq; lia).
  replace (p =? p + 1)%Z with false by (symmetry; apply Z.eqb_neq; lia).
  replace (p - 1 =? p + 1)%Z with false by (symmetry; apply Z.eqb_neq; lia).
  cbn [orb]. eexists.
  rewrite ofZ_sub, ofZ_add, ofZ_1, two_is.
  assert (H1 : (1 : Qc) <> 0) by discriminate.
  assert (H2 : ofZ p - (ofZ p - 1) <> 0)
    by (replace (ofZ p - (ofZ p - 1)) with (1 : Qc) by ring; exact H1).
  assert (H3 : ofZ p + 1 - ofZ p <> 0)
    by (replace (ofZ p + 1 - ofZ p) with (1 : Qc) by ring; exact H1).
  assert (H4 : ofZ p + 1 - (ofZ p - 1) <> 0).
  { replace (ofZ p + 1 - (ofZ p - 1)) with two by (rewrite two_is; ring).
    apply two_neq_0. }
  f_equal. apply f_equal2; [apply f_equal2 |]; [field | field | reflexivity];
    auto.
Qed.

Lemma vertex_centred (p : Z) (s0 s1 : Qc) :
  s1 <> s0 -> vertex (p - 1, p, p + 1)%Z (s1, s0, s1) = Real (ofZ p).
Proof.
  intros Hne. destruct (polyfit2_centred p s0 s1) as [c E].
  unfold vertex. rewrite E.
  assert (Hd : s1 - s0 <> 0).
  { intro Z0. apply Hne. transitivity ((s1 - s0) + s0); [ring |].
    rewrite Z0. ring. }
  assert (Ha : two * (s1 - s0) <> 0).
  { intro Z0. apply Qcmult_integral in Z0. destruct Z0 as [Z0 | Z0].
    - exact (two_neq_0 Z0).
    - exact (Hd Z0). }
  unfold fdiv. rewrite (Qc_eq_bool_neq Ha). f_equal.
  field. split; [exact Hd | exact two_neq_0].
Qed.

Lemma sample_circular (Phi : list complex) (i : Z) :
  Phi <> [] ->
  sample Phi i
  = sample Phi (Z.of_nat (Z.to_nat (i mod Z.of_nat (List.length Phi)))).
Proof.
  intros Hne.
  assert (HL : (0 < Z.of_nat (List.length Phi))%Z)
    by (destruct Phi; [congruence | cbn [List.length]; lia]).
  pose proof (Z.mod_pos_bound i _ HL) as Hb.
  unfold sample. rewrite Z2Nat.id by lia. rewrite Z.mod_mod by lia.
  reflexivity.
Qed.

(** One axis of a shifted image: the peak of the correlation is at the
    shift and the x refiner reports it exactly. *)
Lemma shifted_projection (r : list Qc) (d : nat) :
  (3 <= List.length r)%nat -> (d < List.length r)%nat -> aperiodic r ->
  exists Phi,
    correlation r (roll d r) = Ok Phi
    /\ List.length Phi = List.length r
    /\ peak_index Phi = Ok (Z.of_nat d)
    /\ refine_x_amended Phi (Z.of_nat d)
       = Real (reported (Z.of_nat (List.length r)) (Z.of_nat d)).
Proof.
  intros HL Hd Hap.
  assert (Hne : r <> []) by (destruct r; [cbn in HL; lia | discriminate]).
  destruct (@correlation_xcorr r (roll d r) Hne (length_roll d r))
    as (Phi & HPhi & Hlen & Hreal & Hx).
  exists Phi. split; [exact HPhi |]. split; [exact Hlen |].
  set (L := List.length r) in *.
  assert (HPne : Phi <> [])
    by (destruct Phi; [cbn in Hlen; lia | discriminate]).
  assert (Hs : forall k, (k < L)%nat ->
                 sample Phi (Z.of_nat k) = autocorr r ((k + (L - d)) mod L)).
  { intros k Hk. rewrite (Hx k Hk). apply xcorr_roll; assumption. }
  assert (Hsz : forall i k, Z.to_nat (i mod Z.of_nat L) = k ->
                  sample Phi i = autocorr r ((k + (L - d)) mod L)).
  { intros i k E. rewrite (sample_circular i HPne), Hlen. rewrite E.
    apply Hs. subst k.
    pose proof (Z.mod_pos_bound i (Z.of_nat L) ltac:(lia)). lia. }
  assert (Sd : sample Phi (Z.of_nat d) = autocorr r 0).
  { rewrite (Hs d Hd). f_equal.
    replace (d + (L - d))%nat with (0 + 1 * L)%nat by lia.
    rewrite Nat.Div0.mod_add. apply Nat.mod_small. lia. }
  assert (Sp : sample Phi (Z.of_nat d - 1) = autocorr r 1).
  { rewrite <- (autocorr_sym r) by (fold L; lia). fold L.
    destruct (Nat.eq_dec d 0) as [-> | Hd0].
    - change (Z.of_nat 0) with 0%Z. rewrite (Hsz (0 - 1)%Z (L - 1)%nat).
      + f_equal. replace (L - 1 + (L - 0))%nat with (L - 1 + 1 * L)%nat by lia.
        rewrite Nat.Div0.mod_add. apply Nat.mod_small. lia.
      + replace (0 - 1)%Z with (Z.of_nat L - 1 + (-1) * Z.of_nat L)%Z by lia.
        rewrite Z.mod_add by lia. rewrite Z.mod_small by lia. lia.
    - rewrite (Hsz (Z.of_nat d - 1)%Z (d - 1)%nat).
      + f_equal. replace (d - 1 + (L - d))%nat with (L - 1)%nat by lia.
        apply Nat.mod_small. lia.
      + rewrite Z.mod_small by lia. lia. }
  assert (Sn : sample Phi (Z.of_nat d + 1) = autocorr r 1).
  { destruct (Nat.eq_dec (d + 1) L) as [E | N].
    - rewrite (Hsz (Z.of_nat d + 1)%Z 0%nat).
      + f_equal. replace (0 + (L - d))%nat with 1%nat by lia.
        apply Nat.mod_small. lia.
      + replace (Z.of_nat d + 1)%Z with (Z.of_nat L) by lia.
        rewrite Z.mod_same by lia. reflexivity.
    - rewrite (Hsz (Z.of_nat d + 1)%Z (d + 1)%nat).
      + f_equal. replace (d + 1 + (L - d))%nat with (1 + 1 * L)%nat by lia.
        rewrite Nat.Div0.mod_add. apply Nat.mod_small. lia.
      + rewrite Z.mod_small by lia. lia. }
  assert (Hgap : autocorr r 1 <> autocorr r 0).
  { intro E. apply (Qclt_not_le (autocorr r 1) (autocorr r 0)).
    - apply autocorr_strict; [exact Hap | fold L; lia].
    - rewrite E. apply Qcle_refl. }
  split.
  - (* the peak *)
    destruct (peak_index_real Hreal HPne) as (p & Hp & Hrange & Hmax & _).
    destruct (Z.eq_dec p (Z.of_nat d)) as [-> | Hpd]; [exact Hp |].
    exfalso. rewrite Hlen in Hrange, Hmax.
    specialize (Hmax (Z.of_nat d) ltac:(lia)). rewrite Sd in Hmax.
    replace p with (Z.of_nat (Z.to_nat p)) in Hmax by lia.
    rewrite Hs in Hmax by lia.
    apply (Qcle_not_lt _ _ Hmax). apply autocorr_strict; [exact Hap |].
    fold L.
    assert (Hm : ((Z.to_nat p + (L - d)) mod L < L)%nat)
      by (apply Nat.mod_upper_bound; lia).
    split; [| exact Hm].
    destruct (Nat.eq_dec ((Z.to_nat p + (L - d)) mod L) 0) as [E0 | N0];
      [| lia].
    exfalso. apply Nat.Div0.mod_divides in E0. destruct E0 as [q Eq].
    assert (q = 1%nat) by nia. subst q. lia.
  - unfold refine_x_amended, reported. rewrite Hlen. fold L.
    destruct (Z.leb_spec (2 * Z.of_nat d) (Z.of_nat L)) as [Hh | Hh].
    + rewrite Sp, Sd, Sn, (vertex_centred _ Hgap). cbn [fneg].
      rewrite ofZ_opp. reflexivity.
    + destruct (Z.ltb_spec (Z.of_nat d) (Z.of_nat L - 1)) as [Hl | Hl].
      * rewrite Sp, Sd, Sn, (vertex_centred _ Hgap).
        unfold fsub. cbn [fneg fadd]. rewrite ofZ_sub. reflexivity.
      * assert (Ed : Z.of_nat d = (Z.of_nat L - 1)%Z) by lia.
        replace (Z.of_nat L - 2)%Z with (Z.of_nat d - 1)%Z by lia.
        replace (Z.of_nat L - 1)%Z with (Z.of_nat d) by lia.
        assert (S0 : sample Phi 0 = autocorr r 1).
        { rewrite (Hsz 0%Z 0%nat).
          - f_equal. replace (0 + (L - d))%nat with 1%nat by lia.
            apply Nat.mod_small. lia.
          - rewrite Z.mod_0_l by lia. reflexivity. }
        rewrite Sp, Sd, S0. destruct (vertex_symmetric Hgap) as [V1 _].
        rewrite V1. unfold fsub. cbn [fneg fadd].
        replace (Z.of_nat L - Z.of_nat d)%Z with 1%Z by lia.
        rewrite ofZ_1. apply f_equal. ring.
Qed.

(* ================================================================== *)
(** * The refinement stays within half a pixel of the peak *)
(* ================================================================== *)

Lemma polyfit2_three (p : Z) (s1 s0 s2 : Qc) :
  exists c,
    polyfit2 (p - 1, p, p + 1)%Z (s1, s0, s2)
    = Ok ((s1 - two * s0 + s2) / two,
          (s0 - s1) - (s1 - two * s0 + s2) / two * (two * ofZ p - 1),
          c).
Proof.
  unfold polyfit2.
  replace (p - 1 =? p)%Z with false by (symmetry; apply Z.eqb_neq; lia).
  replace (p =? p + 1)%Z with false by (symmetry; apply Z.eqb_neq; lia).
  replace (p - 1 =? p + 1)%Z with false by (symmetry; apply Z.eqb_neq; lia).
  cbn [orb]. eexists.
  rewrite ofZ_sub, ofZ_add, ofZ_1, two_is.
  assert (H1 : (1 : Qc) <> 0) by discriminate.
  assert (H0 : (1 : Qc) + 1 <> 0) by (rewrite <- two_is; apply two_neq_0).
  assert (H2 : ofZ p - (ofZ p - 1) <> 0)
    by (replace (ofZ p - (ofZ p - 1)) with (1 : Qc) by ring; exact H1).
  assert (H3 : ofZ p + 1 - ofZ p <> 0)
    by (replace (ofZ p + 1 - ofZ p) with (1 : Qc) by ring; exact H1).
  assert (H4 : ofZ p + 1 - (ofZ p - 1) <> 0)
    by (replace (ofZ p + 1 - (ofZ p - 1)) with ((1 : Qc) + 1) by ring;
        exact H0).
  f_equal. apply f_equal2; [apply f_equal2 |]; [field | field | reflexivity];
    auto.
Qed.

Lemma Qc_sum_pos (a b : Qc) :
  0 <= a -> 0 <= b -> a <> 0 \/ b <> 0 -> 0 < a + b.
Proof.
  intros Ha Hb Hn.
  assert (H : 0 <= a + b).
  { replace 0 with (0 + 0) by ring. apply Qcplus_le_compat; assumption. }
  destruct (Qcle_lt_or_eq _ _ H) as [Hlt | Heq]; [exact Hlt |].
  exfalso.
  assert (F : Forall (fun v => v = 0) [a; b]).
  { apply vsum_zero; [repeat constructor; assumption |].
    cbn [vsum fold_right].
    transitivity (a + b); [ring | symmetry; exact Heq]. }
  inversion F as [| ? ? Ea F']; subst. inversion F' as [| ? ? Eb _]; subst.
  tauto.
Qed.

Lemma Qc_diff_nonneg (u v : Qc) : u <= v -> 0 <= v - u.
Proof. intros H. apply Qcle_minus_iff in H. exact H. Qed.

Lemma Qc_diff_neq (u v : Qc) : u <> v -> v - u <> 0.
Proof.
  intros H E. apply H. transitivity (v - (v - u)); [ring |].
  rewrite E. ring.
Qed.

(** The vertex of the parabola through three samples of which the middle
    one is the largest lies within half a step of the middle abscissa. *)
Lemma vertex_near (p : Z) (s1 s0 s2 : Qc) :
  s1 <= s0 -> s2 <= s0 -> s1 <> s0 \/ s2 <> s0 ->
  exists v,
    vertex (p - 1, p, p + 1)%Z (s1, s0, s2) = Real v
    /\ ofZ p - half <= v /\ v <= ofZ p + half.
Proof.
  intros H1 H2 Hn.
  destruct (polyfit2_three p s1 s0 s2) as [c E].
  set (D := (s0 - s1) + (s0 - s2)).
  assert (HD : 0 < D).
  { apply Qc_sum_pos; [apply Qc_diff_nonneg | apply Qc_diff_nonneg |];
      try assumption.
    destruct Hn as [Hn | Hn]; [left | right]; apply Qc_diff_neq; exact Hn. }
  assert (HD0 : D <> 0).
  { intro Z0. rewrite Z0 in HD. exact (Qclt_not_eq _ _ HD eq_refl). }
  assert (HA : s1 - two * s0 + s2 <> 0).
  { intro Z0. apply HD0. subst D. rewrite two_is in Z0.
    transitivity (- (s1 - (1 + 1) * s0 + s2)); [ring |]. rewrite Z0. ring. }
  assert (Ha : two * ((s1 - two * s0 + s2) / two) <> 0).
  { replace (two * ((s1 - two * s0 + s2) / two)) with (s1 - two * s0 + s2)
      by (field; apply two_neq_0).
    exact HA. }
  rewrite (vertex_of_fit _ _ E). unfold fdiv. rewrite (Qc_eq_bool_neq Ha).
  eexists. split; [reflexivity |].
  set (v := - (s0 - s1 - (s1 - two * s0 + s2) / two * (two * ofZ p - 1))
            / (two * ((s1 - two * s0 + s2) / two))).
  assert (Ev : v * D = (ofZ p - half) * D + (s0 - s1)).
  { assert (H0 : (1 : Qc) + 1 <> 0) by (rewrite <- two_is; apply two_neq_0).
    assert (HA' : s1 - (1 + 1) * s0 + s2 <> 0)
      by (rewrite <- two_is; exact HA).
    subst v D. unfold half. rewrite two_is. field. repeat split; assumption. }
  split.
  - apply Qcmult_lt_0_le_reg_r with (z := D); [exact HD |].
    rewrite Ev. apply Qcle_minus_iff.
    replace ((ofZ p - half) * D + (s0 - s1) + - ((ofZ p - half) * D))
      with (s0 - s1) by ring.
    apply Qc_diff_nonneg. exact H1.
  - apply Qcmult_lt_0_le_reg_r with (z := D); [exact HD |].
    rewrite Ev. apply Qcle_minus_iff.
    replace ((ofZ p + half) * D + - ((ofZ p - half) * D + (s0 - s1)))
      with (s0 - s2).
    + apply Qc_diff_nonneg. exact H2.
    + subst D. unfold half. rewrite two_is. field. discriminate.
Qed.

Lemma Qcle_by_diff (a b x y : Qc) : a <= b -> y - x = b - a -> x <= y.
Proof.
  intros H E. apply Qcle_minus_iff. apply Qcle_minus_iff in H.
  unfold Qcminus in E. rewrite E. exact H.
Qed.

Lemma sample_mod (Phi : list complex) (i j : Z) :
  (i mod Z.of_nat (List.length Phi) = j mod Z.of_nat (List.length Phi))%Z ->
  sample Phi i = sample Phi j.
Proof. intros E. unfold sample. rewrite E. reflexivity. Qed.

(** Around the peak of a correlation the x refiner moves by at most half a
    pixel from what the peak index alone reports. *)
Lemma refine_near (Phi : list complex) (p : Z) :
  all_real Phi -> (3 <= List.length Phi)%nat -> peak_index Phi = Ok p ->
  sample Phi (p - 1) <> sample Phi p \/ sample Phi (p + 1) <> sample Phi p ->
  (0 <= p < Z.of_nat (List.length Phi))%Z
  /\ exists q,
       refine_x_amended Phi p = Real q
       /\ reported (Z.of_nat (List.length Phi)) p - half <= q
       /\ q <= reported (Z.of_nat (List.length Phi)) p + half.
Proof.
  intros Hreal HL Hp Hn.
  assert (HPne : Phi <> []) by (destruct Phi; [cbn in HL; lia | discriminate]).
  destruct (peak_index_real Hreal HPne) as (p' & Hp' & Hrange & Hmax & _).
  rewrite Hp in Hp'. apply Ok_inj in Hp'. subst p'.
  split; [exact Hrange |].
  set (L := Z.of_nat (List.length Phi)) in *.
  assert (Hall : forall i, sample Phi i <= sample Phi p).
  { intros i. rewrite (sample_circular i HPne). apply Hmax. fold L.
    pose proof (Z.mod_pos_bound i L ltac:(lia)). lia. }
  unfold refine_x_amended, reported. fold L.
  destruct (Z.leb_spec (2 * p) L) as [Hh | Hh].
  - destruct (vertex_near p (Hall (p - 1)%Z) (Hall (p + 1)%Z) Hn)
      as (v & Ev & Lo & Hi).
    rewrite Ev. cbn [fneg]. eexists. split; [reflexivity |].
    rewrite ofZ_opp. split.
    + apply (Qcle_by_diff Hi). ring.
    + apply (Qcle_by_diff Lo). ring.
  - destruct (Z.ltb_spec p (L - 1)) as [Hl | Hl].
    + destruct (vertex_near p (Hall (p - 1)%Z) (Hall (p + 1)%Z) Hn)
        as (v & Ev & Lo & Hi).
      rewrite Ev. unfold fsub. cbn [fneg fadd]. eexists.
      split; [reflexivity |]. rewrite ofZ_sub. split.
      * apply (Qcle_by_diff Hi). ring.
      * apply (Qcle_by_diff Lo). ring.
    + assert (Ep : p = (L - 1)%Z) by lia.
      assert (E0 : sample Phi 0 = sample Phi (p + 1)).
      { apply sample_mod. fold L. replace (p + 1)%Z with L by lia.
        rewrite Z.mod_same by lia. apply Z.mod_0_l. lia. }
      replace (L - 2)%Z with (p - 1)%Z by lia.
      replace (L - 1)%Z with p by lia. rewrite E0.
      destruct (vertex_near 0 (Hall (p - 1)%Z) (Hall (p + 1)%Z) Hn)
        as (v & Ev & Lo & Hi).
      change (0 - 1, 0, 0 + 1)%Z with (-1, 0, 1)%Z in Ev.
      rewrite Ev. unfold fsub. cbn [fneg fadd]. eexists.
      split; [reflexivity |].
      replace (L - p)%Z with 1%Z by lia. rewrite ofZ_1.
      rewrite ofZ_0 in Lo, Hi. split.
      * apply (Qcle_by_diff Hi). ring.
      * apply (Qcle_by_diff Lo). ring.
Qed.

(* ================================================================== *)
(** * The tiles of the background estimator cover the image once *)
(* ================================================================== *)

Lemma firstn_add A (a k : nat) (l : list A) :
  firstn (a + k) l = firstn a l ++ firstn k (skipn a l).
Proof.
  revert l. induction a as [| a IH]; intros l; [reflexivity |].
  destruct l as [| v l]; [destruct k; reflexivity |].
  cbn [Nat.add firstn skipn app]. rewrite IH. reflexivity.
Qed.

(** Consecutive slices put end to end. *)
Lemma slices_concat A (l : list A) (b : nat -> Z) (n : nat) :
  b 0%nat = 0%Z ->
  (forall i, (i < n)%nat -> (b i <= b (S i))%Z) ->
  (b n <= Z.of_nat (List.length l))%Z ->
  List.concat (map (fun i => slice l (b i) (b (S i))) (seq 0 n))
  = firstn (Z.to_nat (b n)) l.
Proof.
  intros H0 Hmono. induction n as [| n IH]; intros Hn.
  - cbn. rewrite H0. reflexivity.
  - assert (Hpos : forall i, (i <= S n)%nat -> (0 <= b i)%Z).
    { induction i as [| i IHi]; intros Hi; [lia |].
      specialize (Hmono i ltac:(lia)). specialize (IHi ltac:(lia)). lia. }
    pose proof (Hmono n ltac:(lia)) as Hstep.
    pose proof (Hpos n ltac:(lia)) as Hbn.
    rewrite seq_S, map_app, concat_app. cbn [Nat.add map List.concat].
    rewrite app_nil_r.
    rewrite IH by (try (intros; apply Hmono); lia).
    unfold slice. rewrite !clamp_in by lia.
    rewrite <- firstn_add. f_equal. lia.
Qed.

Lemma tile_bounds (n N : Z) (k : nat) :
  (0 <= n)%Z -> (1 <= N)%Z ->
  slice_bound (ofZ (Z.of_nat k) * (ofZ n / ofZ N)) = (Z.of_nat k * n / N)%Z.
Proof. intros Hn HN. apply slice_bound_tile; lia. Qed.

(** Along one axis of [n] pixels cut into [N] tiles of size [n / N], the
    tiles put end to end are the whole axis. *)
Lemma tiles_of_axis A (l : list A) (N : Z) :
  (1 <= N)%Z ->
  let n := Z.of_nat (List.length l) in
  List.concat
    (map (fun j => slice l (slice_bound (ofZ j * (ofZ n / ofZ N)))
                           (slice_bound (ofZ (j + 1) * (ofZ n / ofZ N))))
         (tile_range N))
  = l.
Proof.
  intros HN n. unfold tile_range. rewrite map_map.
  set (b := fun k : nat => (Z.of_nat k * n / N)%Z).
  rewrite map_ext_in
    with (g := fun k => slice l (b k) (b (S k))).
  - rewrite slices_concat.
    + subst b. cbv beta. rewrite Z2Nat.id by lia.
      rewrite Z.mul_comm, Z.div_mul by lia. subst n. rewrite Nat2Z.id.
      apply firstn_all.
    + reflexivity.
    + intros i _. subst b. cbv beta. apply Z.div_le_mono; [lia |].
      subst n. nia.
    + subst b. cbv beta. rewrite Z2Nat.id by lia.
      rewrite Z.mul_comm, Z.div_mul by lia. subst n. lia.
  - intros k _. subst b. cbv beta.
    replace (Z.of_nat k + 1)%Z with (Z.of_nat (S k)) by lia.
    rewrite !tile_bounds by (subst n; lia). reflexivity.
Qed.

Lemma hstack_map J (F : J -> list Qc -> list Qc) (band : list (list Qc))
    (js : list J) :
  hstack (List.length band) (map (fun j => map (F j) band) js)
  = map (fun r => List.concat (map (fun j => F j r) js)) band.
Proof.
  induction js as [| j js IH]; cbn [map hstack List.concat].
  - induction band as [| r band IHb]; [reflexivity |].
    cbn [List.length repeat map]. rewrite IHb. reflexivity.
  - rewrite IH. clear IH.
    induction band as [| r band IHb]; [reflexivity |].
    cbn [map combine fst snd]. rewrite IHb. reflexivity.
Qed.

(** The tiles of lines 72-74, put back together, are the image: every
    pixel is in one tile and in one only. *)
Lemma reassembled_rows (data : ndarray2) (N : Z) :
  rect data -> (1 <= N)%Z ->
  reassembled data N (ofZ (Z.of_nat (ncols data)) / ofZ N)
                     (ofZ (Z.of_nat (nrows data)) / ofZ N)
  = rows data.
Proof.
  intros Hrect HN. unfold reassembled.
  set (tx := ofZ (Z.of_nat (ncols data)) / ofZ N).
  set (ty := ofZ (Z.of_nat (nrows data)) / ofZ N).
  rewrite map_ext_in
    with (g := fun i => slice (rows data) (slice_bound (ofZ i * ty))
                              (slice_bound (ofZ (i + 1) * ty))).
  - subst ty. unfold nrows. apply tiles_of_axis. exact HN.
  - intros i _. unfold tile, slice2, nrows. cbn [rows].
    set (band := slice (rows data) _ _).
    rewrite length_map.
    rewrite (hstack_map
               (fun j r => slice r (slice_bound (ofZ j * tx))
                                 (slice_bound (ofZ (j + 1) * tx)))).
    rewrite <- (map_id band) at 2. apply map_ext_in. intros r Hr.
    assert (Hlen : List.length r = ncols data).
    { apply (proj1 (Forall_forall _ _) Hrect).
      eapply slice_incl. exact Hr. }
    subst tx. rewrite <- Hlen. apply tiles_of_axis. exact HN.
Qed.

(* ================================================================== *)
(** * The measured shift does not depend on the brightness scale *)
(* ================================================================== *)

Lemma xcorr_rescaled (r c : list Qc) (k m : Qc) :
  List.length c = List.length r ->
  exists M, forall j, (j < List.length r)%nat ->
    xcorr r (rescaled k m c) j = k * xcorr r c j + M.
Proof.
  intros Hlen. set (L := List.length r) in *.
  exists (m * vsum (map (fun i => nth i r 0) (seq 0 L))).
  intros j Hj. unfold xcorr. fold L.
  rewrite <- vsum_map_scale, <- vsum_map_scale, <- vsum_map_add.
  f_equal. apply map_ext_in. intros i Hi. apply in_seq in Hi.
  assert (Hn : ((j + i) mod L < L)%nat) by (apply Nat.mod_upper_bound; lia).
  unfold rescaled.
  rewrite (@nth_indep _ (map (fun v => k * v + m) c) ((j + i) mod L) 0
                      (k * 0 + m))
    by (rewrite length_map, Hlen; exact Hn).
  rewrite (map_nth (fun v => k * v + m) c 0). ring.
Qed.

Lemma Qc_affine_le (k M a b : Qc) : 0 < k -> a <= b -> k * a + M <= k * b + M.
Proof.
  intros Hk H. apply Qcplus_le_compat; [| apply Qcle_refl].
  rewrite (Qcmult_comm k a), (Qcmult_comm k b).
  apply Qcmult_le_compat_r; [exact H | apply Qclt_le_weak; exact Hk].
Qed.

(** The first maximum of a sequence of real samples is where it was after
    an increasing affine change of the samples. *)
Lemma peak_index_rescaled (Phi Phi' : list complex) (k M : Qc) :
  all_real Phi -> all_real Phi' -> Phi <> [] ->
  List.length Phi' = List.length Phi ->
  0 < k ->
  (forall i, (0 <= i < Z.of_nat (List.length Phi))%Z ->
             sample Phi' i = k * sample Phi i + M) ->
  peak_index Phi' = peak_index Phi.
Proof.
  intros Hr Hr' Hne Hlen Hk Hs.
  assert (Hne' : Phi' <> [])
    by (destruct Phi'; [destruct Phi; [congruence | discriminate] |
                        discriminate]).
  destruct (peak_index_real Hr Hne) as (p & Hp & Rp & Mp & Fp).
  destruct (peak_index_real Hr' Hne') as (p' & Hp' & Rp' & Mp' & Fp').
  rewrite Hlen in Rp', Mp'.
  rewrite Hp, Hp'. f_equal.
  destruct (Z.lt_trichotomy p p') as [Hlt | [E | Hgt]]; [| exact (eq_sym E) |].
  - exfalso. specialize (Fp' p ltac:(lia)).
    rewrite (Hs p Rp), (Hs p' Rp') in Fp'.
    apply (Qclt_not_le _ _ Fp'). apply Qc_affine_le; [exact Hk |].
    apply Mp. exact Rp'.
  - exfalso. specialize (Fp p' ltac:(lia)).
    specialize (Mp' p Rp). rewrite (Hs p Rp), (Hs p' Rp') in Mp'.
    apply (Qclt_not_le _ _ Fp).
    apply Qcmult_lt_0_le_reg_r with (z := k); [exact Hk |].
    apply Qcle_minus_iff. apply Qcle_minus_iff in Mp'.
    replace (sample Phi p' * k + - (sample Phi p * k))
      with (k * sample Phi p' + M + - (k * sample Phi p + M)) by ring.
    exact Mp'.
Qed.

Lemma Qc_scale_zero (k v : Qc) : k <> 0 -> k * v = 0 <-> v = 0.
Proof.
  intros Hk. split.
  - intros E. apply Qcmult_integral in E. tauto.
  - intros ->. ring.
Qed.

Lemma fdiv_scaled (k a b : Qc) :
  k <> 0 -> fdiv (- (k * b)) (two * (k * a)) = fdiv (- b) (two * a).
Proof.
  intros Hk. unfold fdiv.
  destruct (Qc_eq_dec a 0) as [-> | Ha].
  - replace (two * (k * 0)) with (0 : Qc) by ring.
    replace (two * 0) with (0 : Qc) by ring.
    rewrite !Qc_eq_bool_refl.
    destruct (Qc_eq_dec b 0) as [-> | Hb].
    + replace (- (k * 0)) with (0 : Qc) by ring.
      replace (- 0) with (0 : Qc) by ring.
      rewrite !Qc_eq_bool_refl. reflexivity.
    + assert (H1 : - (k * b) <> 0).
      { intro E. apply Hb. apply (proj1 (Qc_scale_zero b Hk)).
        transitivity (- - (k * b)); [ring | rewrite E; ring]. }
      assert (H2 : - b <> 0).
      { intro E. apply Hb. transitivity (- - b); [ring | rewrite E; ring]. }
      rewrite (Qc_eq_bool_neq H1), (Qc_eq_bool_neq H2). reflexivity.
  - assert (H1 : two * a <> 0).
    { intro E. apply Qcmult_integral in E.
      destruct E as [E | E]; [exact (two_neq_0 E) | exact (Ha E)]. }
    assert (H2 : two * (k * a) <> 0).
    { intro E. apply Qcmult_integral in E.
      destruct E as [E | E]; [exact (two_neq_0 E) |].
      apply Ha. apply (proj1 (Qc_scale_zero a Hk)). exact E. }
    rewrite (Qc_eq_bool_neq H1), (Qc_eq_bool_neq H2). f_equal.
    field. repeat split; [exact Ha | exact two_neq_0 | exact Hk].
Qed.

(** The vertex of the fitted parabola is where it was after an affine
    change of the three ordinates. *)
Lemma vertex_rescaled (xs : Z * Z * Z) (k M y0 y1 y2 : Qc) :
  k <> 0 ->
  vertex xs (k * y0 + M, k * y1 + M, k * y2 + M) = vertex xs (y0, y1, y2).
Proof.
  intros Hk. destruct xs as [[x0 x1] x2]. unfold vertex, polyfit2.
  destruct ((x0 =? x1)%Z || (x1 =? x2)%Z || (x0 =? x2)%Z) eqn:E;
    [reflexivity |].
  apply orb_false_elim in E. destruct E as [E E02].
  apply orb_false_elim in E. destruct E as [E01 E12].
  apply Z.eqb_neq in E01, E12, E02.
  cbv zeta.
  set (a := ((y2 - y1) / (ofZ x2 - ofZ x1) - (y1 - y0) / (ofZ x1 - ofZ x0))
            / (ofZ x2 - ofZ x0)).
  set (b := (y1 - y0) / (ofZ x1 - ofZ x0) - a * (ofZ x0 + ofZ x1)).
  pose proof (ofZ_sub_neq E01) as D01.
  pose proof (ofZ_sub_neq E12) as D12.
  pose proof (ofZ_sub_neq E02) as D02.
  rewrite <- (fdiv_scaled a b Hk). f_equal.
  - subst b a. apply f_equal. field. repeat split; assumption.
  - subst a. apply f_equal. field. repeat split; assumption.
Qed.

(** Both refiners read the correlation through its samples only. *)
Lemma refiners_rescaled (Phi Phi' : list complex) (k M : Qc) (p : Z) :
  Phi <> [] ->
  List.length Phi' = List.length Phi ->
  k <> 0 ->
  (forall i, (0 <= i < Z.of_nat (List.length Phi))%Z ->
             sample Phi' i = k * sample Phi i + M) ->
  refine_x_amended Phi' p = refine_x_amended Phi p
  /\ refine_y_amended Phi' p = refine_y_amended Phi p.
Proof.
  intros Hne Hlen Hk Hs.
  assert (Hne' : Phi' <> [])
    by (destruct Phi'; [destruct Phi; [congruence | discriminate] |
                        discriminate]).
  assert (HL : (0 < Z.of_nat (List.length Phi))%Z)
    by (destruct Phi; [congruence | cbn [List.length]; lia]).
  assert (Hall : forall i, sample Phi' i = k * sample Phi i + M).
  { intros i. rewrite (sample_circular i Hne'), (sample_circular i Hne).
    rewrite Hlen. apply Hs.
    pose proof (Z.mod_pos_bound i _ HL). lia. }
  unfold refine_x_amended, refine_y_amended. rewrite Hlen.
  rewrite !Hall, !(vertex_rescaled _ M _ _ _ Hk). split; reflexivity.
Qed.

(** One axis of a rescaled check image: same peak, same refinement. *)
Lemma axis_rescaled (r c : list Qc) (k m : Qc) :
  r <> [] -> List.length c = List.length r -> 0 < k ->
  exists Phi Phi' p,
    correlation r c = Ok Phi
    /\ correlation r (rescaled k m c) = Ok Phi'
    /\ List.length Phi = List.length r
    /\ List.length Phi' = List.length r
    /\ peak_index Phi = Ok p /\ peak_index Phi' = Ok p
    /\ (0 <= p < Z.of_nat (List.length r))%Z
    /\ refine_x_amended Phi' p = refine_x_amended Phi p
    /\ refine_y_amended Phi' p = refine_y_amended Phi p.
Proof.
  intros Hne Hlen Hk.
  assert (Hlen' : List.length (rescaled k m c) = List.length r)
    by (unfold rescaled; rewrite length_map; exact Hlen).
  destruct (@correlation_xcorr r c Hne Hlen) as (Phi & C & L & R & S).
  destruct (@correlation_xcorr r (rescaled k m c) Hne Hlen')
    as (Phi' & C' & L' & R' & S').
  destruct (@xcorr_rescaled r c k m Hlen) as (M & HM).
  assert (HPne : Phi <> [])
    by (destruct Phi; [destruct r; [congruence | discriminate] |
                        discriminate]).
  assert (Hs : forall i, (0 <= i < Z.of_nat (List.length Phi))%Z ->
                         sample Phi' i = k * sample Phi i + M).
  { intros i Hi. rewrite L in Hi.
    replace i with (Z.of_nat (Z.to_nat i)) by lia.
    rewrite S', S, HM by lia. reflexivity. }
  assert (Hk0 : k <> 0).
  { intro E. rewrite E in Hk. exact (Qclt_not_eq _ _ Hk eq_refl). }
  pose proof (@peak_index_rescaled Phi Phi' k M R R' HPne
                ltac:(congruence) Hk Hs) as P.
  destruct (peak_index_real R HPne) as (p & Hp & Rp & _).
  destruct (@refiners_rescaled Phi Phi' k M p HPne ltac:(congruence) Hk0 Hs)
    as [Vx Vy].
  exists Phi, Phi', p. rewrite P, <- L.
  repeat split; try assumption; try lia; congruence.
Qed.

(* ================================================================== *)
(** * What a call returns and what it stores *)
(* ================================================================== *)

Lemma returns_mbind A B (Q : B -> Donuts -> Prop) (c : M A) (k : A -> M B) :
  (forall a, returns_with Q (k a)) -> returns_with Q (mbind c k).
Proof.
  intros Hk s b. unfold mbind. destruct (c s) as [s' r].
  destruct r as [a | e |]; [apply Hk | discriminate | discriminate].
Qed.

(** Line 207. *)
Lemma returns_solution :
  returns_with stored
    (sx <== attr_opt "solution_n_x" solution_n_x ;;
     sy <== attr_opt "solution_n_y" solution_n_y ;;
     mret (sx, sy))%m.
Proof.
  intros s r. unfold mbind, attr_opt, mret, stored.
  destruct (solution_n_x s) as [sx |] eqn:Ex; [| discriminate].
  destruct (solution_n_y s) as [sy |] eqn:Ey; [| discriminate].
  cbn. intros E. apply Ok_inj in E. subst r. rewrite Ex, Ey.
  split; reflexivity.
Qed.

Lemma returns_measure_shift (c : fits) :
  returns_with stored (measure_shift c).
Proof.
  unfold measure_shift.
  repeat first [ apply returns_solution | apply returns_mbind; intro ].
Qed.

(* ================================================================== *)
(** * Calls of the constructor by keywords *)
(* ================================================================== *)

Lemma unknown_keyword (kwargs : list (string * pyval)) (k : string)
    (v : pyval) :
  In (k, v) kwargs -> ~ In k init_params ->
  forallb (fun kv => existsb (String.eqb (fst kv)) init_params) kwargs
  = false.
Proof.
  intros Hin Hk.
  destruct (forallb _ kwargs) eqn:E; [| reflexivity].
  exfalso. rewrite forallb_forall in E. specialize (E (k, v) Hin).
  cbn [fst] in E. apply existsb_exists in E. destruct E as (n & Hn & En).
  apply String.eqb_eq in En. subst n. exact (Hk Hn).
Qed.

(* ================================================================== *)
(** * The properties the specification states *)
(* ================================================================== *)

Section Properties.

Open Scope m_scope.

(** C1, as amended.  On the x axis, for a correlation of length [L >= 3]
    and a peak index [0 <= p < L], lines 139-170 never raise and store in
    [solution_n_x] the value of a three-way split:
    for [p <= L/2] (the peak at index 0 included, its left neighbour being
    the sample at index [L - 1]) minus the vertex of the parabola through
    the samples at coordinates [p - 1, p, p + 1];
    for [L/2 < p < L - 1] the length [L] minus that vertex;
    for [p = L - 1] one minus the vertex of the parabola through the samples
    [L - 2, L - 1, 0] at coordinates [-1, 0, 1];
    the vertex being [-b / (2 a)]. *)
Theorem refine_x_three_cases (Phi : list complex) (p : Z) (rest : list Z)
    (self : Donuts) :
  let L := Z.of_nat (List.length Phi) in
  let around :=
    vertex (p - 1, p, p + 1)%Z
           (sample Phi (p - 1), sample Phi p, sample Phi (p + 1)) in
  let wrapped :=
    vertex (-1, 0, 1)%Z
           (sample Phi (L - 2), sample Phi (L - 1), sample Phi 0) in
  (3 <= L)%Z ->
  (0 <= p < L)%Z ->
  exists v,
    refine_x Phi (p :: rest) self = (set_solution_n_x v self, Ok tt)
    /\ ((2 * p <= L)%Z -> v = fneg around)
    /\ ((L < 2 * p)%Z -> (p < L - 1)%Z -> v = fsub (ofZ L) around)
    /\ (p = (L - 1)%Z -> v = fsub 1 wrapped).
Proof.
  intros L around wrapped HL Hp.
  exists (refine_x_amended Phi p). split.
  - apply refine_x_value; assumption.
  - unfold refine_x_amended. fold L. fold around. fold wrapped.
    destruct (Z.leb_spec (2 * p) L) as [Hlow | Hhigh].
    + repeat split; intros; try reflexivity; lia.
    + destruct (Z.ltb_spec p (L - 1)) as [Hmid | Hlast].
      * repeat split; intros; try reflexivity; lia.
      * repeat split; intros; try reflexivity; lia.
Qed.


Lemma refine_x_three_cases_witness :
  (3 <= Z.of_nat (List.length Phi5))%Z
  /\ (0 <= 3 < Z.of_nat (List.length Phi5))%Z
  /\ exists v,
       refine_x Phi5 [3%Z] (instance_of img3 3 true false)
       = (set_solution_n_x v (instance_of img3 3 true false), Ok tt)
       /\ v = fsub (ofZ 5)
                   (vertex (2, 3, 4)%Z
                      (sample Phi5 2, sample Phi5 3, sample Phi5 4)).
Proof.
  split; [simpl; lia |]. split; [simpl; lia |].
  destruct (@refine_x_three_cases Phi5 3 [] (instance_of img3 3 true false))
    as (v & Hrun & _ & Hmid & _); [simpl; lia | simpl; lia |].
  exists v. split; [exact Hrun |].
  apply Hmid; simpl; lia.
Defined.


(** C1, as the specification states it, fails: for the correlation
    [0, 0, 1, 4, 2] and the peak index 3 (in the open interval from L/2 to
    L - 1) the x axis stores 19/10, which is L minus the vertex 31/10, and
    not L plus the vertex, 81/10. *)
Lemma refiner_not_as_claimed :
  ~ refiner_as_claimed Phi5 3 (instance_of img3 3 true false).
Proof.
  intros [Hx _]. vm_compute in Hx. discriminate Hx.
Qed.




(** C10.  A call of [measure_shift], whether it returns or raises, leaves
    [ref_data], [ref_xproj], [ref_yproj] and the geometry attributes
    [boarder], [dimx], [dimy], [w_dimx], [w_dimy], [tilesizex], [tilesizey],
    [ntiles] and [texp] as they were; so does the call through the
    property. *)
Theorem measure_shift_keeps_reference (checkimage : fits) (self : Donuts) :
  let after := fst (measure_shift checkimage self) in
  let after' := fst (invoke_measure_shift checkimage self) in
  (ref_data after = ref_data self /\ ref_xproj after = ref_xproj self
   /\ ref_yproj after = ref_yproj self /\ boarder after = boarder self
   /\ dimx after = dimx self /\ dimy after = dimy self
   /\ w_dimx after = w_dimx self /\ w_dimy after = w_dimy self
   /\ tilesizex after = tilesizex self /\ tilesizey after = tilesizey self
   /\ ntiles after = ntiles self /\ texp after = texp self)
  /\ reference_state after = reference_state self
  /\ reference_state after' = reference_state self.
Proof.
  intros after after'.
  pose proof (keeps_measure_shift checkimage self) as H. fold after in H.
  pose proof (keeps_invoke_measure_shift checkimage self) as H'.
  fold after' in H'.
  split; [| split; assumption].
  unfold reference_state in H.
  repeat split; congruence.
Qed.

(** C2.  Evaluating [d.measure_shift(checkimage=c)] raises TypeError for
    every instance and every argument, before the body of the method runs:
    the decorator of line 93 makes the attribute access call the method
    with the instance alone.  No attribute is assigned. *)
Theorem invoke_measure_shift_raises (c : fits) (self : Donuts) :
  invoke_measure_shift c self = (self, Raise TypeError).
Proof. reflexivity. Qed.

(** C5.  [__init__] returns for no arguments at all: when the file has the
    unit and the header has the exposure, line 33 raises NameError for the
    bare name [dx], whether the sides of the image are multiples of 16 or
    not; otherwise the file access has already raised. *)
Theorem init_never_returns (refimage : fits) (image_ext : Z)
    (exposure : string) (normalise subtract_bkg : bool) (boarder ntiles : Z) :
  exists e,
    __init__ refimage image_ext exposure normalise subtract_bkg boarder ntiles
    = Raise e
    /\ ((exists u t, getitem refimage image_ext = Ok u
                     /\ header_get (header u) exposure = Ok t)
        -> e = NameError "dx").
Proof.
  unfold __init__.
  destruct (getitem refimage image_ext) as [u | e |] eqn:Eu.
  - cbn [bind].
    assert (Hh : forall h, exists r,
               header_get h exposure = r /\ r <> NotModelled).
    { induction h as [| [k v] h IH]; cbn [header_get].
      - eexists; split; [reflexivity | discriminate].
      - destruct (String.eqb k exposure).
        + eexists; split; [reflexivity | discriminate].
        + exact IH. }
    destruct (Hh (header u)) as (r & Er & Hr). rewrite Er.
    destruct r as [t | e |]; [| | congruence].
    + cbn [bind]. destruct (shape (data u)) as [sy sx].
      exists (NameError "dx"). split; [reflexivity | reflexivity].
    + exists e. split; [reflexivity |].
      intros (u' & t & Hu' & Ht). congruence.
  - exists e. split; [reflexivity |].
    intros (u' & t & Hu' & Ht). congruence.
  - unfold getitem in Eu.
    destruct ((0 <=? _)%Z && _)%bool; [| discriminate].
    destruct (nth_error refimage _); discriminate.
Qed.

(** C7, as amended.  For a check image whose raw shape differs from that of
    the reference, [measure_shift] does not fail with DimensionMismatch: it
    cuts the region of the reference geometry (rows [boarder] to
    [dimy - boarder], columns [boarder] to [dimx - boarder]) out of whatever
    array the file holds, and what it returns or raises depends on the file
    through that region only.  Two check images with the same region,
    whatever their raw shapes, give the same outcome. *)
Theorem measure_shift_sees_only_the_crop (self : Donuts) (c1 c2 : fits) (u1 u2 : hdu) :
  getitem c1 (image_ext self) = Ok u1 ->
  getitem c2 (image_ext self) = Ok u2 ->
  cropped self u1 = cropped self u2 ->
  snd (measure_shift c1 self) = snd (measure_shift c2 self).
Proof.
  intros H1 H2 Hc. unfold cropped in Hc.
  pose proof blind_refine_x as Bx. pose proof blind_refine_y as By.
  unfold measure_shift.
  repeat mstep. rewrite H1, H2. repeat mstep. rewrite Hc.
  match goal with
  | |- snd (?f ?s1) = snd (?f ?s2) =>
      assert (B : blind_to_checkimage f) by blind;
      apply (B s1 s2)
  end.
  reflexivity.
Qed.

Lemma measure_shift_sees_only_the_crop_witness :
  getitem (image_of img3 3) (image_ext (instance_of img3 3 true false))
  = Ok (Hdu [("EXPTIME"%string, 1)] (px img3 3))
  /\ getitem (image_of img4 4) (image_ext (instance_of img3 3 true false))
     = Ok (Hdu [("EXPTIME"%string, 1)] (px img4 4))
  /\ shape (px img4 4) <> shape (px img3 3)
  /\ snd (measure_shift (image_of img3 3) (instance_of img3 3 true false))
     = snd (measure_shift (image_of img4 4) (instance_of img3 3 true false)).
Proof.
  split; [reflexivity |]. split; [reflexivity |].
  split; [discriminate |].
  apply (@measure_shift_sees_only_the_crop
           (instance_of img3 3 true false) (image_of img3 3) (image_of img4 4)
           (Hdu [("EXPTIME"%string, 1)] (px img3 3))
           (Hdu [("EXPTIME"%string, 1)] (px img4 4)));
    reflexivity.
Defined.

(** C7, as the specification states it, fails: the reference is 3 by 3, the
    check image is 4 by 4, and the call does not raise DimensionMismatch (it
    returns a pair). *)
Lemma raw_shape_not_checked :
  ~ raw_shape_checked (instance_of img3 3 true false) (image_of img4 4).
Proof.
  intros H.
  specialize (H (Hdu [("EXPTIME"%string, 1)] (px img4 4)) eq_refl).
  assert (Hs : shape (data (Hdu [("EXPTIME"%string, 1)] (px img4 4)))
               <> (dy (instance_of img3 3 true false),
                   dx (instance_of img3 3 true false)))
    by discriminate.
  specialize (H Hs). vm_compute in H. discriminate H.
Qed.

(** C9.  With background subtraction switched on (the default), the body
    of [measure_shift] raises NameError at line 106 for every check image
    that the file holds, the reference image itself included: the bare name
    [__generate_bkg_map] is not bound. *)
Theorem measure_shift_with_background_raises (c : fits) (self : Donuts)
    (u : hdu) :
  subtract_bkg self = true ->
  getitem c (image_ext self) = Ok u ->
  snd (measure_shift c self)
  = Raise (NameError "_Donuts__generate_bkg_map").
Proof.
  intros Hsb Hu. unfold measure_shift.
  repeat mstep. rewrite Hu. repeat mstep. rewrite Hsb. cbv iota.
  reflexivity.
Qed.

Lemma measure_shift_with_background_raises_witness :
  subtract_bkg (instance_of img3 3 true true) = true
  /\ getitem (refimage (instance_of img3 3 true true))
             (image_ext (instance_of img3 3 true true))
     = Ok (Hdu [("EXPTIME"%string, 1)] (px img3 3))
  /\ snd (measure_shift (refimage (instance_of img3 3 true true))
                        (instance_of img3 3 true true))
     = Raise (NameError "_Donuts__generate_bkg_map").
Proof.
  split; [reflexivity |]. split; [reflexivity |].
  apply (@measure_shift_with_background_raises
           (refimage (instance_of img3 3 true true))
           (instance_of img3 3 true true)
           (Hdu [("EXPTIME"%string, 1)] (px img3 3)));
    reflexivity.
Defined.






End Properties.

(* ================================================================== *)
(** * Further properties of the class *)
(* ================================================================== *)

Section Further.

Open Scope m_scope.

(** X1.  [measure_shift] returns on the path that runs.  With background
    subtraction off, when the file has the unit asked for, the exposure is
    not zero (or normalisation is off) and the projections of the check
    image are as long as those of the reference, at least 3, the call
    raises nothing: both correlations exist, both have a peak, the call
    returns the value of the x refiner at the x peak and of the y refiner at
    the y peak, and it leaves these two values and the check projections in
    the attributes of the instance. *)
Theorem measure_shift_returns (c : fits) (self : Donuts) (u : hdu)
    (cd : ndarray2) :
  subtract_bkg self = false ->
  getitem c (image_ext self) = Ok u ->
  processed self u = Ok cd ->
  List.length (sum_axis0 cd) = List.length (ref_xproj self) ->
  List.length (sum_axis1 cd) = List.length (ref_yproj self) ->
  (3 <= List.length (ref_xproj self))%nat ->
  (3 <= List.length (ref_yproj self))%nat ->
  exists Phix Phiy ix iy,
    correlation (ref_xproj self) (sum_axis0 cd) = Ok Phix
    /\ correlation (ref_yproj self) (sum_axis1 cd) = Ok Phiy
    /\ peak_index Phix = Ok ix
    /\ peak_index Phiy = Ok iy
    /\ measure_shift c self
       = (after_call self c cd (refine_x_amended Phix ix)
                     (refine_y_amended Phiy iy),
          Ok (refine_x_amended Phix ix, refine_y_amended Phiy iy)).
Proof.
  intros Hsb Hu Hcd Hlx Hly H3x H3y.
  assert (Hnx : ref_xproj self <> [])
    by (destruct (ref_xproj self); [cbn in H3x; lia | discriminate]).
  assert (Hny : ref_yproj self <> [])
    by (destruct (ref_yproj self); [cbn in H3y; lia | discriminate]).
  pose proof (@correlation_same_length _ _ Hlx Hnx) as Cx.
  pose proof (@correlation_same_length _ _ Hly Hny) as Cy.
  set (Phix := cconv _ _) in Cx. set (Phiy := cconv _ _) in Cy.
  assert (Lx : List.length Phix = List.length (ref_xproj self))
    by (subst Phix; rewrite length_cconv, length_conjugate; cbn [samples];
        apply length_map).
  assert (Ly : List.length Phiy = List.length (ref_yproj self))
    by (subst Phiy; rewrite length_cconv, length_conjugate; cbn [samples];
        apply length_map).
  destruct (correlation_real _ _ Cx) as [Rx Nx].
  destruct (correlation_real _ _ Cy) as [Ry Ny].
  destruct (peak_index_real Rx Nx) as (ix & Px & Bx & _).
  destruct (peak_index_real Ry Ny) as (iy & Py & By & _).
  exists Phix, Phiy, ix, iy.
  repeat split; try assumption.
  apply measure_shift_run with (u := u); try assumption; lia.
Qed.

Lemma measure_shift_returns_witness :
  exists Phix Phiy ix iy,
    correlation (ref_xproj (instance_of img3 3 false false))
                (sum_axis0 (px img3 3)) = Ok Phix
    /\ correlation (ref_yproj (instance_of img3 3 false false))
                   (sum_axis1 (px img3 3)) = Ok Phiy
    /\ peak_index Phix = Ok ix
    /\ peak_index Phiy = Ok iy
    /\ measure_shift (image_of img3 3) (instance_of img3 3 false false)
       = (after_call (instance_of img3 3 false false) (image_of img3 3)
                     (px img3 3) (refine_x_amended Phix ix)
                     (refine_y_amended Phiy iy),
          Ok (refine_x_amended Phix ix, refine_y_amended Phiy iy)).
Proof.
  apply (@measure_shift_returns
           (image_of img3 3) (instance_of img3 3 false false)
           (Hdu [("EXPTIME"%string, 1)] (px img3 3)) (px img3 3));
    try reflexivity; vm_compute; lia.
Defined.





(** X4.  A file that lacks the unit [image_ext]: the call raises IndexError
    at line 101, after having stored the file in [self.checkimage] and
    nothing else. *)
Theorem measure_shift_missing_unit (c : fits) (self : Donuts) :
  (image_ext self < - Z.of_nat (List.length c)
   \/ Z.of_nat (List.length c) <= image_ext self)%Z ->
  measure_shift c self = (set_checkimage c self, Raise IndexError).
Proof.
  intros H. unfold measure_shift. repeat mstep.
  rewrite (getitem_out_of_range c H). reflexivity.
Qed.

Lemma measure_shift_missing_unit_witness :
  measure_shift [] (instance_of img3 3 true true)
  = (set_checkimage [] (instance_of img3 3 true true), Raise IndexError).
Proof.
  apply (@measure_shift_missing_unit [] (instance_of img3 3 true true)).
  right. simpl. lia.
Defined.



(** X6.  A check image whose processed crop has another width or another
    height than the reference projections (neither side of length 1) makes
    [measure_shift] raise ValueError at line 123 or 124 at the latest; the
    file, the crop and its projections have been stored by then, no
    solution. *)
Theorem measure_shift_size_mismatch (c : fits) (self : Donuts) (u : hdu)
    (cd : ndarray2) :
  subtract_bkg self = false ->
  getitem c (image_ext self) = Ok u ->
  processed self u = Ok cd ->
  ((2 <= List.length (ref_xproj self))%nat
   /\ (2 <= List.length (sum_axis0 cd))%nat
   /\ List.length (sum_axis0 cd) <> List.length (ref_xproj self))
  \/ ((2 <= List.length (ref_yproj self))%nat
      /\ (2 <= List.length (sum_axis1 cd))%nat
      /\ List.length (sum_axis1 cd) <> List.length (ref_yproj self)) ->
  measure_shift c self = (after_projections self c cd, Raise ValueError).
Proof.
  intros Hsb Hu Hcd H.
  to_the_transforms Hsb Hu Hcd.
  cbn [after_projections ref_xproj ref_yproj check_xproj check_yproj
       set_check_yproj set_check_xproj set_check_data set_checkimage].
  do 4 transform_or_stop.
  destruct H as [(Hr & Hk & Hne) | (Hr & Hk & Hne)].
  - rewrite (@spec_mul_sizes _ _ Hr Hk Hne). reflexivity.
  - transform_or_stop. rewrite (@spec_mul_sizes _ _ Hr Hk Hne). reflexivity.
Qed.

Lemma measure_shift_size_mismatch_witness :
  measure_shift (image_of [[1; 2]; [3; 4]]%Z 2)
                (instance_of img3 3 false false)
  = (after_projections (instance_of img3 3 false false)
                       (image_of [[1; 2]; [3; 4]]%Z 2)
                       (px [[1; 2]; [3; 4]]%Z 2),
     Raise ValueError).
Proof.
  apply (@measure_shift_size_mismatch
           (image_of [[1; 2]; [3; 4]]%Z 2) (instance_of img3 3 false false)
           (Hdu [("EXPTIME"%string, 1)] (px [[1; 2]; [3; 4]]%Z 2))
           (px [[1; 2]; [3; 4]]%Z 2)).
  - reflexivity.
  - reflexivity.
  - reflexivity.
  - left. vm_compute. repeat split; lia.
Defined.

(** X7.  A boarder that leaves nothing of the image: when the upper bound
    of the crop on one axis, [dimx - boarder] or [dimy - boarder], is not
    above the lower bound [boarder], the crop has no column or no row, its
    projection is empty and [measure_shift] raises ValueError at line 117
    or 118 at the latest. *)
Theorem measure_shift_boarder_too_wide (c : fits) (self : Donuts) (u : hdu)
    (cd : ndarray2) :
  subtract_bkg self = false ->
  getitem c (image_ext self) = Ok u ->
  processed self u = Ok cd ->
  (0 <= slice_bound (dimx self - ofZ (boarder self)) <= boarder self)%Z
  \/ (0 <= slice_bound (dimy self - ofZ (boarder self)) <= boarder self)%Z ->
  measure_shift c self = (after_projections self c cd, Raise ValueError).
Proof.
  intros Hsb Hu Hcd H.
  destruct (@processed_shape _ _ _ Hcd) as [Hc Hr].
  to_the_transforms Hsb Hu Hcd.
  do 2 transform_or_stop.
  destruct H as [H | H].
  - assert (E1 : sum_axis0 cd = []).
    { apply sum_axis0_no_columns. rewrite Hc. unfold cropped, slice2.
      cbn [ncols]. apply slice_len_empty. exact H. }
    rewrite E1. reflexivity.
  - transform_or_stop.
    assert (E2 : sum_axis1 cd = []).
    { apply sum_axis1_no_rows. rewrite Hr. unfold cropped, slice2, nrows.
      cbn [rows]. rewrite (slice_empty _ H). reflexivity. }
    rewrite E2. reflexivity.
Qed.

Lemma measure_shift_boarder_too_wide_witness :
  measure_shift (image_of img4 4) (instance_with_boarder img4 4 2)
  = (after_projections (instance_with_boarder img4 4 2) (image_of img4 4)
                       (Arr2 [] 0),
     Raise ValueError).
Proof.
  apply (@measure_shift_boarder_too_wide
           (image_of img4 4) (instance_with_boarder img4 4 2)
           (Hdu [("EXPTIME"%string, 1)] (px img4 4)) (Arr2 [] 0)).
  - reflexivity.
  - reflexivity.
  - reflexivity.
  - left. vm_compute. split; discriminate.
Defined.

(** X8.  [measure_shift] reads no attribute left by an earlier call: on two
    instances with the same reference state a call with the same file ends
    the same way (same pair, or same exception), whatever [checkimage],
    [check_data], [check_bkgmap], the check projections and the stored
    solution were before; when it returns, the two instances agree on all
    attributes but [check_bkgmap]. *)
Theorem measure_shift_forgets_earlier_calls (c : fits) (s1 s2 : Donuts) :
  reference_state s1 = reference_state s2 ->
  snd (measure_shift c s1) = snd (measure_shift c s2)
  /\ (forall r, snd (measure_shift c s1) = Ok r ->
       agree (Assigned true true false true true true true)
             (fst (measure_shift c s1)) (fst (measure_shift c s2))).
Proof.
  intros H. apply carries_measure_shift.
  split; [exact H |]. repeat split; discriminate.
Qed.

Lemma measure_shift_forgets_earlier_calls_witness :
  snd (measure_shift (image_of img3 3) (instance_of img3 3 false false))
  = snd (measure_shift (image_of img3 3)
           (fst (measure_shift (image_of img4 4)
                   (instance_of img3 3 false false)))).
Proof.
  apply (@measure_shift_forgets_earlier_calls
           (image_of img3 3) (instance_of img3 3 false false)
           (fst (measure_shift (image_of img4 4)
                   (instance_of img3 3 false false)))).
  reflexivity.
Defined.

(** X9.  Each call measures against the reference alone: after any call,
    returned or not, a call with a file [c2] ends as it would have ended
    on the instance before that call. *)
Theorem measure_shift_twice (c1 c2 : fits) (self : Donuts) :
  snd (measure_shift c2 (fst (measure_shift c1 self)))
  = snd (measure_shift c2 self).
Proof.
  apply carries_measure_shift.
  split; [apply keeps_measure_shift |]. repeat split; discriminate.
Qed.

(** X10.  A shift along x is measured exactly.  With background
    subtraction off, when the x projection of the processed check data is
    the reference projection shifted circularly by [d] pixels and the y
    projection is unchanged, the reference projections being at least 3
    long, the x one aperiodic and the y one not flat, [measure_shift]
    returns [-d] for [2 d <= L], [L - d] otherwise, and 0 along y. *)
Theorem measure_shift_recovers_x_shift (c : fits) (self : Donuts) (u : hdu)
    (cd : ndarray2) (d : nat) :
  subtract_bkg self = false ->
  getitem c (image_ext self) = Ok u ->
  processed self u = Ok cd ->
  sum_axis0 cd = roll d (ref_xproj self) ->
  sum_axis1 cd = ref_yproj self ->
  (3 <= List.length (ref_xproj self))%nat ->
  (3 <= List.length (ref_yproj self))%nat ->
  (d < List.length (ref_xproj self))%nat ->
  aperiodic (ref_xproj self) ->
  ~ constant (ref_yproj self) ->
  snd (measure_shift c self)
  = Ok (Real (reported (Z.of_nat (List.length (ref_xproj self)))
                       (Z.of_nat d)),
        Real 0).
Proof.
  intros Hsb Hu Hcd Hx Hy H3x H3y Hd Hap Hfy.
  destruct (shifted_projection H3x Hd Hap) as (Phix & Cx & Lx & Px & Vx).
  destruct (identical_projection H3y Hfy) as (Phiy & Cy & Ly & Py & _ & Vy).
  rewrite (@measure_shift_run c self u cd Phix Phiy (Z.of_nat d) 0);
    try assumption.
  - cbn [snd]. rewrite Vx, Vy. reflexivity.
  - rewrite Hx. exact Cx.
  - rewrite Hy. exact Cy.
  - lia.
  - lia.
  - lia.
  - lia.
Qed.

Lemma measure_shift_recovers_x_shift_witness :
  snd (measure_shift (image_of [[3; 1; 2]; [1; 1; 5]; [1; 0; 0]]%Z 3)
                     (instance_of img3 3 false false))
  = Ok (Real (reported 3 1), Real 0).
Proof.
  apply (@measure_shift_recovers_x_shift
           (image_of [[3; 1; 2]; [1; 1; 5]; [1; 0; 0]]%Z 3)
           (instance_of img3 3 false false)
           (Hdu [("EXPTIME"%string, 1)]
                (px [[3; 1; 2]; [1; 1; 5]; [1; 0; 0]]%Z 3))
           (px [[3; 1; 2]; [1; 1; 5]; [1; 0; 0]]%Z 3) 1%nat).
  - reflexivity.
  - reflexivity.
  - reflexivity.
  - reflexivity.
  - reflexivity.
  - simpl. lia.
  - simpl. lia.
  - simpl. lia.
  - intros j Hj E.
    pose proof (f_equal (fun l => this (nth 0 l 0)) E) as E0.
    destruct j as [| [| [| j]]]; try (simpl in Hj; lia);
      vm_compute in E0; discriminate E0.
  - intros [v Hv].
    pose proof (f_equal (fun l => nth 0 l 0) Hv) as E0.
    pose proof (f_equal (fun l => nth 1 l 0) Hv) as E1.
    vm_compute in E0, E1. rewrite <- E0 in E1. discriminate E1.
Defined.





(** X13.  [d.print_summary()] (line 212) returns for no instance.  When
    [dimx] and [dimy] are floats (lines 36-37) line 85 raises ValueError;
    otherwise, with background subtraction on, line 91 raises ValueError
    for the tile sizes, which the true division of lines 49-50 makes
    floats; otherwise the function returns None and calling None raises
    TypeError.  No attribute is changed. *)
Theorem invoke_print_summary_raises (funny_shape : bool) (self : Donuts) :
  invoke_print_summary funny_shape self
  = (self,
     Raise (if funny_shape || subtract_bkg self then ValueError
            else TypeError)).
Proof.
  unfold invoke_print_summary, print_summary, mbind, attr, lift, mret.
  destruct funny_shape; [reflexivity |].
  cbn [format_d forallb andb orb]. destruct (subtract_bkg self); reflexivity.
Qed.

(** X14.  A working image one pixel wide.  With background subtraction
    off, when the reference and the check projection along x have length
    1 and those along y have the same length, not 0, the transforms go
    through and line 141 raises IndexError: the fit reads the correlation
    at index 1, one past its only sample. *)
Theorem measure_shift_one_column (c : fits) (self : Donuts) (u : hdu)
    (cd : ndarray2) :
  subtract_bkg self = false ->
  getitem c (image_ext self) = Ok u ->
  processed self u = Ok cd ->
  List.length (ref_xproj self) = 1%nat ->
  List.length (sum_axis0 cd) = 1%nat ->
  List.length (sum_axis1 cd) = List.length (ref_yproj self) ->
  ref_yproj self <> [] ->
  measure_shift c self = (after_projections self c cd, Raise IndexError).
Proof.
  intros Hsb Hu Hcd Lr Lc Ly Hy.
  assert (Hx : ref_xproj self <> [])
    by (intro E; rewrite E in Lr; discriminate Lr).
  pose proof (@correlation_same_length (ref_xproj self) (sum_axis0 cd)
                ltac:(congruence) Hx) as Cx.
  pose proof (@correlation_same_length (ref_yproj self) (sum_axis1 cd)
                Ly Hy) as Cy.
  set (Phix := cconv _ _) in Cx. set (Phiy := cconv _ _) in Cy.
  assert (Lx : List.length Phix = 1%nat).
  { subst Phix. rewrite length_cconv, length_conjugate. cbn [samples].
    rewrite length_map. exact Lr. }
  assert (Ny : Phiy <> []).
  { intro E. apply (f_equal (@List.length complex)) in E. subst Phiy.
    rewrite length_cconv, length_conjugate in E. cbn [samples] in E.
    rewrite length_map in E. destruct (ref_yproj self); [congruence |].
    discriminate E. }
  apply correlation_inv in Cx.
  destruct Cx as (Frx & Fcx & Sx & X1 & X2 & X3 & X4).
  apply correlation_inv in Cy.
  destruct Cy as (Fry & Fcy & Sy & Y1 & Y2 & Y3 & Y4).
  to_the_transforms Hsb Hu Hcd.
  rewrite X1. repeat pstep. rewrite Y1. repeat pstep.
  rewrite X2. repeat pstep. rewrite Y2. repeat pstep.
  cbv zeta. rewrite X3. repeat pstep. rewrite Y3. repeat pstep.
  rewrite X4. repeat pstep. rewrite Y4. repeat pstep.
  destruct Phix as [| w [| w' t]]; try discriminate Lx.
  destruct Phiy as [| v t]; [congruence |].
  cbn [py_max fold_left]. repeat pstep.
  assert (W : where_eq [w] w = [0%Z]).
  { unfold where_eq. cbn [where_from]. unfold c_eqb.
    rewrite !Qc_eq_bool_refl. reflexivity. }
  rewrite W.
  assert (R : forall s, refine_x [w] [0%Z] s = (s, Raise IndexError)).
  { intros s. unfold refine_x. rewrite getitem_head, mbind_lift_ok.
    cbv zeta. rewrite le_half. cbn [List.length Z.of_nat].
    reflexivity. }
  unfold mbind at 1. rewrite R. reflexivity.
Qed.

Lemma measure_shift_one_column_witness :
  measure_shift (image_of [[4]; [5]; [6]]%Z 1)
                (instance_of [[1]; [2]; [3]]%Z 1 false false)
  = (after_projections (instance_of [[1]; [2]; [3]]%Z 1 false false)
                       (image_of [[4]; [5]; [6]]%Z 1)
                       (px [[4]; [5]; [6]]%Z 1),
     Raise IndexError).
Proof.
  apply (@measure_shift_one_column
           (image_of [[4]; [5]; [6]]%Z 1)
           (instance_of [[1]; [2]; [3]]%Z 1 false false)
           (Hdu [("EXPTIME"%string, 1)] (px [[4]; [5]; [6]]%Z 1))
           (px [[4]; [5]; [6]]%Z 1)).
  - reflexivity.
  - reflexivity.
  - reflexivity.
  - reflexivity.
  - reflexivity.
  - reflexivity.
  - discriminate.
Defined.

(** X15.  The measured shift does not depend on the brightness scale of
    the check image.  With background subtraction off, take two files
    whose processed crops have projections of the lengths of the reference
    projections (at least 3): when every entry [v] of the projections of
    the first has become [k v + m] in the second, with [k > 0] on each
    axis, [measure_shift] returns the same pair for both. *)
Theorem measure_shift_brightness_invariant (c1 c2 : fits) (self : Donuts)
    (u1 u2 : hdu) (cd1 cd2 : ndarray2) (kx mx ky my : Qc) :
  subtract_bkg self = false ->
  getitem c1 (image_ext self) = Ok u1 -> processed self u1 = Ok cd1 ->
  getitem c2 (image_ext self) = Ok u2 -> processed self u2 = Ok cd2 ->
  List.length (sum_axis0 cd1) = List.length (ref_xproj self) ->
  List.length (sum_axis1 cd1) = List.length (ref_yproj self) ->
  (3 <= List.length (ref_xproj self))%nat ->
  (3 <= List.length (ref_yproj self))%nat ->
  0 < kx -> 0 < ky ->
  sum_axis0 cd2 = rescaled kx mx (sum_axis0 cd1) ->
  sum_axis1 cd2 = rescaled ky my (sum_axis1 cd1) ->
  exists r,
    snd (measure_shift c1 self) = Ok r /\ snd (measure_shift c2 self) = Ok r.
Proof.
  intros Hsb Hu1 Hcd1 Hu2 Hcd2 Lx Ly H3x H3y Hkx Hky Ex Ey.
  assert (Nx : ref_xproj self <> [])
    by (destruct (ref_xproj self); [cbn in H3x; lia | discriminate]).
  assert (Ny : ref_yproj self <> [])
    by (destruct (ref_yproj self); [cbn in H3y; lia | discriminate]).
  destruct (@axis_rescaled _ _ kx mx Nx Lx Hkx)
    as (Px & Px' & p & Cx & Cx' & Lpx & Lpx' & Ix & Ix' & Rx & Vx & _).
  destruct (@axis_rescaled _ _ ky my Ny Ly Hky)
    as (Py & Py' & q & Cy & Cy' & Lpy & Lpy' & Iy & Iy' & Ry & _ & Vy).
  exists (refine_x_amended Px p, refine_y_amended Py q).
  rewrite (@measure_shift_run c1 self u1 cd1 Px Py p q); try assumption;
    try lia.
  rewrite (@measure_shift_run c2 self u2 cd2 Px' Py' p q); try assumption;
    try lia.
  - rewrite Vx, Vy. split; reflexivity.
  - rewrite Ex. exact Cx'.
  - rewrite Ey. exact Cy'.
Qed.

Lemma measure_shift_brightness_invariant_witness :
  exists r,
    snd (measure_shift (image_of [[3; 1; 2]; [1; 1; 5]; [1; 0; 0]]%Z 3)
                       (instance_of img3 3 false false)) = Ok r
    /\ snd (measure_shift (image_of [[7; 3; 5]; [3; 3; 11]; [3; 1; 1]]%Z 3)
                          (instance_of img3 3 false false)) = Ok r.
Proof.
  apply (@measure_shift_brightness_invariant
           (image_of [[3; 1; 2]; [1; 1; 5]; [1; 0; 0]]%Z 3)
           (image_of [[7; 3; 5]; [3; 3; 11]; [3; 1; 1]]%Z 3)
           (instance_of img3 3 false false)
           (Hdu [("EXPTIME"%string, 1)]
                (px [[3; 1; 2]; [1; 1; 5]; [1; 0; 0]]%Z 3))
           (Hdu [("EXPTIME"%string, 1)]
                (px [[7; 3; 5]; [3; 3; 11]; [3; 1; 1]]%Z 3))
           (px [[3; 1; 2]; [1; 1; 5]; [1; 0; 0]]%Z 3)
           (px [[7; 3; 5]; [3; 3; 11]; [3; 1; 1]]%Z 3)
           (ofZ 2) (ofZ 3) (ofZ 2) (ofZ 3)).
  - reflexivity.
  - reflexivity.
  - reflexivity.
  - reflexivity.
  - reflexivity.
  - reflexivity.
  - reflexivity.
  - simpl. lia.
  - simpl. lia.
  - reflexivity.
  - reflexivity.
  - vm_compute. repeat (f_equal; [apply Qc_is_canon; reflexivity |]).
    reflexivity.
  - vm_compute. repeat (f_equal; [apply Qc_is_canon; reflexivity |]).
    reflexivity.
Defined.





End Further.
